(** * WhatsApp crawler back end: identity merge, message ids, enrichment
      and the crawl orchestrator

    A shallow embedding of the back-end modules of the Electron crawler
    ([participants.js], [messageUtils.js], [enrichment.js],
    [crawl-service.js]) together with the properties that its design
    document states about them, followed by the rest of these modules,
    [exporter.js] and the handlers of [main.js] with properties read off
    the code.

    Conventions of the embedding.
    - A JavaScript string is a [string]: a sequence of 8-bit characters.
    - An optional object property is an [option]; [None] is [undefined].
    - JavaScript truthiness is written out where the source relies on it:
      a string is truthy when it is not empty, [undefined] is falsy.
    - A thrown exception is an [Error] object of which the source only
      ever reads [message]. *)

From stdpp Require Import base gmap strings list sorting pretty.
From Stdlib Require Import ZArith QArith Qround Lia Lqa String Ascii List Permutation Sorted Bool.
Import ListNotations.

Close Scope Q_scope.
Open Scope string_scope.
Open Scope list_scope.

(** ** JavaScript values and strings *)

Module Js.

(** The primitive values a loosely typed field can hold. *)
Inductive JsValue :=
| JsUndefined
| JsNull
| JsBoolean (b : bool)
| JsNumber (n : Z)
| JsString (s : string).

(** [!!s] for a string. *)
Definition truthy (s : string) : bool :=
  match s with EmptyString => false | String _ _ => true end.

(** [!!o] for an optional string property. *)
Definition truthyOpt (o : option string) : bool :=
  match o with Some s => truthy s | None => false end.

(** [a || b] on optional string properties: [a] when truthy, else [b]. *)
Definition orElse (a b : option string) : option string :=
  if truthyOpt a then a else b.

(** [s.startsWith(p)]. *)
Fixpoint startsWith (p s : string) : bool :=
  match p, s with
  | EmptyString, _ => true
  | String a p', String b s' => if Ascii.eqb a b then startsWith p' s' else false
  | String _ _, EmptyString => false
  end.

(** [s.includes(needle)]. *)
Fixpoint includes (s needle : string) : bool :=
  startsWith needle s ||
  match s with
  | EmptyString => false
  | String _ s' => includes s' needle
  end.

(** [s.split(sep)] for a one-character separator: the pieces between
    consecutive separators; never the empty list. *)
Fixpoint split (sep : ascii) (s : string) : list string :=
  match s with
  | EmptyString => [EmptyString]
  | String c s' =>
      if Ascii.eqb c sep then EmptyString :: split sep s'
      else match split sep s' with
           | p :: ps => String c p :: ps
           | [] => [String c EmptyString]
           end
  end.

(** [parts.join(sep)]. *)
Fixpoint join (sep : ascii) (parts : list string) : string :=
  match parts with
  | [] => EmptyString
  | [p] => p
  | p :: ps => p ++ String sep (join sep ps)
  end.

(** The characters that [.] does not match in a regular expression without
    the [s] flag. Of the four ECMAScript line terminators only line feed
    and carriage return are 8-bit characters. *)
Definition isLineTerminator (c : ascii) : bool :=
  Ascii.eqb c "010"%char || Ascii.eqb c "013"%char.

(** What is left of a string once a greedy [.*] has consumed all it can. *)
Fixpoint afterDotStar (s : string) : string :=
  match s with
  | EmptyString => EmptyString
  | String c s' => if isLineTerminator c then s else afterDotStar s'
  end.

(** [s.replace(/@.*/, '')]: the leftmost match starts at the first [@] and
    runs to the end of that line; only this first match is removed. *)
Fixpoint stripDomain (s : string) : string :=
  match s with
  | EmptyString => EmptyString
  | String c s' =>
      if Ascii.eqb c "@"%char then afterDotStar s' else String c (stripDomain s')
  end.

(** The part of a string before its first [@] (the whole string when it has
    none): what remains when everything from [@] on is removed. *)
Fixpoint beforeAt (s : string) : string :=
  match s with
  | EmptyString => EmptyString
  | String c s' =>
      if Ascii.eqb c "@"%char then EmptyString else String c (beforeAt s')
  end.

Fixpoint noChar (c : ascii) (s : string) : bool :=
  match s with
  | EmptyString => true
  | String d s' => negb (Ascii.eqb d c) && noChar c s'
  end.

Fixpoint singleLine (s : string) : bool :=
  match s with
  | EmptyString => true
  | String c s' => negb (isLineTerminator c) && singleLine s'
  end.

(** A thrown [Error] object. The orchestrator only ever reads [message];
    [errorName] tells a [RangeError] from a plain [Error]. *)
Record JsError := mkError { errorName : string; message : string }.

Definition newError (msg : string) : JsError := mkError "Error" msg.

(** How a call ends: it returns a value or throws. *)
Inductive Outcome (A : Type) :=
| Returned (v : A)
| Thrown (e : JsError).
Arguments Returned {A} v.
Arguments Thrown {A} e.

(** The number a comparison function hands to [Array.prototype.sort];
    [None] is [NaN], which the sort treats as [+0]. *)
Definition order {A : Type} (comparefn : A -> A -> option Z) (x y : A) : Z :=
  match comparefn x y with Some v => v | None => 0%Z end.

End Js.

(** ** messageUtils.js: parseMessageId *)

Module MessageUtils.
Import Js.

(** The two shapes of object that [parseMessageId] returns. *)
Inductive ParsedMessageId :=
| InvalidId (reason : string) (raw : JsValue)
| ValidId (chatId msgHashId senderId : string).

Definition valid (p : ParsedMessageId) : bool :=
  match p with ValidId _ _ _ => true | InvalidId _ _ => false end.

Definition parseMessageId (messageId : JsValue) : ParsedMessageId :=
  match messageId with
  | JsString s =>
      match split "_" s with
      | [fromMeRaw; chatId; msgHashId; senderIdRaw] =>
          ValidId chatId msgHashId (stripDomain senderIdRaw)
      | _ => InvalidId "Invalid message ID format" messageId
      end
  | _ => InvalidId "Message ID is not a string" messageId
  end.

(** Vocabulary for statements about message ids. *)
Definition isString (v : JsValue) : bool :=
  match v with JsString _ => true | _ => false end.

Definition fourParts (p1 p2 p3 p4 : string) : string :=
  join "_" [p1; p2; p3; p4].

Definition underscoreFree (p : string) : Prop := noChar "_" p = true.

(** A sender part that goes on after a line break. *)
Definition twoLineSender : string :=
  ("972501234567@c.us" ++ String "010" "x")%string.

End MessageUtils.

(** ** participants.js: mergeParticipants *)

Module Participants.
Import Js.

(** A partial identity as [parseParticipant] produces it: any subset of a
    linked id, a phone number and a name, or a lone [unknown] token. *)
Record Identity := mkIdentity {
  p_id : option string;
  p_phone : option string;
  p_name : option string;
  p_unknown : option string
}.

(** The default argument [{}]. *)
Definition emptyIdentity : Identity := mkIdentity None None None None.

(** The merged record. [id], [phone] and [name] are always assigned (maybe
    to [undefined]); an [alt] key exists only after a conflict. *)
Record Merged := mkMerged {
  m_id : option string;
  m_altId : option string;
  m_phone : option string;
  m_altPhone : option string;
  m_name : option string;
  m_altName : option string
}.

(** [x !== y] on two optional strings. *)
Definition strictNe (x y : option string) : bool := negb (bool_decide (x = y)).

Definition mergeParticipants (a b : Identity) : Merged :=
  let '(id, altId) :=
    if truthyOpt (p_id a) && truthyOpt (p_id b) && strictNe (p_id a) (p_id b)
    then (p_id a, p_id b)
    else (orElse (p_id a) (p_id b), None) in
  let '(phone, altPhone) :=
    if truthyOpt (p_phone a) && truthyOpt (p_phone b) && strictNe (p_phone a) (p_phone b)
    then (p_phone a, p_phone b)
    else (orElse (p_phone a) (p_phone b), None) in
  let '(name, altName) :=
    if truthyOpt (p_name a) && truthyOpt (p_name b) && strictNe (p_name a) (p_name b)
    then (p_name a, p_name b)
    else (orElse (p_name a) (p_name b), None) in
  let name := if truthyOpt (p_unknown a) && negb (truthyOpt name) then p_unknown a else name in
  let name := if truthyOpt (p_unknown b) && negb (truthyOpt name) then p_unknown b else name in
  mkMerged id altId phone altPhone name altName.

(** The non-empty values a merged record carries for one field: those under
    the primary key and under the [alt] key. *)
Definition carried (primary alt : option string) : list string :=
  (if truthyOpt primary then option_list primary else []) ++
  (if truthyOpt alt then option_list alt else []).

(** All values a merged record holds, whatever their key. *)
Definition mergedValues (m : Merged) : list string :=
  option_list (m_id m) ++ option_list (m_altId m) ++
  option_list (m_phone m) ++ option_list (m_altPhone m) ++
  option_list (m_name m) ++ option_list (m_altName m).

(** All field values of a partial identity. *)
Definition identityValues (p : Identity) : list string :=
  option_list (p_id p) ++ option_list (p_phone p) ++ option_list (p_name p) ++
  option_list (p_unknown p).

(** What the merge does to one of [id], [phone], [name]: the value under
    the primary key and the value under the [alt] key. *)
Definition mergeField (x y : option string) : option string * option string :=
  if truthyOpt x && truthyOpt y && strictNe x y then (x, y) else (orElse x y, None).

(** The two closing statements of the merge: an [unknown] token becomes
    the name when there is none yet. *)
Definition nameFallback (name unknownA unknownB : option string) : option string :=
  let name := if truthyOpt unknownA && negb (truthyOpt name) then unknownA else name in
  if truthyOpt unknownB && negb (truthyOpt name) then unknownB else name.

(** Both records lack a name and carry different [unknown] tokens: the one
    case in which the second token is dropped. *)
Definition tokensCompete (a b : Identity) : Prop :=
  truthyOpt (p_name a) = false /\ truthyOpt (p_name b) = false /\
  truthyOpt (p_unknown a) = true /\ truthyOpt (p_unknown b) = true /\
  p_unknown a <> p_unknown b.

(** Sample records. *)
Definition named (n : string) : Identity := mkIdentity None None (Some n) None.
Definition token (u : string) : Identity := mkIdentity None None None (Some u).
Definition linkedDana : Identity :=
  mkIdentity (Some "17@lid") (Some "972501234567") (Some "Dana") None.
Definition phoneDan : Identity :=
  mkIdentity None (Some "972529999999") (Some "Dan") (Some "anon-3").

End Participants.

(** ** Array.prototype.sort *)

Module Sorting.
Import Js.

Section Algorithms.
Context {A : Type}.
Variable comparefn : A -> A -> option Z.

(** *** The stable sort that ECMAScript prescribes

    When the comparison function is consistent, the language fixes the
    result: ascending, equal elements in their original order. Inserting
    the elements one by one, each after everything not greater than it,
    computes exactly that list. *)

Fixpoint insertLast (x : A) (sorted : list A) : list A :=
  match sorted with
  | [] => [x]
  | y :: rest =>
      if (order comparefn x y <? 0)%Z then x :: y :: rest
      else y :: insertLast x rest
  end.

Definition stableSort (l : list A) : list A :=
  fold_left (fun sorted x => insertLast x sorted) l [].

(** *** What V8 does on a short array

    Electron runs V8, whose [Array.prototype.sort] is TimSort. On an array
    of fewer than 64 elements TimSort takes the run that starts the array
    (reversing it when it is strictly descending) and places every later
    element by binary insertion. With an inconsistent comparison function
    the language leaves the order to the engine; this is the order V8
    produces. *)

(** How many elements after [previous] continue the run. *)
Fixpoint runTail (isDescending : bool) (previous : A) (rest : list A) : nat :=
  match rest with
  | [] => 0
  | current :: rest' =>
      let o := order comparefn current previous in
      if isDescending then
        if (0 <=? o)%Z then 0 else S (runTail isDescending current rest')
      else
        if (o <? 0)%Z then 0 else S (runTail isDescending current rest')
  end.

(** [CountAndMakeRun]: the initial run, made ascending, and what follows. *)
Definition countAndMakeRun (work : list A) : list A * list A :=
  match work with
  | elementHigh :: elementLow :: rest =>
      let isDescending := (order comparefn elementLow elementHigh <? 0)%Z in
      let runLength := 2 + runTail isDescending elementLow rest in
      let run := firstn runLength work in
      (if isDescending then rev run else run, skipn runLength work)
  | _ => (work, [])
  end.

(** The binary search of [BinaryInsertionSort] for the slot of [pivot] in
    [work[left..right)]. *)
Fixpoint binarySearch (pivot : A) (work : list A) (fuel left right : nat) : nat :=
  match fuel with
  | O => left
  | S fuel' =>
      if (left <? right)%nat then
        let mid := left + Nat.div2 (right - left) in
        match nth_error work mid with
        | Some element =>
            if (order comparefn pivot element <? 0)%Z
            then binarySearch pivot work fuel' left mid
            else binarySearch pivot work fuel' (mid + 1) right
        | None => left
        end
      else left
  end.

(** [BinaryInsertionSort]: [work] is the part already in place. *)
Fixpoint binaryInsertionSort (work rest : list A) : list A :=
  match rest with
  | [] => work
  | pivot :: rest' =>
      let left := binarySearch pivot work (length work) 0 (length work) in
      binaryInsertionSort (firstn left work ++ pivot :: skipn left work) rest'
  end.

Definition shortArraySort (l : list A) : list A :=
  let '(run, rest) := countAndMakeRun l in
  binaryInsertionSort run rest.

End Algorithms.

(** *** The contract of the built-in

    An engine is free in how it sorts, within two promises of the language:
    the result holds the same elements, and if the comparison function is
    consistent on them (here: it is the difference of a numeric key) the
    result is the stable ascending order. *)

Definition ArraySort := forall A : Type, (A -> A -> option Z) -> list A -> list A.

Definition keyedOn {A : Type} (comparefn : A -> A -> option Z) (key : A -> Z)
  (l : list A) : Prop :=
  forall x y, In x l -> In y l -> comparefn x y = Some (key x - key y)%Z.

Record Conforming (sort : ArraySort) : Prop := {
  sort_permutation :
    forall A (comparefn : A -> A -> option Z) (l : list A),
      Permutation l (sort A comparefn l);
  sort_stable :
    forall A (comparefn : A -> A -> option Z) (key : A -> Z) (l : list A),
      keyedOn comparefn key l -> sort A comparefn l = stableSort comparefn l
}.

(** The comparison function that is the difference of a numeric key. *)
Definition byKey {A : Type} (key : A -> Z) : A -> A -> option Z :=
  fun x y => Some (key x - key y)%Z.

(** Two comparison functions that hand the sort the same numbers on the
    elements of a list. *)
Definition agreeOn {A : Type} (c1 c2 : A -> A -> option Z) (l : list A) : Prop :=
  forall x y, In x l -> In y l -> order c1 x y = order c2 x y.

Definition ascending {A : Type} (key : A -> Z) (l : list A) : Prop :=
  StronglySorted (fun x y => (key x <= key y)%Z) l.

(** The elements of a list with a given key, in the order of the list. *)
Definition withKey {A : Type} (key : A -> Z) (k : Z) (l : list A) : list A :=
  List.filter (fun x => (key x =? k)%Z) l.

(** Where [x] belongs in an ascending list: behind everything not greater
    than it. *)
Definition slot {A : Type} (key : A -> Z) (x : A) (work : list A) : nat :=
  length (List.filter (fun y => (key y <=? key x)%Z) work).

(** Two engines: the reference stable sort and V8 on short arrays. *)
Definition referenceSort : ArraySort := fun A comparefn l => stableSort comparefn l.
Definition v8Sort : ArraySort := fun A comparefn l => shortArraySort comparefn l.

End Sorting.

(** ** messageUtils.js and enrichment.js: the enrichment pipeline *)

Module Enrichment.
Import Js MessageUtils.

(** The helpers of [common.js] are taken as given, so that what follows
    holds whatever they compute. [isPhoneNumber] and [isLid] are shape
    tests on a string, [normalizePhoneNumber] rewrites a phone-shaped
    string, [hebrewifyIfNeeded] cleans a name. *)
Record Common := mkCommon {
  isPhoneNumber : string -> bool;
  normalizePhoneNumber : string -> string;
  isLid : string -> bool;
  hebrewifyIfNeeded : string -> string
}.

(** The built-ins of the JavaScript engine that the pipeline calls:
    [Array.prototype.sort] and the rendering of a valid time value (in
    milliseconds) by [Date.prototype.toISOString]. *)
Record Engine := mkEngine {
  arraySort : Sorting.ArraySort;
  toISOString : Z -> string
}.

(** A sender object of the remote client. *)
Record Contact := mkContact {
  c_id : option string;
  c_formattedName : option string;
  c_pushname : option string;
  c_name : option string
}.

(** [msg.sender] is a string or a contact object. *)
Inductive Sender :=
| SenderString (s : string)
| SenderContact (c : Contact).

Record QuotedMsg := mkQuotedMsg {
  q_isMedia : bool;
  q_body : option string;
  q_content : option string
}.

Record ReactionSender := mkReactionSender { senderUserJid : string }.

Record Reaction := mkReaction {
  aggregateEmoji : string;
  senders : list ReactionSender
}.

(** What the [timestamp] property of a message holds. The remote delivers
    a number or nothing: [Seconds t] is a finite number, [t] whole epoch
    seconds; [NaN] is the number [NaN], which [typeof] calls a number like
    any other; [Missing] is [undefined]. *)
Inductive Timestamp :=
| Missing
| NaN
| Seconds (t : Z).

(** A raw message. [msg_author] is [Some] exactly when the property is a
    string. *)
Record RawMessage := mkRawMessage {
  msg_id : string;
  msg_timestamp : Timestamp;
  msg_author : option string;
  msg_sender : option Sender;
  msg_isMedia : bool;
  msg_body : option string;
  msg_content : option string;
  msg_quotedMsg : option QuotedMsg;
  msg_quotedParticipant : option string;
  msg_quotedStanzaID : option string;
  msg_reactions : list Reaction
}.

(** A roster entry as the remote client supplies it. *)
Record RawParticipant := mkRawParticipant {
  raw_id : option string;
  raw_name : option string;
  raw_shortName : option string;
  raw_pushname : option string;
  raw_formattedName : option string
}.

(** A roster entry after [filterParticipants]; [part_phone = None] is
    [null]. *)
Record Participant := mkParticipant {
  part_id : string;
  part_name : option string;
  part_shortName : option string;
  part_pushname : option string;
  part_phone : option string
}.

(** [sender]: a roster member or the literal ["Unknown Member"]. *)
Inductive ResolvedSender :=
| Member (p : Participant)
| UnknownMember.

(** [replyTo.author]: a roster member or the raw token. *)
Inductive Author :=
| AuthorMember (p : Participant)
| AuthorRaw (s : string).

Record ReplyReference := mkReplyReference {
  ref : string;
  reply_author : Author;
  reply_body : string
}.

Record ReactionSummary := mkReactionSummary {
  emoji : string;
  count : nat;
  reactedBy : list string
}.

(** The object [enrichSingleMessage] builds. *)
Record Enriched := mkEnriched {
  e_id : string;
  e_sender : ResolvedSender;
  e_timestamp : Timestamp;
  e_body : string;
  e_replyTo : option ReplyReference;
  e_reactions : option (list ReactionSummary)
}.

(** The object [addFinalMetadata] builds. *)
Record EnrichedMessage := mkEnrichedMessage {
  serialNumber : nat;
  datetime : string;
  messageId : string;
  sender : ResolvedSender;
  body : string;
  replyTo : option ReplyReference;
  reactions : option (list ReactionSummary)
}.

Section Pipeline.
Variable common : Common.
Variable engine : Engine.

(** participants.js. An entry whose [formattedName] is missing gets no
    phone: the phone test of [common.js] is a pattern match on digits, which
    [undefined] does not pass. *)
Definition filterParticipants (participants : list (option RawParticipant))
  : list Participant :=
  omap (fun entry =>
          match entry with
          | Some p =>
              match raw_id p with
              | Some id =>
                  if truthy id then
                    Some (mkParticipant id (raw_name p) (raw_shortName p) (raw_pushname p)
                            (match raw_formattedName p with
                             | Some f =>
                                 if isPhoneNumber common f
                                 then Some (normalizePhoneNumber common f) else None
                             | None => None
                             end))
                  else None
              | None => None
              end
          | None => None
          end) participants.

(** The candidate list that [getPhoneNumber] and [getLid] both build. *)
Definition pushIfTruthy (o : option string) : list string :=
  if truthyOpt o then option_list o else [].

Definition candidates (msg : RawMessage) : list string :=
  option_list (msg_author msg) ++
  match msg_sender msg with
  | Some (SenderString s) => if truthy s then [s] else []
  | Some (SenderContact c) =>
      pushIfTruthy (c_id c) ++ pushIfTruthy (c_formattedName c) ++
      pushIfTruthy (c_pushname c) ++ pushIfTruthy (c_name c)
  | None => []
  end.

Definition getPhoneNumber (msg : RawMessage) : option string :=
  match List.find (isPhoneNumber common) (candidates msg) with
  | Some value => Some (normalizePhoneNumber common value)
  | None => None
  end.

Definition getLid (msg : RawMessage) : option string :=
  List.find (isLid common) (candidates msg).

(** enrichment.js *)
Definition findByPhone (members : list Participant) (phone : string)
  : option Participant :=
  List.find (fun p => bool_decide (part_phone p = Some phone)) members.

Definition findById (members : list Participant) (id : string)
  : option Participant :=
  List.find (fun p => bool_decide (part_id p = id)) members.

Definition memberOrUnknown (found : option Participant) : ResolvedSender :=
  match found with Some p => Member p | None => UnknownMember end.

Definition resolveSender (msg : RawMessage) (members : list Participant)
  : ResolvedSender :=
  let phone := getPhoneNumber msg in
  match phone with
  | Some ph =>
      if truthy ph then memberOrUnknown (findByPhone members ph)
      else match getLid msg with
           | Some lid =>
               if truthy lid then memberOrUnknown (findById members lid)
               else UnknownMember
           | None => UnknownMember
           end
  | None =>
      match getLid msg with
      | Some lid =>
          if truthy lid then memberOrUnknown (findById members lid)
          else UnknownMember
      | None => UnknownMember
      end
  end.

Definition extractMessageBody (isMedia : bool) (body content : option string)
  : string :=
  if isMedia then "<Media Message (Truncated)>"
  else match orElse (orElse body content) (Some "[No text]") with
       | Some text => text
       | None => "[No text]"
       end.

Definition buildReplyTo (msg : RawMessage) (members : list Participant)
  : option ReplyReference :=
  match msg_quotedMsg msg, msg_quotedParticipant msg with
  | Some quotedMsg, Some quoted =>
      if truthy quoted then
        let author :=
          if isPhoneNumber common quoted then
            match findByPhone members (normalizePhoneNumber common quoted) with
            | Some p => AuthorMember p
            | None => AuthorRaw quoted
            end
          else if isLid common quoted then
            match findById members quoted with
            | Some p => AuthorMember p
            | None => AuthorRaw quoted
            end
          else AuthorRaw quoted in
        Some (mkReplyReference
                (match orElse (msg_quotedStanzaID msg) (Some "unresolved reference") with
                 | Some r => r
                 | None => "unresolved reference"
                 end)
                author
                (extractMessageBody (q_isMedia quotedMsg) (q_body quotedMsg)
                   (q_content quotedMsg)))
      else None
  | _, _ => None
  end.

Definition formatReactionsForMessage (msg : RawMessage)
  : option (list ReactionSummary) :=
  match msg_reactions msg with
  | [] => None
  | rs =>
      Some (map (fun reaction =>
                   mkReactionSummary (aggregateEmoji reaction)
                     (length (senders reaction))
                     (map (fun s => stripDomain (senderUserJid s)) (senders reaction)))
              rs)
  end.

Definition enrichSingleMessage (msg : RawMessage) (members : list Participant)
  : Enriched :=
  let parsedId := parseMessageId (JsString (msg_id msg)) in
  mkEnriched
    (match parsedId with
     | ValidId _ msgHashId _ => msgHashId
     | InvalidId _ _ => msg_id msg
     end)
    (resolveSender msg members)
    (msg_timestamp msg)
    (extractMessageBody (msg_isMedia msg) (msg_body msg) (msg_content msg))
    (buildReplyTo msg members)
    (formatReactionsForMessage msg).

(** [typeof timestamp === 'number' && timestamp > 0]; [NaN] is a number
    that is above nothing. *)
Definition isValidTimestamp (timestamp : Timestamp) : bool :=
  match timestamp with
  | Seconds t => (0 <? t)%Z
  | NaN => false
  | Missing => false
  end.

Definition isValidMessage (msg : Enriched) : bool :=
  isValidTimestamp (e_timestamp msg).

(** [a.timestamp - b.timestamp]: a number, or [NaN] when a side is [NaN]
    or [undefined]. *)
Definition timestampDifference (a b : Timestamp) : option Z :=
  match a, b with
  | Seconds x, Seconds y => Some (x - y)%Z
  | _, _ => None
  end.

Definition sortByTimestamp (a b : RawMessage) : option Z :=
  timestampDifference (msg_timestamp a) (msg_timestamp b).

Definition sortEnrichedByTimestamp (a b : Enriched) : option Z :=
  timestampDifference (e_timestamp a) (e_timestamp b).

(** The largest time value, in milliseconds, that a [Date] can hold. *)
Definition maxTimeValue : Z := 8640000000000000.

(** [new Date(timestamp * 1000).toISOString()]; an out-of-range or missing
    time makes the date invalid and [toISOString] throws. *)
Definition formatTimestamp (timestamp : Timestamp) : Outcome string :=
  match timestamp with
  | Seconds t =>
      if (Z.abs (t * 1000) <=? maxTimeValue)%Z
      then Returned (toISOString engine (t * 1000))
      else Thrown (mkError "RangeError" "Invalid time value")
  | NaN => Thrown (mkError "RangeError" "Invalid time value")
  | Missing => Thrown (mkError "RangeError" "Invalid time value")
  end.

Definition addFinalMetadata (msg : Enriched) (index : nat) : Outcome EnrichedMessage :=
  match formatTimestamp (e_timestamp msg) with
  | Returned datetime =>
      Returned (mkEnrichedMessage (index + 1) datetime (e_id msg) (e_sender msg)
                  (e_body msg) (e_replyTo msg) (e_reactions msg))
  | Thrown e => Thrown e
  end.

(** [list.map(addFinalMetadata)], the callback running on the elements in
    order from index [index]; the first throw ends the call. *)
Fixpoint mapFinalMetadata (index : nat) (msgs : list Enriched)
  : Outcome (list EnrichedMessage) :=
  match msgs with
  | [] => Returned []
  | msg :: rest =>
      match addFinalMetadata msg index with
      | Returned final =>
          match mapFinalMetadata (S index) rest with
          | Returned finals => Returned (final :: finals)
          | Thrown e => Thrown e
          end
      | Thrown e => Thrown e
      end
  end.

(** The two arrays the caller passes, as they stand before and after the
    call. *)
Record Arrays := mkArrays {
  messagesArray : list RawMessage;
  membersArray : list Participant
}.

(** [enrichMessages(messages, members)]. The first statement sorts the
    caller's array in place; everything after it builds new arrays. *)
Definition enrichMessages (args : Arrays) : Outcome (list EnrichedMessage) * Arrays :=
  let messages := arraySort engine _ sortByTimestamp (messagesArray args) in
  let members := membersArray args in
  let enriched := map (fun msg => enrichSingleMessage msg members) messages in
  (mapFinalMetadata 0
     (arraySort engine _ sortEnrichedByTimestamp (List.filter isValidMessage enriched)),
   mkArrays messages members).

(** *** Vocabulary for statements about the pipeline *)

(** The timestamp of the raw message is of type number, [NaN] included. *)
Definition numeric (msg : RawMessage) : Prop := msg_timestamp msg <> Missing.

(** The timestamp of the raw message is a finite number. *)
Definition finiteNumber (msg : RawMessage) : Prop :=
  exists t, msg_timestamp msg = Seconds t.

(** The raw message passes [isValidMessage] once enriched. *)
Definition validRaw (msg : RawMessage) : bool := isValidTimestamp (msg_timestamp msg).

Definition timestampKey (msg : RawMessage) : Z :=
  match msg_timestamp msg with Seconds t => t | _ => 0%Z end.

Definition enrichedKey (msg : Enriched) : Z :=
  match e_timestamp msg with Seconds t => t | _ => 0%Z end.

(** The timestamp, in milliseconds, is a time value a [Date] can hold. *)
Definition inDateRange (msg : RawMessage) : Prop :=
  (Z.abs (timestampKey msg * 1000) <= maxTimeValue)%Z.

(** The output record for the raw message that ends up at [index]. *)
Definition finalOf (members : list Participant) (index : nat) (msg : RawMessage)
  : EnrichedMessage :=
  let e := enrichSingleMessage msg members in
  mkEnrichedMessage (index + 1) (toISOString engine (timestampKey msg * 1000))
    (e_id e) (e_sender e) (e_body e) (e_replyTo e) (e_reactions e).

(** The raw messages behind the output, in output order: the valid ones
    of the array as the first sort left it, sorted again. *)
Definition kept (messages : list RawMessage) : list RawMessage :=
  Sorting.stableSort sortByTimestamp
    (List.filter validRaw (arraySort engine _ sortByTimestamp messages)).

End Pipeline.

(** *** Sample messages *)

Definition stamped (id : string) (timestamp : Timestamp) : RawMessage :=
  mkRawMessage id timestamp None None false (Some "text") None None None None [].

(** Seven messages in arrival order; three of them lack a timestamp, two
    share the timestamp 3. *)
Definition tieInput : list RawMessage :=
  [stamped "m1" Missing; stamped "m2" Missing; stamped "m3" (Seconds 4);
   stamped "m4" (Seconds 2); stamped "m5" Missing; stamped "m6" (Seconds 3);
   stamped "m7" (Seconds 3)].

(** The same seven messages with [NaN] where the timestamp was lacking:
    now every timestamp is of type number. *)
Definition nanInput : list RawMessage :=
  [stamped "m1" NaN; stamped "m2" NaN; stamped "m3" (Seconds 4);
   stamped "m4" (Seconds 2); stamped "m5" NaN; stamped "m6" (Seconds 3);
   stamped "m7" (Seconds 3)].

(** Two messages that arrive newest first. *)
Definition newestFirst : list RawMessage :=
  [stamped "late" (Seconds 2); stamped "early" (Seconds 1)].

(** The same two messages oldest first. *)
Definition oldestFirst : list RawMessage :=
  [stamped "early" (Seconds 1); stamped "late" (Seconds 2)].

Definition dana : Participant :=
  mkParticipant "17@lid" (Some "Dana") None None (Some "972501234567").

(** The boundary timestamps: 0, missing, [NaN], 1. *)
Definition boundaryInput : list RawMessage :=
  [stamped "zero" (Seconds 0); stamped "none" Missing; stamped "nan" NaN;
   stamped "one" (Seconds 1)].

(** A timestamp past the last day a [Date] can hold. *)
Definition farFuture : list RawMessage := [stamped "far" (Seconds 8640000000001)].

Definition noCommon : Common :=
  mkCommon (fun _ => false) (fun s => s) (fun _ => false) (fun s => s).

(** V8's sort; dates are rendered as the numeral of their time value. *)
Definition v8Engine : Engine := mkEngine Sorting.v8Sort (fun ms => pretty ms).

End Enrichment.

(** ** crawl-service.js: the crawl orchestrator *)

Module Crawl.
Import Js Enrichment.

(** *** The world the orchestrator runs in *)

Section Remote.

(** Everything outside the process: the remote session behind the
    automation client and the local file system. *)
Context {Ext : Type}.

(** The answer of an external call: how it ended, the state it left
    behind and the milliseconds it took. Every external call is taken to
    answer. *)
Record Reply (A : Type) := mkReply {
  reply_outcome : Outcome A;
  reply_state : Ext;
  reply_elapsed : N
}.
Arguments mkReply {A} _ _ _.
Arguments reply_outcome {A} _.
Arguments reply_state {A} _.
Arguments reply_elapsed {A} _.

Record GroupMetadata := mkGroupMetadata {
  owner : option string;
  metadataParticipants : option nat
}.

(** A group as [client.getAllGroups()] lists it; [metadataParticipants] is
    the length of [groupMetadata.participants] when that array exists. *)
Record RawGroup := mkRawGroup {
  group_id : string;
  group_name : option string;
  group_description : option string;
  groupMetadata : option GroupMetadata
}.

Record Chat := mkChat { chat_id : string }.

(** The remote automation client. *)
Record Client := mkClient {
  getAllGroups : Ext -> Reply (list RawGroup);
  getGroupMembers : string -> Ext -> Reply (list (option RawParticipant));
  getChatById : string -> Ext -> Reply (option Chat);
  loadEarlierMessages : string -> Ext -> Reply (list RawMessage)
}.

(** A group as [getGroups] formats it for the user interface. *)
Record Group := mkGroup {
  id : string;
  name : string;
  originalName : option string;
  participantCount : nat;
  isGroupChat : bool;
  description : string;
  createdBy : string
}.

Record Metadata := mkMetadata {
  md_groupName : string;
  md_groupId : string;
  md_participantCount : nat;
  md_messageCount : nat;
  md_exportDate : string;
  md_exportedBy : string
}.

Record ExportData := mkExportData {
  metadata : Metadata;
  exportMessages : list EnrichedMessage;
  exportParticipants : list Participant
}.

(** The local machine: [os], [path], [fs], and the two helpers whose only
    effect on the orchestrator is a file written or an exception thrown
    ([analyzeMessageWordCounts] of enrichment.js and [writeExportFile] of
    exporter.js). *)
Record Host := mkHost {
  homedir : string;
  pathJoin : string -> string -> string;
  existsSync : string -> Ext -> bool;
  mkdirSync : string -> Ext -> Reply unit;
  analyzeMessageWordCounts : list EnrichedMessage -> Ext -> Reply unit;
  writeExportFile : ExportData -> string -> string -> Ext -> Reply unit
}.

(** The state threaded through the orchestrator: the outside world, the
    clock ([Date.now()], in milliseconds) and the delays handed to
    [setTimeout] so far, latest first. *)
Record World := mkWorld {
  outside : Ext;
  clock : Z;
  timers : list Q
}.

(** An [async] function: it runs from a world and returns or throws. *)
Definition M (A : Type) : Type := World -> Outcome A * World.

Definition ret {A : Type} (v : A) : M A := fun w => (Returned v, w).

Definition throw {A : Type} (e : JsError) : M A := fun w => (Thrown e, w).

Definition bind {A B : Type} (m : M A) (k : A -> M B) : M B :=
  fun w =>
    match m w with
    | (Returned v, w') => k v w'
    | (Thrown e, w') => (Thrown e, w')
    end.

(** [try { body } catch (error) { handler }]. *)
Definition tryCatch {A : Type} (body : M A) (handler : JsError -> M A) : M A :=
  fun w =>
    match body w with
    | (Returned v, w') => (Returned v, w')
    | (Thrown e, w') => handler e w'
    end.

(** [await] of an external call. *)
Definition call {A : Type} (request : Ext -> Reply A) : M A :=
  fun w =>
    let r := request (outside w) in
    (reply_outcome r,
     mkWorld (reply_state r) (clock w + Z.of_N (reply_elapsed r)) (timers w)).

(** The time a timer set with [delay] takes: the delay cut to a whole
    number of milliseconds, and 1 when that is below 1 or above
    2147483647. *)
Definition timerDuration (delay : Q) : Z :=
  let ms := Qfloor delay in
  if (1 <=? ms)%Z && (ms <=? 2147483647)%Z then ms else 1%Z.

(** [await new Promise(resolve => setTimeout(resolve, delay))]. *)
Definition setTimeout (delay : Q) : M unit :=
  fun w =>
    (Returned tt,
     mkWorld (outside w) (clock w + timerDuration delay) (delay :: timers w)).

(** [Date.now()]. *)
Definition now : M Z := fun w => (Returned (clock w), w).

(** [fs.existsSync]. *)
Definition exists_ (test : Ext -> bool) : M bool :=
  fun w => (Returned (test (outside w)), w).

End Remote.

Arguments Reply : clear implicits.
Arguments Client : clear implicits.
Arguments Host : clear implicits.
Arguments World : clear implicits.
Arguments M : clear implicits.
Arguments mkReply {Ext A} _ _ _.
Arguments reply_outcome {Ext A} _.
Arguments reply_state {Ext A} _.
Arguments reply_elapsed {Ext A} _.

Notation "x <- m ;; k" := (bind m (fun x => k))
  (at level 100, m at level 99, right associativity).
Notation "m ;;; k" := (bind m (fun _ => k))
  (at level 100, right associativity).

Section Orchestrator.
Context {Ext : Type}.
Variable common : Common.
Variable engine : Engine.
Variable host : Host Ext.

(** *** retryOnDetachedFrame *)

Definition isDetachedFrame (error : JsError) : bool :=
  truthy (message error) &&
  (includes (message error) "detached Frame" ||
   includes (message error) "Execution context was destroyed" ||
   includes (message error) "Cannot find context" ||
   includes (message error) "Protocol error").

(** The [for] loop, entered with [attempt] and [remaining] iterations to
    go: [remaining = maxRetries + 1 - attempt], so the loop condition
    [attempt <= maxRetries] holds exactly when [remaining] is not zero.
    Falling out of the loop returns [undefined], here [None]. *)
Fixpoint retryLoop {A : Type} (operation : M Ext A) (maxRetries remaining attempt : nat)
  (delay : Q) : M Ext (option A) :=
  match remaining with
  | O => ret None
  | S remaining' =>
      tryCatch (v <- operation ;; ret (Some v))
        (fun error =>
           if isDetachedFrame error && (attempt <? maxRetries)%nat then
             setTimeout delay ;;;
             retryLoop operation maxRetries remaining' (attempt + 1) (delay * (3 # 2))%Q
           else throw error)
  end.

Definition retryOnDetachedFrame {A : Type} (operation : M Ext A) (maxRetries : nat)
  (delay : Q) : M Ext (option A) :=
  retryLoop operation maxRetries maxRetries 1 delay.

(** *** waitForChatReady *)

Definition chatProbe (client : Client Ext) (chatId : string) : M Ext Chat :=
  chat <- call (getChatById client chatId) ;;
  match chat with
  | Some c => ret c
  | None => throw (newError "Chat not found")
  end.

(** The [while] loop. A loop that runs on the clock has no structural
    bound, so the model counts iterations down from [fuel] and answers
    [None] should the count run out before the loop ends. *)
Fixpoint waitLoop (fuel : nat) (client : Client Ext) (chatId : string)
  (startTime timeout : Z) (w : World Ext) : option (Outcome bool * World Ext) :=
  if (clock w - startTime <? timeout)%Z then
    match fuel with
    | O => None
    | S fuel' =>
        match retryOnDetachedFrame (chatProbe client chatId) 3 1000 w with
        | (Returned _, w1) => Some (Returned true, w1)
        | (Thrown _, w1) =>
            waitLoop fuel' client chatId startTime timeout (snd (setTimeout 1000 w1))
        end
    end
  else
    Some (Thrown (newError ("Chat " ++ chatId ++ " not ready after " ++
                            pretty timeout ++ "ms")), w).

(** Every failed probe is followed by a wait of 1000 ms, so
    [timeout / 1000 + 1] iterations always suffice
    (lemma [waitLoop_terminates]); the [None] branch is never taken. *)
Definition waitForChatReady (client : Client Ext) (chatId : string) (timeout : Z)
  : M Ext bool :=
  fun w =>
    match waitLoop (S (Z.to_nat (timeout / 1000))) client chatId
            (clock w) timeout w with
    | Some r => r
    | None => (Thrown (newError "waitForChatReady: out of fuel"), w)
    end.

(** *** loadAllMessages *)

(** The [for (const msg of newMessages)] loop with its three variables. *)
Fixpoint addUnseen (newMessages allMessages : list RawMessage)
  (seenIds : gset string) (added : nat) : list RawMessage * gset string * nat :=
  match newMessages with
  | [] => (allMessages, seenIds, added)
  | msg :: rest =>
      if decide (msg_id msg ∈ seenIds) then addUnseen rest allMessages seenIds added
      else addUnseen rest (allMessages ++ [msg]) ({[ msg_id msg ]} ∪ seenIds)
             (S added)
  end.

(** The page fetch inside the loop, in its retry envelope. *)
Definition fetchPage (client : Client Ext) (chatId : string)
  : M Ext (option (list RawMessage)) :=
  retryOnDetachedFrame (call (loadEarlierMessages client chatId)) 3 1000.

(** The [while (allMessages.length < maxCount)] loop followed by
    [return allMessages]. Iterations are counted down from [fuel] as in
    [waitLoop]. *)
Fixpoint loadLoop (fuel : nat) (client : Client Ext) (chatId : string) (maxCount : nat)
  (allMessages : list RawMessage) (seenIds : gset string) (w : World Ext)
  : option (Outcome (list RawMessage) * World Ext) :=
  if (length allMessages <? maxCount)%nat then
    match fuel with
    | O => None
    | S fuel' =>
        match fetchPage client chatId w with
        | (Returned newMessages, w1) =>
            match newMessages with
            | None | Some [] => Some (Returned allMessages, w1)
            | Some page =>
                let '(allMessages', seenIds', added) :=
                  addUnseen page allMessages seenIds 0 in
                if (added =? 0)%nat then Some (Returned allMessages', w1)
                else loadLoop fuel' client chatId maxCount allMessages' seenIds'
                       (snd (setTimeout 500 w1))
            end
        | (Thrown error, w1) =>
            if (0 <? length allMessages)%nat then Some (Returned allMessages, w1)
            else Some (Thrown error, w1)
        end
    end
  else Some (Returned allMessages, w).

(** Every iteration that does not leave the loop adds a message, so
    [maxCount] iterations always suffice (lemma [loadAllMessages_runs_loop]);
    the [None] branch is never taken. *)
Definition loadAllMessages (client : Client Ext) (chatId : string) (maxCount : nat)
  : M Ext (list RawMessage) :=
  fun w =>
    let w0 := snd (tryCatch (waitForChatReady client chatId 10000 ;;; ret tt)
                     (fun error => ret tt) w) in
    match loadLoop maxCount client chatId maxCount [] ∅ w0 with
    | Some r => r
    | None => (Thrown (newError "loadAllMessages: out of fuel"), w0)
    end.

(** *** getGroups *)

Definition formatGroup (group : RawGroup) (groupName : string) (count : nat) : Group :=
  mkGroup (group_id group) groupName (group_name group) count true
    (match orElse (group_description group) (Some EmptyString) with
     | Some d => d
     | None => EmptyString
     end)
    (match groupMetadata group with
     | Some meta =>
         match orElse (owner meta) (Some "Unknown") with
         | Some o => o
         | None => "Unknown"
         end
     | None => "Unknown"
     end).

(** The member count of a group: fetched, or on failure read from the
    group's own metadata. *)
Definition memberCount (client : Client Ext) (group : RawGroup) : M Ext nat :=
  tryCatch
    (members <- retryOnDetachedFrame (call (getGroupMembers client (group_id group))) 2 1000 ;;
     ret (match members with Some ms => length ms | None => 0 end))
    (fun error =>
       ret (match groupMetadata group with
            | Some meta =>
                match metadataParticipants meta with Some n => n | None => 0 end
            | None => 0
            end)).

(** The [for] loop over the groups, [formattedGroups] being the array
    built so far. *)
Fixpoint formatGroups (client : Client Ext) (groups : list RawGroup)
  (formattedGroups : list Group) : M Ext (list Group) :=
  match groups with
  | [] => ret formattedGroups
  | group :: rest =>
      let groupName :=
        hebrewifyIfNeeded common
          (match orElse (group_name group) (Some "Unknown Group") with
           | Some n => n
           | None => "Unknown Group"
           end) in
      count <- memberCount client group ;;
      (match rest with
       | [] => ret tt
       | _ :: _ => setTimeout 100
       end) ;;;
      formatGroups client rest (formattedGroups ++ [formatGroup group groupName count])
  end.

(** [(a, b) => b.participantCount - a.participantCount]. *)
Definition byParticipantCount (a b : Group) : option Z :=
  Some (Z.of_nat (participantCount b) - Z.of_nat (participantCount a))%Z.

Definition getGroups (client : Client Ext) : M Ext (list Group) :=
  groups <- retryOnDetachedFrame (call (getAllGroups client)) 3 2000 ;;
  match groups with
  | None | Some [] => ret []
  | Some groups =>
      formattedGroups <- formatGroups client groups [] ;;
      ret (arraySort engine _ byParticipantCount formattedGroups)
  end.

(** *** processGroup *)

(** The crawl service's own [sanitizeFilename]: every slash, backslash,
    question mark, percent sign, asterisk, colon, bar, double quote and
    angle bracket becomes a hyphen. *)
Definition unsafeInFilename (c : ascii) : bool :=
  existsb (Ascii.eqb c)
    ["/"; "\"; "?"; "%"; "*"; ":"; "|"; "034"; "<"; ">"]%char.

Fixpoint sanitizeFilename (name : string) : string :=
  match name with
  | EmptyString => EmptyString
  | String c rest =>
      String (if unsafeInFilename c then "-"%char else c) (sanitizeFilename rest)
  end.

(** What [processGroup] returns for a group that had messages. *)
Record GroupResult := mkGroupResult {
  groupName : string;
  messageCount : nat;
  resultParticipantCount : nat;
  exportPath : string
}.

(** [enrichMessages] on the orchestrator's own arrays. *)
Definition enrich (messages : list RawMessage) (participants : list Participant)
  : M Ext (list EnrichedMessage) :=
  fun w => (fst (enrichMessages common engine (mkArrays messages participants)), w).

(** [new Date().toISOString()]. *)
Definition isoNow : M Ext string :=
  fun w => (Returned (toISOString engine (clock w)), w).

(** [null] is [None]. The outer [try]/[catch] of the source logs the error
    and throws it again, which changes nothing here. *)
Definition processGroup (client : Client Ext) (group : Group)
  : M Ext (option GroupResult) :=
  messages <- loadAllMessages client (id group) 5000 ;;
  if (length messages =? 0)%nat then ret None
  else
    rawParticipants <-
      retryOnDetachedFrame (call (getGroupMembers client (id group))) 3 1000 ;;
    let participants :=
      filterParticipants common
        (match rawParticipants with Some ps => ps | None => [] end) in
    enriched <- enrich messages participants ;;
    call (analyzeMessageWordCounts host enriched) ;;;
    exportDate <- isoNow ;;
    let exportData :=
      mkExportData
        (mkMetadata (name group) (id group) (length participants) (length enriched)
           exportDate "WhatsApp Data Collector v1.0")
        enriched participants in
    let downloadsPath := pathJoin host (homedir host) "Downloads" in
    let exportPath := pathJoin host downloadsPath "WhatsApp Data Collection" in
    present <- exists_ (existsSync host exportPath) ;;
    (if present then ret tt else call (mkdirSync host exportPath)) ;;;
    call (writeExportFile host exportData (name group) exportPath) ;;;
    ret (Some (mkGroupResult (name group) (length enriched) (length participants)
                 (pathJoin host exportPath (sanitizeFilename (name group) ++ ".json")))).

(** *** runCrawler *)

(** An element of [results]: the object [processGroup] returned, or
    [{groupName, error, success: false}]. *)
Inductive ResultEntry :=
| Processed (result : GroupResult)
| Failed (failedGroupName : string) (error : string).

(** [r.error]: absent on a processed group. *)
Definition entryError (r : ResultEntry) : option string :=
  match r with
  | Processed _ => None
  | Failed _ error => Some error
  end.

Record Summary := mkSummary {
  totalGroups : nat;
  successful : nat;
  failed : Z;
  results : list ResultEntry
}.

(** The [for] loop over the selected groups, generic in the function that
    processes one group. *)
Fixpoint crawlGroups (process : Group -> M Ext (option GroupResult))
  (selectedGroups : list Group) (results : list ResultEntry) : M Ext (list ResultEntry) :=
  match selectedGroups with
  | [] => ret results
  | group :: rest =>
      results' <-
        tryCatch
          (result <- process group ;;
           ret (match result with
                | Some r => results ++ [Processed r]
                | None => results
                end))
          (fun error => ret (results ++ [Failed (name group) (message error)])) ;;
      crawlGroups process rest results'
  end.

(** The body of [runCrawler], generic in how groups are listed and how one
    group is processed. The outer [try]/[catch] of the source logs the
    error and throws it again. *)
Definition runCrawlerWith (listGroups : M Ext (list Group))
  (process : Group -> M Ext (option GroupResult))
  (selectedGroupIds : list string) (cachedGroups : option (list Group))
  : M Ext Summary :=
  allGroups <-
    match cachedGroups with
    | Some (g :: gs) => ret (g :: gs)
    | _ => listGroups
    end ;;
  let selectedGroups :=
    List.filter (fun group => bool_decide (id group ∈ selectedGroupIds)) allGroups in
  if (length selectedGroups =? 0)%nat
  then throw (newError "No valid groups found for selected IDs")
  else
    results <- crawlGroups process selectedGroups [] ;;
    let successCount :=
      length (List.filter (fun r => negb (truthyOpt (entryError r))) results) in
    ret (mkSummary (length selectedGroups) successCount
           (Z.of_nat (length selectedGroups) - Z.of_nat successCount)%Z results).

Definition runCrawler (client : Client Ext) (selectedGroupIds : list string)
  (cachedGroups : option (list Group)) : M Ext Summary :=
  runCrawlerWith (getGroups client) (processGroup client) selectedGroupIds cachedGroups.

(** *** Progress reports *)

(** A progress callback: a function of a message and two counts that the
    orchestrator calls and does not await. It acts on the world and it may
    throw. *)
Definition ProgressCallback : Type := string -> nat -> nat -> M Ext unit.

(** [progressCallback?.(message, current, total)]; [None] is a callback
    that was not passed. *)
Definition report (progressCallback : option ProgressCallback)
  (message : string) (current total : nat) : M Ext unit :=
  match progressCallback with
  | Some callback => callback message current total
  | None => ret tt
  end.

(** The callback of [getGroups] takes the formatted group as a fourth
    argument, or nothing in its place. It is taken to leave that object as
    it is. *)
Definition GroupProgressCallback : Type :=
  string -> nat -> nat -> option Group -> M Ext unit.

(** [if (progressCallback) progressCallback(message, current, total,
    groupData)]. *)
Definition reportGroup (progressCallback : option GroupProgressCallback)
  (message : string) (current total : nat) (groupData : option Group) : M Ext unit :=
  match progressCallback with
  | Some callback => callback message current total groupData
  | None => ret tt
  end.

(** The loop of [getGroups] with its two reports per group: [i] is the
    loop index and [total] is [groups.length] of the whole list. *)
Fixpoint formatGroupsReporting (client : Client Ext)
  (progressCallback : option GroupProgressCallback) (total : nat)
  (groups : list RawGroup) (i : nat) (formattedGroups : list Group)
  : M Ext (list Group) :=
  match groups with
  | [] => ret formattedGroups
  | group :: rest =>
      let groupName :=
        hebrewifyIfNeeded common
          (match orElse (group_name group) (Some "Unknown Group") with
           | Some n => n
           | None => "Unknown Group"
           end) in
      reportGroup progressCallback
        ("Loading group " ++ pretty (i + 1) ++ "/" ++ pretty total ++ ": " ++ groupName)
        i total None ;;;
      count <- memberCount client group ;;
      let formattedGroup := formatGroup group groupName count in
      reportGroup progressCallback
        ("Loaded " ++ groupName ++ " (" ++ pretty count ++ " members)")
        (i + 1) total (Some formattedGroup) ;;;
      (match rest with
       | [] => ret tt
       | _ :: _ => setTimeout 100
       end) ;;;
      formatGroupsReporting client progressCallback total rest (S i)
        (formattedGroups ++ [formattedGroup])
  end.

(** [getGroups(client, progressCallback)]; [getGroups] above is the call
    with one argument. *)
Definition getGroupsReporting (client : Client Ext)
  (progressCallback : option GroupProgressCallback) : M Ext (list Group) :=
  groups <- retryOnDetachedFrame (call (getAllGroups client)) 3 2000 ;;
  match groups with
  | None | Some [] => ret []
  | Some groups =>
      formattedGroups <-
        formatGroupsReporting client progressCallback (length groups) groups 0 [] ;;
      ret (arraySort engine _ byParticipantCount formattedGroups)
  end.

(** [`${i + 1}/${selectedGroups.length}`]. *)
Definition position (i count : nat) : string :=
  pretty (i + 1) ++ "/" ++ pretty count.

(** The loop of [runCrawler] with its reports: [i] is the loop index and
    [count] is [selectedGroups.length] of the whole selection. The report
    before a group is outside the [try] of that group; the function handed
    to [processGroup] reads its first argument only. *)
Fixpoint crawlGroupsReporting
  (process : Group -> ProgressCallback -> M Ext (option GroupResult))
  (progressCallback : option ProgressCallback) (count : nat)
  (selectedGroups : list Group) (i : nat) (results : list ResultEntry)
  : M Ext (list ResultEntry) :=
  match selectedGroups with
  | [] => ret results
  | group :: rest =>
      report progressCallback
        ("Processing " ++ position i count ++ ": " ++ name group) i count ;;;
      results' <-
        tryCatch
          (result <-
             process group
               (fun msg current total =>
                  report progressCallback ("[" ++ position i count ++ "] " ++ msg)
                    i count) ;;
           ret (match result with
                | Some r => results ++ [Processed r]
                | None => results
                end))
          (fun error => ret (results ++ [Failed (name group) (message error)])) ;;
      crawlGroupsReporting process progressCallback count rest (S i) results'
  end.

(** The body of [runCrawler] with its progress callback, generic in how
    groups are listed and how one group is processed under a callback. The
    outer [try]/[catch] of the source logs the error and throws it
    again. *)
Definition runCrawlerReporting (listGroups : M Ext (list Group))
  (process : Group -> ProgressCallback -> M Ext (option GroupResult))
  (selectedGroupIds : list string) (progressCallback : option ProgressCallback)
  (cachedGroups : option (list Group)) : M Ext Summary :=
  allGroups <-
    match cachedGroups with
    | Some (g :: gs) => ret (g :: gs)
    | _ => listGroups
    end ;;
  let selectedGroups :=
    List.filter (fun group => bool_decide (id group ∈ selectedGroupIds)) allGroups in
  if (length selectedGroups =? 0)%nat
  then throw (newError "No valid groups found for selected IDs")
  else
    results <-
      crawlGroupsReporting process progressCallback (length selectedGroups)
        selectedGroups 0 [] ;;
    report progressCallback "Crawl completed!" (length selectedGroups)
      (length selectedGroups) ;;;
    let successCount :=
      length (List.filter (fun r => negb (truthyOpt (entryError r))) results) in
    ret (mkSummary (length selectedGroups) successCount
           (Z.of_nat (length selectedGroups) - Z.of_nat successCount)%Z results).

(** *** Vocabulary for statements about the retry envelope *)

(** The delay of the wait that follows failed attempt [k + 1]. *)
Fixpoint backoff (delay : Q) (k : nat) : Q :=
  match k with
  | O => delay
  | S k' => backoff (delay * (3 # 2))%Q k'
  end.

(** The world in which attempt [k + 1] starts when each of the [k]
    attempts before it was followed by its wait. *)
Fixpoint worldAtAttempt {A : Type} (operation : M Ext A) (delay : Q) (k : nat)
  (w : World Ext) : World Ext :=
  match k with
  | O => w
  | S k' =>
      worldAtAttempt operation (delay * (3 # 2))%Q k'
        (snd (setTimeout delay (snd (operation w))))
  end.

(** Attempts [1] to [k] all threw an error of the transient kind. *)
Fixpoint transientFailures {A : Type} (operation : M Ext A) (delay : Q) (k : nat)
  (w : World Ext) : Prop :=
  match k with
  | O => True
  | S k' =>
      (exists error, fst (operation w) = Thrown error /\ isDetachedFrame error = true) /\
      transientFailures operation (delay * (3 # 2))%Q k'
        (snd (setTimeout delay (snd (operation w))))
  end.

(** *** Vocabulary for statements about the loading loop *)

(** A computation that never sets the clock back. *)
Definition advancing {A : Type} (m : M Ext A) : Prop :=
  forall w, (clock w <= clock (snd (m w)))%Z.

(** The world in which the loading loop starts: the one the readiness
    check leaves behind, whether it succeeded or gave up. *)
Definition afterReadinessCheck (client : Client Ext) (chatId : string) (w : World Ext)
  : World Ext :=
  snd (tryCatch (waitForChatReady client chatId 10000 ;;; ret tt)
         (fun error => ret tt) w).

(** Every message of the page has its id in the dedup set. *)
Definition allSeen (page : list RawMessage) (seenIds : gset string) : Prop :=
  Forall (fun msg => msg_id msg ∈ seenIds) page.


(** *** Vocabulary for statements about the multi-group run *)

(** The entry, if any, that the outcome of one group leaves in [results]. *)
Definition entryOf (group : Group) (outcome : Outcome (option GroupResult))
  : list ResultEntry :=
  match outcome with
  | Returned (Some r) => [Processed r]
  | Returned None => []
  | Thrown e => [Failed (name group) (message e)]
  end.

(** Processing every group of the list in turn, each in the world the one
    before it left, whatever the outcomes. *)
Fixpoint processEach (process : Group -> M Ext (option GroupResult))
  (groups : list Group) (w : World Ext) : list ResultEntry * World Ext :=
  match groups with
  | [] => ([], w)
  | group :: rest =>
      let '(outcome, w1) := process group w in
      let '(entries, w') := processEach process rest w1 in
      (entryOf group outcome ++ entries, w')
  end.

(** [!r.error]. *)
Definition countsAsSuccessful (r : ResultEntry) : bool :=
  negb (truthyOpt (entryError r)).

(** The groups of [allGroups] that the caller selected. *)
Definition selected (selectedGroupIds : list string) (allGroups : list Group)
  : list Group :=
  List.filter (fun group => bool_decide (id group ∈ selectedGroupIds)) allGroups.

(** A report that [runCrawler] makes outside the [try] of a group: the one
    before the group with index [current], or the closing one. *)
Definition overallReport (chosen : list Group) (message : string) (current : nat)
  : Prop :=
  (message = "Crawl completed!" /\ current = length chosen) \/
  (exists group,
     nth_error chosen current = Some group /\
     message =
       ("Processing " ++ position current (length chosen) ++ ": " ++ name group)%string).

(** A callback that returns whenever it is called; no callback is one. *)
Definition alwaysReturns (progressCallback : option ProgressCallback) : Prop :=
  forall callback, progressCallback = Some callback ->
    forall message current total w,
      exists w', callback message current total w = (Returned tt, w').

End Orchestrator.

Arguments ProgressCallback : clear implicits.
Arguments GroupProgressCallback : clear implicits.

(** *** Sample remotes *)

(** A remote whose state counts the calls made so far. Its first call
    fails with a detached frame; every later call answers. *)
Definition flakyRequest (calls : nat) : Reply nat string :=
  mkReply
    (if (calls =? 0)%nat
     then Thrown (newError "Evaluation failed: detached Frame")
     else Returned "page 1")
    (S calls) 5.

Definition freshWorld {Ext : Type} (s : Ext) : World Ext := mkWorld s 0 [].

(** A remote that answers the page fetches from a script, one entry per
    call, and with the empty page once the script is used up. Its chats
    are always there; it has no groups and no members. *)
Definition Script := list (Outcome (list RawMessage)).

Definition scriptedClient : Client Script :=
  mkClient
    (fun s => mkReply (Returned []) s 1)
    (fun groupId s => mkReply (Returned []) s 1)
    (fun chatId s => mkReply (Returned (Some (mkChat chatId))) s 1)
    (fun chatId s =>
       match s with
       | [] => mkReply (Returned []) [] 1
       | answer :: rest => mkReply answer rest 1
       end).

Definition textMessage (id : string) (timestamp : Z) (text : string) : RawMessage :=
  mkRawMessage id (Seconds timestamp) None None false (Some text) None None None None [].

Definition pageOne : list RawMessage :=
  [textMessage "false_1@g.us_A1_972500000001@c.us" 100 "hello";
   textMessage "false_1@g.us_A2_972500000002@c.us" 101 "hi";
   textMessage "false_1@g.us_A3_972500000001@c.us" 102 "bye"].

Definition pageTwo : list RawMessage :=
  [textMessage "false_1@g.us_B1_972500000002@c.us" 90 "earlier"].

Definition brokenPipe : JsError := newError "socket hang up".



(** The remote breaks down on the first fetch. *)
Definition brokenScript : Script := [Thrown brokenPipe; Returned pageOne].

(** The first fetch fails with an error whose message is empty. *)
Definition silentError : JsError := newError EmptyString.
Definition silentScript : Script := [Thrown silentError; Returned pageOne].

(** Stand-ins for the parts that lie outside the sources: no string is
    phone- or lid-shaped, dates are rendered as the numeral of their time
    value, the sort is V8's, and the file system accepts everything. *)
Definition sampleCommon : Common := noCommon.

Definition sampleEngine : Engine := v8Engine.

Definition quietHost : Host Script :=
  mkHost "/home/user" (fun a b => (a ++ "/" ++ b)%string)
    (fun path s => true)
    (fun path s => mkReply (Returned tt) s 1)
    (fun messages s => mkReply (Returned tt) s 1)
    (fun data groupName dir s => mkReply (Returned tt) s 1).

Definition groupA : Group := mkGroup "A@g.us" "Group A" (Some "Group A") 5 true EmptyString "Unknown".
Definition groupB : Group := mkGroup "B@g.us" "Group B" (Some "Group B") 3 true EmptyString "Unknown".

Definition resultB : GroupResult :=
  mkGroupResult "Group B" 3 0 "/home/user/Downloads/WhatsApp Data Collection/Group B.json".

End Crawl.

(** ** messageUtils.js: getReadableSenderId and stripLid *)

Module SenderIds.
Import Js MessageUtils Enrichment.

(** [msg.sender?.id]; a sender that is a string has no [id] property. *)
Definition senderObjectId (msg : RawMessage) : option string :=
  match msg_sender msg with
  | Some (SenderContact c) => c_id c
  | Some (SenderString _) => None
  | None => None
  end.

(** [msg.id && parseMessageId(msg.id).senderId]: the empty id itself when
    [msg.id] is empty, [undefined] when the id does not parse. *)
Definition senderIdInMessageId (msg : RawMessage) : option string :=
  if truthy (msg_id msg) then
    match parseMessageId (JsString (msg_id msg)) with
    | ValidId _ _ senderId => Some senderId
    | InvalidId _ _ => None
    end
  else Some (msg_id msg).

Definition getReadableSenderId (msg : RawMessage) : string :=
  let rawId :=
    orElse (orElse (orElse (senderObjectId msg) (senderIdInMessageId msg)) (msg_author msg))
      (Some "unknown@unknown") in
  stripDomain (match rawId with Some r => r | None => "unknown@unknown" end).

Definition stripLid (id : JsValue) : JsValue :=
  match id with
  | JsString s => JsString (stripDomain s)
  | _ => id
  end.

End SenderIds.

(** ** participants.js: parseParticipant and buildParticipantInfo *)

Module Identities.
Import Js Enrichment Participants.

(** A value of the map that [buildParticipantInfo] returns. *)
Record Info := mkInfo {
  info_phone : string;
  info_name : string
}.

(** [s.slice(start)] for a start within [0, s.length]. *)
Fixpoint slice (start : nat) (s : string) : string :=
  match start, s with
  | O, _ => s
  | S start', String _ s' => slice start' s'
  | S _, EmptyString => EmptyString
  end.

(** [o || fallback] where the fallback is a non-empty literal. *)
Definition orDefault (o : option string) (fallback : string) : string :=
  match orElse o (Some fallback) with
  | Some v => v
  | None => fallback
  end.

(** The module's own [parseMessageId]: [null], here [None], or an object
    holding the fourth part of the id as it stands. *)
Definition parseMessageId (messageId : JsValue) : option string :=
  match messageId with
  | JsString s =>
      match split "_" s with
      | [_; _; _; senderId] => Some senderId
      | _ => None
      end
  | _ => None
  end.

(** [id.startsWith('972') ? '0' + id.slice(3) : id]. *)
Definition localPhone (id : string) : string :=
  if startsWith "972" id then String "0" (slice 3 id) else id.

Section Resolution.
Variable common : Common.

(** The shape tests of [common.js] on a value that may be [null]; [null]
    passes neither. *)
Definition isPhoneNumberOrNull (o : option string) : bool :=
  match o with Some s => isPhoneNumber common s | None => false end.

Definition isLidOrNull (o : option string) : bool :=
  match o with Some s => isLid common s | None => false end.

(** [parseParticipant(entity)]; the second parameter of the source is never
    read. An absent key of the returned object is [None]. *)
Definition parseParticipant (entity : option Sender) : Identity :=
  match entity with
  | None => emptyIdentity
  | Some (SenderString s) =>
      if negb (truthy s) then emptyIdentity
      else if includes s "@g.us" then emptyIdentity
      else if isPhoneNumber common s
           then mkIdentity None (Some (normalizePhoneNumber common s)) None None
      else if isLid common s then mkIdentity (Some s) None None None
      else mkIdentity None None None (Some s)
  | Some (SenderContact c) =>
      let id := orElse (c_id c) None in
      let formattedName := orElse (c_formattedName c) None in
      let phone :=
        if isPhoneNumberOrNull id then option_map (normalizePhoneNumber common) id
        else if isPhoneNumberOrNull formattedName
             then option_map (normalizePhoneNumber common) formattedName
        else None in
      let name :=
        if negb (isPhoneNumberOrNull formattedName) && truthyOpt formattedName
        then formattedName else None in
      mkIdentity (if isLidOrNull id then id else None)
        (if truthyOpt phone then phone else None)
        (if truthyOpt name then name else None)
        None
  end.

(** One turn of the loop over the roster: [infoMap.set(id, {phone, name})]. *)
Definition addParticipant (infoMap : gmap string Info) (p : Participant)
  : gmap string Info :=
  let id := stripDomain (part_id p) in
  let name :=
    hebrewifyIfNeeded common (orDefault (orElse (part_pushname p) (part_name p)) "Unknown") in
  <[ id := mkInfo (localPhone id) name ]> infoMap.

(** [msg.sender?.pushname] and [msg.sender?.formattedName]. *)
Definition senderPushname (msg : RawMessage) : option string :=
  match msg_sender msg with
  | Some (SenderContact c) => c_pushname c
  | _ => None
  end.

Definition senderFormattedName (msg : RawMessage) : option string :=
  match msg_sender msg with
  | Some (SenderContact c) => c_formattedName c
  | _ => None
  end.

(** One turn of the loop over the message history. *)
Definition addSender (infoMap : gmap string Info) (msg : RawMessage)
  : gmap string Info :=
  match parseMessageId (JsString (msg_id msg)) with
  | Some senderRawId =>
      if truthy senderRawId then
        let id := stripDomain senderRawId in
        match infoMap !! id with
        | Some _ => infoMap
        | None =>
            let name :=
              hebrewifyIfNeeded common
                (orDefault (orElse (senderPushname msg) (senderFormattedName msg))
                   "Unknown") in
            <[ id := mkInfo (localPhone id) name ]> infoMap
        end
      else infoMap
  | None => infoMap
  end.

Definition buildParticipantInfo (participants : list Participant)
  (messages : list RawMessage) : gmap string Info :=
  fold_left addSender messages (fold_left addParticipant participants ∅).

(** *** Vocabulary for statements about the info map *)

(** The key under which a roster entry is filed. *)
Definition rosterKey (p : Participant) : string := stripDomain (part_id p).

(** The key under which the sender of a message is filed, if the message
    id names one. *)
Definition senderKey (msg : RawMessage) : option string :=
  match parseMessageId (JsString (msg_id msg)) with
  | Some senderRawId =>
      if truthy senderRawId then Some (stripDomain senderRawId) else None
  | None => None
  end.

End Resolution.

End Identities.

(** ** exporter.js: sanitizeFilename *)

Module Exporter.
Import Js.

(** The class of the first replacement: the directional marks U+200E,
    U+200F, U+202A to U+202E and U+2066 to U+2069, by code unit. *)
Definition isDirectionalMark (c : ascii) : bool :=
  let u := N_of_ascii c in
  (u =? 8206)%N || (u =? 8207)%N ||
  ((8234 <=? u)%N && (u <=? 8238)%N) ||
  ((8294 <=? u)%N && (u <=? 8297)%N).

(** [s.replace(/[class]/g, '')]. *)
Fixpoint removeAll (class : ascii -> bool) (s : string) : string :=
  match s with
  | EmptyString => EmptyString
  | String c rest =>
      if class c then removeAll class rest else String c (removeAll class rest)
  end.

Definition isHyphen (c : ascii) : bool := Ascii.eqb c "-"%char.

(** [s.replace(/-+/g, '-')]: of every run of hyphens only the last one
    stays. *)
Fixpoint collapseHyphens (s : string) : string :=
  match s with
  | EmptyString => EmptyString
  | String c rest =>
      match rest with
      | String d _ =>
          if isHyphen c && isHyphen d then collapseHyphens rest
          else String c (collapseHyphens rest)
      | EmptyString => String c EmptyString
      end
  end.

(** The first alternative of [s.replace(/^-+|-+$/g, '')]: the run of
    hyphens that starts the string. *)
Fixpoint dropLeadingHyphens (s : string) : string :=
  match s with
  | EmptyString => EmptyString
  | String c rest => if isHyphen c then dropLeadingHyphens rest else s
  end.

(** The second alternative: the run of hyphens that ends the string. *)
Fixpoint dropTrailingHyphens (s : string) : string :=
  match s with
  | EmptyString => EmptyString
  | String c rest =>
      match dropTrailingHyphens rest with
      | EmptyString => if isHyphen c then EmptyString else String c EmptyString
      | kept => String c kept
      end
  end.

Definition sanitizeFilename (name : JsValue) : string :=
  match name with
  | JsString s =>
      if truthy s then
        let sanitized := removeAll isDirectionalMark s in
        let sanitized := Crawl.sanitizeFilename sanitized in
        let sanitized := dropTrailingHyphens (dropLeadingHyphens (collapseHyphens sanitized)) in
        if truthy sanitized then sanitized else "unnamed-group"
      else "unnamed-group"
  | _ => "unnamed-group"
  end.

(** The file name under which [writeExportFile] writes a group. *)
Definition exportFileName (groupName : string) : string :=
  (sanitizeFilename (JsString groupName) ++ ".json")%string.

(** The file name that [processGroup] of crawl-service.js reports for the
    same group. *)
Definition reportedFileName (groupName : string) : string :=
  (Crawl.sanitizeFilename groupName ++ ".json")%string.

(** *** Vocabulary for statements about file names *)

Fixpoint allChars (test : ascii -> bool) (s : string) : bool :=
  match s with
  | EmptyString => true
  | String c rest => test c && allChars test rest
  end.

(** No character that is unsafe in a file name. *)
Definition safeName (s : string) : bool :=
  allChars (fun c => negb (Crawl.unsafeInFilename c)) s.

Fixpoint endsWithHyphen (s : string) : bool :=
  match s with
  | EmptyString => false
  | String c EmptyString => isHyphen c
  | String _ rest => endsWithHyphen rest
  end.

(** Not empty, no two hyphens in a row, no hyphen at either end. *)
Definition tidy (s : string) : bool :=
  truthy s && negb (includes s "--") && negb (startsWith "-" s) &&
  negb (endsWithHyphen s).

End Exporter.

(** ** main.js: the handlers of the main process *)

Module Main.
Import Js Enrichment Crawl.

Section Handlers.
Context {Ext : Type}.
Variable common : Common.
Variable engine : Engine.
Variable host : Host Ext.

(** The two module variables that the handlers share. *)
Record MainState := mkMainState {
  authenticatedClient : option (Client Ext);
  cachedGroups : option (list Group)
}.

(** The answers a handler sends back to the renderer. *)
Inductive AuthReply :=
| AuthCompleted (note : string)
| AuthFailed (note : string).

Inductive GroupsReply :=
| GroupsListed (groups : list Group)
| GroupsFailed (note : string).


(** What [get-groups] reports while the groups are loaded. *)
Record LoadingProgress := mkLoadingProgress {
  lp_message : string;
  lp_current : nat;
  lp_total : nat;
  lp_percentage : Z
}.

(** A message to the renderer: the channel and what is sent on it. *)
Inductive WindowMessage :=
| AuthStatus (text : string)
| ProgressUpdate (text : string)
| GroupLoadingProgress (progress : LoadingProgress)
| GroupLoaded (group : Group)
| GroupsLoadingComplete (groups : list Group).

(** [mainWindow.webContents.send(channel, payload)]: a call into Electron,
    which answers or throws, as it does when the window is gone. *)
Variable send : WindowMessage -> Ext -> Reply Ext unit.

(** [Math.round((current / total) * 100)] for a [total] above 0, in the
    arithmetic of doubles. *)
Variable roundedPercent : nat -> nat -> Z.

(** [total > 0 ? Math.round((current / total) * 100) : 0]. *)
Definition percentage (current total : nat) : Z :=
  if (0 <? total)%nat then roundedPercent current total else 0%Z.

(** A handler runs from the module variables and from the world. It
    returns or throws, and leaves both behind either way. *)
Definition Handler (A : Type) : Type :=
  MainState -> World Ext -> Outcome A * MainState * World Ext.

Definition answer {A : Type} (v : A) : Handler A :=
  fun st w => (Returned v, st, w).

Definition raise {A : Type} (e : JsError) : Handler A :=
  fun st w => (Thrown e, st, w).

Definition andThen {A B : Type} (m : Handler A) (k : A -> Handler B) : Handler B :=
  fun st w =>
    match m st w with
    | (Returned v, st', w') => k v st' w'
    | (Thrown e, st', w') => (Thrown e, st', w')
    end.

(** [try { body } catch (error) { handler }] in a handler. *)
Definition attempt {A : Type} (body : Handler A) (handler : JsError -> Handler A)
  : Handler A :=
  fun st w =>
    match body st w with
    | (Returned v, st', w') => (Returned v, st', w')
    | (Thrown e, st', w') => handler e st' w'
    end.

(** A computation that does not know the module variables. *)
Definition run {A : Type} (m : M Ext A) : Handler A :=
  fun st w => let '(outcome, w') := m w in (outcome, st, w').

Definition moduleVariables : Handler MainState :=
  fun st w => (Returned st, st, w).

(** [authenticatedClient = client]. *)
Definition setAuthenticatedClient (client : Client Ext) : Handler unit :=
  fun st w => (Returned tt, mkMainState (Some client) (cachedGroups st), w).

(** [cachedGroups = groups]. *)
Definition setCachedGroups (groups : list Group) : Handler unit :=
  fun st w => (Returned tt, mkMainState (authenticatedClient st) (Some groups), w).

Notation "x <~ m ;; k" := (andThen m (fun x => k))
  (at level 100, m at level 99, right associativity).
Notation "m ;;~ k" := (andThen m (fun _ => k))
  (at level 100, right associativity).

(** The [start-auth] handler. The client is in place as soon as the
    authentication has returned; the [catch] block sends before it
    answers. *)
Definition startAuth (authenticateWhatsApp : M Ext (Client Ext)) : Handler AuthReply :=
  attempt
    (run (call (send (AuthStatus "Starting authentication..."))) ;;~
     client <~ run authenticateWhatsApp ;;
     setAuthenticatedClient client ;;~
     run (call (send (AuthStatus "Authentication successful!"))) ;;~
     answer (AuthCompleted "Authentication completed successfully"))
    (fun error =>
       run (call (send (AuthStatus ("Authentication failed: " ++ message error)))) ;;~
       answer (AuthFailed ("Authentication failed: " ++ message error)%string)).

(** The callback that [get-groups] hands to [getGroups]: one message with
    the progress, and one with the group when there is one. *)
Definition groupLoadingCallback : GroupProgressCallback Ext :=
  fun message current total groupData =>
    call (send (GroupLoadingProgress
                  (mkLoadingProgress message current total (percentage current total)))) ;;;
    match groupData with
    | Some group => call (send (GroupLoaded group))
    | None => ret tt
    end.

(** The [get-groups] handler. The list is cached before it is sent to the
    window. *)
Definition getGroupsHandler : Handler GroupsReply :=
  attempt
    (st <~ moduleVariables ;;
     match authenticatedClient st with
     | None => raise (newError "Not authenticated. Please authenticate first.")
     | Some client =>
         match cachedGroups st with
         | Some groups => answer (GroupsListed groups)
         | None =>
             run (call (send (ProgressUpdate "Loading groups..."))) ;;~
             groups <~
               run (getGroupsReporting common engine client (Some groupLoadingCallback)) ;;
             setCachedGroups groups ;;~
             run (call (send (GroupsLoadingComplete groups))) ;;~
             answer (GroupsListed groups)
         end
     end)
    (fun error =>
       answer (GroupsFailed ("Failed to get groups: " ++ message error)%string)).


End Handlers.

End Main.

(** ** enrichment.js: the two histograms *)

Module Analysis.
Import Js Enrichment.

(** What [trim] strips and [\s] matches, among the 8-bit characters: tab,
    line feed, vertical tab, form feed, carriage return, space and the
    no-break space. *)
Definition isWhiteSpace (c : ascii) : bool :=
  existsb (Ascii.eqb c) ["009"; "010"; "011"; "012"; "013"; " "; "160"]%char.

Fixpoint trimStart (s : string) : string :=
  match s with
  | EmptyString => EmptyString
  | String c rest => if isWhiteSpace c then trimStart rest else s
  end.

Fixpoint trimEnd (s : string) : string :=
  match s with
  | EmptyString => EmptyString
  | String c rest =>
      match trimEnd rest with
      | EmptyString => if isWhiteSpace c then EmptyString else String c EmptyString
      | kept => String c kept
      end
  end.

(** [s.trim()]. *)
Definition trim (s : string) : string := trimEnd (trimStart s).

(** [s.split(/\s+/)]: the pieces between the runs of white space;
    [inSeparator] tells that the character before was white space. *)
Fixpoint splitWhiteSpace (inSeparator : bool) (s : string) : list string :=
  match s with
  | EmptyString => [EmptyString]
  | String c rest =>
      if isWhiteSpace c then
        if inSeparator then splitWhiteSpace true rest
        else EmptyString :: splitWhiteSpace true rest
      else
        match splitWhiteSpace false rest with
        | piece :: pieces => String c piece :: pieces
        | [] => [String c EmptyString]
        end
  end.

(** The value of a character as a digit of the given radix. *)
Definition digitValue (radix : N) (c : ascii) : option N :=
  let u := N_of_ascii c in
  let value :=
    if (48 <=? u)%N && (u <=? 57)%N then Some (u - 48)%N
    else if (97 <=? u)%N && (u <=? 122)%N then Some (u - 87)%N
    else if (65 <=? u)%N && (u <=? 90)%N then Some (u - 55)%N
    else None in
  match value with
  | Some d => if (d <? radix)%N then Some d else None
  | None => None
  end.

(** The number that the digits at the start of [s] spell, read after the
    digits that gave [acc]. *)
Fixpoint digitsValue (radix : N) (s : string) (acc : N) : N :=
  match s with
  | EmptyString => acc
  | String c rest =>
      match digitValue radix c with
      | Some d => digitsValue radix rest (radix * acc + d)%N
      | None => acc
      end
  end.

(** [parseInt(s)] without a radix: white space is skipped, a sign and the
    prefix [0x] are honoured, the digits that follow are read, and the
    result is [NaN], here [None], when there is none. The result is exact
    below 2^53. *)
Definition parseInt (s : string) : option Z :=
  let s := trimStart s in
  let '(negative, s) :=
    match s with
    | String "-" rest => (true, rest)
    | String "+" rest => (false, rest)
    | _ => (false, s)
    end in
  let '(radix, s) :=
    if startsWith "0x" s || startsWith "0X" s
    then (16%N, Identities.slice 2 s) else (10%N, s) in
  match s with
  | String c _ =>
      match digitValue radix c with
      | Some _ =>
          let n := Z.of_N (digitsValue radix s 0) in
          Some (if negative then (- n)%Z else n)
      | None => None
      end
  | EmptyString => None
  end.

(** A message as the analysis reads it: is [isMedia] truthy, and what is
    [body]. *)
Record Analysed := mkAnalysed {
  a_isMedia : bool;
  a_body : JsValue
}.

(** An exported message has no [isMedia] property and a string body. *)
Definition ofExported (m : EnrichedMessage) : Analysed :=
  mkAnalysed false (JsString (body m)).

(** An object with string keys and number values; the keys are kept in the
    order in which they were first set. *)
Definition JsObject := list (string * nat).

(** [obj[key]]. *)
Fixpoint getProperty (obj : JsObject) (key : string) : option nat :=
  match obj with
  | [] => None
  | (k, v) :: rest => if String.eqb k key then Some v else getProperty rest key
  end.

(** [obj[key] = value]. *)
Fixpoint setProperty (key : string) (value : nat) (obj : JsObject) : JsObject :=
  match obj with
  | [] => [(key, value)]
  | (k, v) :: rest =>
      if String.eqb k key then (k, value) :: rest
      else (k, v) :: setProperty key value rest
  end.

(** [Math.floor(n / size) * size]. *)
Definition bucketOf (size n : nat) : nat := n / size * size.

(** The label of the bucket that starts at [bucket]. *)
Definition bucketLabel (size bucket : nat) : string :=
  (pretty bucket ++ "-" ++ pretty (bucket + size - 1))%string.

(** The [for] loop that fills [histogram]. *)
Definition buildHistogram (size : nat) (values : list nat) : JsObject :=
  fold_left
    (fun histogram n =>
       let label := bucketLabel size (bucketOf size n) in
       setProperty label
         (match getProperty histogram label with Some v => v | None => 0 end + 1)
         histogram)
    values [].

(** [parseInt(label.split('-')[0])]. *)
Definition bucketStart (label : string) : option Z :=
  parseInt (hd EmptyString (split "-" label)).

(** The comparison function of the key sort; [NaN] is [None]. *)
Definition byBucketStart (a b : string) : option Z :=
  match bucketStart a, bucketStart b with
  | Some x, Some y => Some (x - y)%Z
  | _, _ => None
  end.

Section Histograms.
Variable engine : Engine.

(** [Object.keys(histogram).sort(...).reduce(...)], as [JSON.stringify]
    renders it: a key whose value is [undefined] is not written. *)
Definition sortedHistogram (histogram : JsObject) : JsObject :=
  fold_left
    (fun obj key =>
       match getProperty histogram key with
       | Some v => setProperty key v obj
       | None => obj
       end)
    (arraySort engine _ byBucketStart (map fst histogram)) [].

(** The word counts that enter the histogram. *)
Definition wordCounts (messages : list Analysed) : list nat :=
  List.filter (fun count => (count <=? 200)%nat)
    (map (fun msg =>
            match a_body msg with
            | JsString s => length (splitWhiteSpace false (trim s))
            | _ => 0
            end)
       (List.filter
          (fun msg =>
             negb (a_isMedia msg) &&
             match a_body msg with
             | JsString s => (0 <? String.length (trim s))%nat
             | _ => false
             end) messages)).

(** [analyzeMessageWordCounts(messages)]: the histogram it writes to
    [word_histogram.json], or [None] when it returns without writing. *)
Definition analyzeMessageWordCounts (messages : list Analysed) : option JsObject :=
  let counts := wordCounts messages in
  if (length counts =? 0)%nat then None
  else Some (sortedHistogram (buildHistogram 5 counts)).

(** The lengths that enter the length histogram: the body is measured
    before trimming to select the message and after trimming to place
    it. *)
Definition textLengths (messages : list Analysed) : list nat :=
  map (fun msg =>
         match a_body msg with
         | JsString s => String.length (trim s)
         | _ => 0
         end)
    (List.filter
       (fun msg =>
          negb (a_isMedia msg) &&
          match a_body msg with
          | JsString s => (1 <=? String.length s)%nat && (String.length s <=? 2000)%nat
          | _ => false
          end) messages).

(** [analyzeMessageLengths(messages)]: the histogram it writes to
    [length_histogram.json], or [None] when it returns without writing. *)
Definition analyzeMessageLengths (messages : list Analysed) : option JsObject :=
  let lengths := textLengths messages in
  if (length lengths =? 0)%nat then None
  else Some (sortedHistogram (buildHistogram 10 lengths)).

End Histograms.

(** *** Vocabulary for statements about the histograms *)

Definition isDecimalDigit (c : ascii) : bool :=
  match digitValue 10 c with Some _ => true | None => false end.

(** [obj[key] || 0]. *)
Definition valueOf (obj : JsObject) (key : string) : nat :=
  match getProperty obj key with Some v => v | None => 0 end.

(** The bucket start that a key of the histogram spells. *)
Definition startOf (label : string) : Z :=
  match bucketStart label with Some start => start | None => 0%Z end.

(** How many of the values fall into the bucket that starts at [bucket]. *)
Definition inBucket (size : nat) (values : list nat) (bucket : nat) : nat :=
  length (List.filter (fun n => (bucketOf size n =? bucket)%nat) values).

(** The histogram that lists the given buckets, each with the number of
    values in it. *)
Definition histogramOf (size : nat) (values buckets : list nat) : JsObject :=
  map (fun bucket => (bucketLabel size bucket, inBucket size values bucket)) buckets.

End Analysis.

(** ** Sample data for the helper modules *)

Module Samples.
Import Js Enrichment Crawl.

(** Stand-ins for the shape tests of [common.js]: a phone number starts
    with a plus sign, which normalising removes; a linked id ends in
    [@lid]. *)
Definition shapes : Common :=
  mkCommon (fun s => startsWith "+" s) (fun s => Identities.slice 1 s)
    (fun s => includes s "@lid") (fun s => s).

(** A message whose author is phone-shaped and whose sender object carries
    a linked id. *)
Definition fromPhoneAndLid (phone lid : string) : RawMessage :=
  mkRawMessage "false_1@g.us_C1_17@lid" (Seconds 100) (Some phone)
    (Some (SenderContact (mkContact (Some lid) None (Some "Dana") None)))
    false (Some "hello") None None None None [].

(** A remote that lists two groups and cannot deliver their member
    lists; the groups' own metadata tells 2 and 5 participants. *)
Definition twoGroups : list RawGroup :=
  [mkRawGroup "A@g.us" (Some "Group A") None (Some (mkGroupMetadata None (Some 2)));
   mkRawGroup "B@g.us" (Some "Group B") None
     (Some (mkGroupMetadata (Some "972500000001@c.us") (Some 5)))].

Definition listingClient : Client unit :=
  mkClient
    (fun s => mkReply (Returned twoGroups) s 1)
    (fun groupId s => mkReply (Thrown brokenPipe) s 1)
    (fun chatId s => mkReply (Returned None) s 1)
    (fun chatId s => mkReply (Returned []) s 1).

(** A page in which one message has no timestamp. *)
Definition mixedPage : list RawMessage :=
  (pageOne ++ [stamped "false_1@g.us_A9_972500000009@c.us" Missing])%list.

(** Seven messages for the analysis: four of them count, with 7, 1, 2 and
    12 words; one is media, one is blank, one has no string body. *)
Definition sampleTexts : list Analysis.Analysed :=
  [Analysis.mkAnalysed false (JsString "a b c d e f g");
   Analysis.mkAnalysed false (JsString "hello");
   Analysis.mkAnalysed true (JsString "a photo");
   Analysis.mkAnalysed false (JsString "  ");
   Analysis.mkAnalysed false (JsString "one two");
   Analysis.mkAnalysed false JsNull;
   Analysis.mkAnalysed false (JsString "a b c d e f g h i j k l")].

(** A window that takes every message. *)
Definition openWindow (message : Main.WindowMessage) (s : unit) : Reply unit unit :=
  mkReply (Returned tt) s 0.

(** A window that is gone. *)
Definition windowGone : JsError := newError "Object has been destroyed".

Definition noWindow (message : Main.WindowMessage) (s : unit) : Reply unit unit :=
  mkReply (Thrown windowGone) s 0.

(** A window that is gone by the time the loaded list is sent. *)
Definition closingWindow (message : Main.WindowMessage) (s : unit) : Reply unit unit :=
  mkReply
    (match message with
     | Main.GroupsLoadingComplete _ => Thrown windowGone
     | _ => Returned tt
     end) s 0.

(** A window that is gone once the authentication has succeeded. *)
Definition windowUntilSuccess (message : Main.WindowMessage) (s : unit) : Reply unit unit :=
  mkReply
    (match message with
     | Main.AuthStatus "Starting authentication..." => Returned tt
     | _ => Thrown windowGone
     end) s 0.

(** A stand-in for the rounded percentage: exact, halves upwards. *)
Definition exactPercent (current total : nat) : Z :=
  ((200 * Z.of_nat current + Z.of_nat total) / (2 * Z.of_nat total))%Z.

(** A callback that throws on the closing report and on no other. *)
Definition failsAtTheEnd : ProgressCallback Script :=
  fun message current total =>
    if String.eqb message "Crawl completed!" then throw windowGone else ret tt.

(** Processing that needs nothing from outside: group B is exported,
    every other group has no messages. It reports once. *)
Definition quickProcess (group : Group) (progressCallback : ProgressCallback Script)
  : M Script (option GroupResult) :=
  progressCallback ("Processing group: " ++ name group)%string 0 100 ;;;
  ret (if String.eqb (id group) "B@g.us" then Some resultB else None).

(** A photo. *)
Definition photo : RawMessage :=
  mkRawMessage "false_1@g.us_P1_972500000001@c.us" (Seconds 100) None None true
    (Some "/9j/4AAQSkZJRg") None None None None [].

End Samples.

(** * Properties *)

Import Js.

(** ** Strings *)

Section StringFacts.
Variable sep : ascii.

Lemma split_nonempty (s : string) : split sep s <> [].
Proof.
  destruct s as [|c s]; simpl; [discriminate|].
  destruct (Ascii.eqb c sep); [discriminate|].
  destruct (split sep s); discriminate.
Qed.

Lemma join_cons (p : string) (ps : list string) :
  ps <> [] -> join sep (p :: ps) = (p ++ String sep (join sep ps))%string.
Proof. destruct ps; [congruence | reflexivity]. Qed.

(** Joining the pieces of a split gives the string back. *)
Lemma join_split (s : string) : join sep (split sep s) = s.
Proof.
  induction s as [|c s IH]; [reflexivity|].
  simpl. destruct (Ascii.eqb_spec c sep) as [->|Hne].
  - rewrite join_cons by apply split_nonempty. simpl. now rewrite IH.
  - pose proof (split_nonempty s) as Hs.
    destruct (split sep s) as [|p ps]; [congruence|].
    destruct ps as [|q ps]; simpl in *; now rewrite <- IH.
Qed.

(** No piece of a split holds the separator. *)
Lemma split_noChar (s : string) : Forall (fun p => noChar sep p = true) (split sep s).
Proof.
  induction s as [|c s IH]; simpl.
  - repeat constructor.
  - destruct (Ascii.eqb_spec c sep) as [->|Hne].
    + constructor; [reflexivity | exact IH].
    + pose proof (split_nonempty s) as Hs.
      destruct (split sep s) as [|p ps]; [congruence|].
      inversion IH; subst. constructor; [|assumption].
      simpl. destruct (Ascii.eqb_spec c sep); [congruence | assumption].
Qed.

Lemma split_app_sep (p rest : string) :
  noChar sep p = true ->
  split sep (p ++ String sep rest)%string = p :: split sep rest.
Proof.
  induction p as [|c p IH]; simpl; intros Hp.
  - now rewrite Ascii.eqb_refl.
  - apply andb_prop in Hp as [Hc Hp]. apply negb_true_iff in Hc.
    rewrite Hc, IH by assumption. reflexivity.
Qed.

Lemma split_single (p : string) : noChar sep p = true -> split sep p = [p].
Proof.
  induction p as [|c p IH]; simpl; intros Hp; [reflexivity|].
  apply andb_prop in Hp as [Hc Hp]. apply negb_true_iff in Hc.
  rewrite Hc, IH by assumption. reflexivity.
Qed.

(** Splitting a join of separator-free pieces gives the pieces back. *)
Lemma split_join (parts : list string) :
  parts <> [] -> Forall (fun p => noChar sep p = true) parts ->
  split sep (join sep parts) = parts.
Proof.
  induction parts as [|p ps IH]; [congruence|].
  intros _ Hall. inversion Hall as [|? ? Hp Hps]; subst.
  destruct ps as [|q ps].
  - simpl. now apply split_single.
  - rewrite join_cons by discriminate.
    rewrite split_app_sep by assumption.
    rewrite IH; [reflexivity | discriminate | assumption].
Qed.

End StringFacts.

Lemma afterDotStar_singleLine (s : string) :
  singleLine s = true -> afterDotStar s = EmptyString.
Proof.
  induction s as [|c s IH]; simpl; intros H; [reflexivity|].
  apply andb_prop in H as [Hc Hs]. apply negb_true_iff in Hc.
  rewrite Hc. auto.
Qed.

(** On a string without a line break the replacement removes everything
    from the first [@] on. *)
Lemma stripDomain_singleLine (s : string) :
  singleLine s = true -> stripDomain s = beforeAt s.
Proof.
  induction s as [|c s IH]; simpl; intros H; [reflexivity|].
  apply andb_prop in H as [Hc Hs].
  destruct (Ascii.eqb c "@").
  - now apply afterDotStar_singleLine.
  - now rewrite IH.
Qed.

(** ** parseMessageId *)

Section ParseMessageId.
Import MessageUtils.

(** C7, as the code has it. [parseMessageId] splits on [_]; it succeeds
    exactly on a string of four underscore-free parts, with [chatId] part 2,
    [msgHashId] part 3 and [senderId] part 4 after [replace(/@.*/, '')],
    which removes the text from the first [@] to the end of that line (all
    of it from [@] on when part 4 holds no line break); any other number of
    parts gives the fixed reason ['Invalid message ID format'], a value
    that is not a string the fixed reason ['Message ID is not a string']. *)
Theorem parseMessageId_spec :
  (forall v, isString v = false ->
     parseMessageId v = InvalidId "Message ID is not a string" v) /\
  (forall s, length (split "_" s) <> 4 ->
     parseMessageId (JsString s) = InvalidId "Invalid message ID format" (JsString s)) /\
  (forall p1 p2 p3 p4,
     underscoreFree p1 -> underscoreFree p2 -> underscoreFree p3 -> underscoreFree p4 ->
     parseMessageId (JsString (fourParts p1 p2 p3 p4)) = ValidId p2 p3 (stripDomain p4) /\
     (singleLine p4 = true -> stripDomain p4 = beforeAt p4)) /\
  (forall v, valid (parseMessageId v) = true ->
     exists p1 p2 p3 p4,
       underscoreFree p1 /\ underscoreFree p2 /\ underscoreFree p3 /\ underscoreFree p4 /\
       v = JsString (fourParts p1 p2 p3 p4)) /\
  parseMessageId (JsString "false_120@g.us_ABC123_972501234567@c.us")
    = ValidId "120@g.us" "ABC123" "972501234567".
Proof.
  split; [|split; [|split; [|split]]].
  - intros [| |b|n|s] Hv; simpl in *; congruence.
  - intros s Hlen. simpl.
    destruct (split "_" s) as [|a [|b [|c [|d [|e l]]]]]; simpl in *; congruence.
  - intros p1 p2 p3 p4 H1 H2 H3 H4. split.
    + unfold parseMessageId, fourParts.
      rewrite split_join; [reflexivity | discriminate | repeat constructor; assumption].
    + apply stripDomain_singleLine.
  - intros [| |b|n|s]; simpl; try discriminate.
    pose proof (join_split "_" s) as Hjoin.
    pose proof (split_noChar "_" s) as Hfree.
    destruct (split "_" s) as [|a [|b [|c [|d [|e l]]]]]; simpl; try discriminate.
    intros _. exists a, b, c, d.
    inversion Hfree as [|? ? Ha Hfree1]; subst.
    inversion Hfree1 as [|? ? Hb Hfree2]; subst.
    inversion Hfree2 as [|? ? Hc Hfree3]; subst.
    inversion Hfree3 as [|? ? Hd _]; subst.
    unfold underscoreFree, fourParts. repeat split; assumption || reflexivity.
  - reflexivity.
Qed.

Lemma parseMessageId_spec_witness :
  parseMessageId (JsString (fourParts "false" "120@g.us" "ABC123" "972501234567@c.us"))
    = ValidId "120@g.us" "ABC123" "972501234567" /\
  parseMessageId (JsString "a_b") = InvalidId "Invalid message ID format" (JsString "a_b") /\
  parseMessageId (JsNumber 7) = InvalidId "Message ID is not a string" (JsNumber 7).
Proof.
  destruct parseMessageId_spec as (Hnot & Harity & Hfour & _ & _).
  split; [|split].
  - destruct (Hfour "false" "120@g.us" "ABC123" "972501234567@c.us"
                eq_refl eq_refl eq_refl eq_refl) as [Hv Hs].
    rewrite Hv, (Hs eq_refl). reflexivity.
  - apply Harity. vm_compute. lia.
  - apply Hnot. reflexivity.
Defined.

(** Where C7 as worded fails: a sender part that goes on after a line
    break keeps that text, so not everything from [@] on is stripped. *)
Lemma parseMessageId_stops_at_line_break :
  split "_" ("false_120@g.us_ABC123_" ++ twoLineSender)%string
    = ["false"; "120@g.us"; "ABC123"; twoLineSender] /\
  parseMessageId (JsString ("false_120@g.us_ABC123_" ++ twoLineSender)%string)
    = ValidId "120@g.us" "ABC123" ("972501234567" ++ String "010" "x")%string /\
  beforeAt twoLineSender = "972501234567" /\
  ("972501234567" ++ String "010" "x")%string <> beforeAt twoLineSender.
Proof. repeat split; try reflexivity. vm_compute. discriminate. Qed.

End ParseMessageId.

(** ** mergeParticipants *)

Section MergeParticipants.
Import Participants.

Lemma mergeParticipants_fields (a b : Identity) :
  mergeParticipants a b =
  mkMerged (fst (mergeField (p_id a) (p_id b))) (snd (mergeField (p_id a) (p_id b)))
    (fst (mergeField (p_phone a) (p_phone b))) (snd (mergeField (p_phone a) (p_phone b)))
    (nameFallback (fst (mergeField (p_name a) (p_name b))) (p_unknown a) (p_unknown b))
    (snd (mergeField (p_name a) (p_name b))).
Proof.
  unfold mergeParticipants, mergeField, nameFallback.
  destruct (truthyOpt (p_id a) && truthyOpt (p_id b) && strictNe (p_id a) (p_id b));
  destruct (truthyOpt (p_phone a) && truthyOpt (p_phone b)
            && strictNe (p_phone a) (p_phone b));
  destruct (truthyOpt (p_name a) && truthyOpt (p_name b)
            && strictNe (p_name a) (p_name b)); reflexivity.
Qed.

Lemma strictNe_true (x y : option string) : strictNe x y = true <-> x <> y.
Proof.
  unfold strictNe. rewrite negb_true_iff, bool_decide_eq_false. reflexivity.
Qed.

Lemma strictNe_false (x y : option string) : strictNe x y = false <-> x = y.
Proof.
  unfold strictNe. rewrite negb_false_iff, bool_decide_eq_true. reflexivity.
Qed.

(** One field: a non-empty value of either side is kept under one of the
    two keys. *)
Lemma mergeField_retains (x y : option string) (v : string) :
  truthy v = true -> x = Some v \/ y = Some v ->
  fst (mergeField x y) = Some v \/ snd (mergeField x y) = Some v.
Proof.
  intros Hv Hxy. unfold mergeField, orElse.
  destruct (truthyOpt x) eqn:Hx, (truthyOpt y) eqn:Hy, (strictNe x y) eqn:Hne;
    simpl; rewrite ?Hx; simpl;
    try tauto;
    try (apply strictNe_false in Hne; subst y; tauto);
    destruct Hxy as [-> | ->]; simpl in *; congruence || tauto.
Qed.

(** One field: on a conflict the first value is primary, the second
    alternate. *)
Lemma mergeField_conflict (x y : string) :
  truthy x = true -> truthy y = true -> x <> y ->
  mergeField (Some x) (Some y) = (Some x, Some y).
Proof.
  intros Hx Hy Hne. unfold mergeField. simpl. rewrite Hx, Hy. simpl.
  assert (strictNe (Some x) (Some y) = true) as ->; [|reflexivity].
  apply strictNe_true. congruence.
Qed.

Lemma mergeField_primary_truthy (x y : option string) :
  truthyOpt (fst (mergeField x y)) = truthyOpt x || truthyOpt y.
Proof.
  unfold mergeField, orElse.
  destruct (truthyOpt x) eqn:Hx, (truthyOpt y) eqn:Hy, (strictNe x y);
    simpl; rewrite ?Hx, ?Hy; reflexivity.
Qed.

Lemma nameFallback_named (name ua ub : option string) :
  truthyOpt name = true -> nameFallback name ua ub = name.
Proof.
  intros H. unfold nameFallback. rewrite H. simpl.
  rewrite !andb_false_r. rewrite H. simpl. now rewrite andb_false_r.
Qed.

(** C1, as the code has it. For [id], [phone] and [name] the merge keeps
    every non-empty value of either record, under the primary key or the
    [alt] key; when both records give one of these fields different
    non-empty values, [a]'s is primary and [b]'s is under [altId],
    [altPhone] or [altName]. An [unknown] token is only a stand-in for a
    missing name: it becomes the name when neither record has one, [a]'s
    token before [b]'s. *)
Theorem mergeParticipants_retains (a b : Identity) :
  let r := mergeParticipants a b in
  (forall v, truthy v = true -> p_id a = Some v \/ p_id b = Some v ->
     m_id r = Some v \/ m_altId r = Some v) /\
  (forall v, truthy v = true -> p_phone a = Some v \/ p_phone b = Some v ->
     m_phone r = Some v \/ m_altPhone r = Some v) /\
  (forall v, truthy v = true -> p_name a = Some v \/ p_name b = Some v ->
     m_name r = Some v \/ m_altName r = Some v) /\
  (forall x y, truthy x = true -> truthy y = true -> x <> y ->
     (p_id a = Some x -> p_id b = Some y -> m_id r = Some x /\ m_altId r = Some y) /\
     (p_phone a = Some x -> p_phone b = Some y ->
        m_phone r = Some x /\ m_altPhone r = Some y) /\
     (p_name a = Some x -> p_name b = Some y ->
        m_name r = Some x /\ m_altName r = Some y)) /\
  (truthyOpt (p_name a) = false -> truthyOpt (p_name b) = false ->
     (truthyOpt (p_unknown a) = true -> m_name r = p_unknown a) /\
     (truthyOpt (p_unknown a) = false -> truthyOpt (p_unknown b) = true ->
        m_name r = p_unknown b)).
Proof.
  intros r. subst r. rewrite mergeParticipants_fields. simpl.
  split; [|split; [|split; [|split]]].
  - intros v Hv H. now apply mergeField_retains.
  - intros v Hv H. now apply mergeField_retains.
  - intros v Hv H.
    destruct (mergeField_retains (p_name a) (p_name b) v Hv H) as [Hp|Ha]; [|tauto].
    left. rewrite nameFallback_named; [assumption|]. now rewrite Hp.
  - intros x y Hx Hy Hne.
    split; [|split]; intros Ha Hb; rewrite Ha, Hb;
      rewrite mergeField_conflict by assumption; simpl; [tauto | tauto |].
    split; [|reflexivity]. now apply nameFallback_named.
  - intros Hna Hnb.
    assert (truthyOpt (fst (mergeField (p_name a) (p_name b))) = false) as Hnone.
    { rewrite mergeField_primary_truthy, Hna, Hnb. reflexivity. }
    unfold nameFallback. split.
    + intros Hua. rewrite Hua, Hnone. simpl. rewrite Hua. simpl.
      now rewrite andb_false_r.
    + intros Hua Hub. rewrite Hua, Hub, Hnone. simpl. now rewrite Hnone.
Qed.

Lemma mergeParticipants_retains_witness :
  let r := mergeParticipants linkedDana phoneDan in
  (m_id r = Some "17@lid" \/ m_altId r = Some "17@lid") /\
  (m_phone r = Some "972501234567" /\ m_altPhone r = Some "972529999999") /\
  (m_name r = Some "Dana" /\ m_altName r = Some "Dan") /\
  m_name (mergeParticipants (token "anon-1") (token "anon-2")) = Some "anon-1".
Proof.
  destruct (mergeParticipants_retains linkedDana phoneDan) as (Hid & _ & _ & Hconf & _).
  destruct (mergeParticipants_retains (token "anon-1") (token "anon-2"))
    as (_ & _ & _ & _ & Hunk).
  split; [|split; [|split]].
  - apply Hid; [reflexivity | left; reflexivity].
  - apply (Hconf "972501234567" "972529999999"); [reflexivity | reflexivity |
      discriminate | reflexivity | reflexivity].
  - apply (Hconf "Dana" "Dan"); [reflexivity | reflexivity |
      discriminate | reflexivity | reflexivity].
  - apply Hunk; reflexivity.
Defined.

(** Where C1 as worded fails: the [unknown] token of [b] is a field value
    of an input, and the merge with a named record drops it. *)
Lemma mergeParticipants_drops_token :
  In "anon-17" (identityValues (token "anon-17")) /\
  ~ In "anon-17" (mergedValues (mergeParticipants (named "Dana") (token "anon-17"))).
Proof.
  split; [left; reflexivity|]. vm_compute. intros [H|[]]. discriminate.
Qed.

End MergeParticipants.

Section MergeOrder.
Import Participants.

Lemma strictNe_sym (x y : option string) : strictNe x y = strictNe y x.
Proof.
  destruct (strictNe x y) eqn:H; symmetry.
  - apply strictNe_true. apply strictNe_true in H. congruence.
  - apply strictNe_false. apply strictNe_false in H. congruence.
Qed.

Lemma carried_falsy (x : option string) :
  truthyOpt x = false -> carried x None = [].
Proof. intros H. unfold carried. now rewrite H. Qed.

(** One field: both argument orders carry the same non-empty values. *)
Lemma mergeField_swap (x y : option string) :
  Permutation (carried (fst (mergeField x y)) (snd (mergeField x y)))
              (carried (fst (mergeField y x)) (snd (mergeField y x))).
Proof.
  unfold mergeField, orElse. rewrite (strictNe_sym y x).
  destruct (truthyOpt x) eqn:Hx, (truthyOpt y) eqn:Hy, (strictNe x y) eqn:Hne; simpl.
  - unfold carried. rewrite Hx, Hy. apply Permutation_app_comm.
  - apply strictNe_false in Hne. subst y. reflexivity.
  - reflexivity.
  - reflexivity.
  - reflexivity.
  - reflexivity.
  - now rewrite !carried_falsy.
  - now rewrite !carried_falsy.
Qed.

Lemma mergeField_alt_none (x y : option string) :
  truthyOpt x && truthyOpt y = false -> snd (mergeField x y) = None.
Proof. intros H. unfold mergeField. now rewrite H. Qed.

Lemma nameFallback_unnamed (name ua ub : option string) :
  truthyOpt name = false ->
  nameFallback name ua ub =
  if truthyOpt ua then ua else if truthyOpt ub then ub else name.
Proof.
  intros H. unfold nameFallback. rewrite H. simpl. rewrite andb_true_r.
  destruct (truthyOpt ua) eqn:Hua.
  - now rewrite Hua, andb_false_r.
  - now rewrite H, andb_true_r.
Qed.

(** C2, as the code has it. Swapping the arguments leaves the non-empty
    ids and the non-empty phone numbers of the result the same, whichever
    key they sit under, and the names too unless both records lack a name
    and carry different [unknown] tokens; in that one case each order keeps
    only the token of its first argument. *)
Theorem mergeParticipants_order_stable (a b : Identity) :
  let ab := mergeParticipants a b in
  let ba := mergeParticipants b a in
  Permutation (carried (m_id ab) (m_altId ab)) (carried (m_id ba) (m_altId ba)) /\
  Permutation (carried (m_phone ab) (m_altPhone ab))
              (carried (m_phone ba) (m_altPhone ba)) /\
  (~ tokensCompete a b ->
     Permutation (carried (m_name ab) (m_altName ab))
                 (carried (m_name ba) (m_altName ba))) /\
  (tokensCompete a b -> m_name ab = p_unknown a /\ m_name ba = p_unknown b).
Proof.
  intros ab ba. subst ab ba. rewrite !mergeParticipants_fields. simpl.
  split; [apply mergeField_swap|]. split; [apply mergeField_swap|]. split.
  - intros Hfree.
    destruct (truthyOpt (p_name a) || truthyOpt (p_name b)) eqn:Hnamed.
    + rewrite !nameFallback_named; [apply mergeField_swap| |];
        rewrite mergeField_primary_truthy; [now rewrite orb_comm | assumption].
    + apply orb_false_elim in Hnamed as [Hna Hnb].
      rewrite !nameFallback_unnamed
        by (rewrite mergeField_primary_truthy, ?Hna, ?Hnb; reflexivity).
      rewrite !mergeField_alt_none by (rewrite ?Hna, ?Hnb; reflexivity).
      assert (truthyOpt (fst (mergeField (p_name a) (p_name b))) = false) as Hab
        by (rewrite mergeField_primary_truthy, Hna, Hnb; reflexivity).
      assert (truthyOpt (fst (mergeField (p_name b) (p_name a))) = false) as Hba
        by (rewrite mergeField_primary_truthy, Hna, Hnb; reflexivity).
      destruct (truthyOpt (p_unknown a)) eqn:Hua, (truthyOpt (p_unknown b)) eqn:Hub;
        try reflexivity.
      * destruct (decide (p_unknown a = p_unknown b)) as [->|Hne]; [reflexivity|].
        exfalso. apply Hfree. repeat split; assumption.
      * now rewrite !carried_falsy.
  - intros (Hna & Hnb & Hua & Hub & _).
    rewrite !nameFallback_unnamed
      by (rewrite mergeField_primary_truthy, ?Hna, ?Hnb; reflexivity).
    now rewrite Hua, Hub.
Qed.

Lemma mergeParticipants_order_stable_witness :
  Permutation
    (carried (m_name (mergeParticipants linkedDana phoneDan))
             (m_altName (mergeParticipants linkedDana phoneDan)))
    (carried (m_name (mergeParticipants phoneDan linkedDana))
             (m_altName (mergeParticipants phoneDan linkedDana))) /\
  m_name (mergeParticipants (token "anon-1") (token "anon-2")) = Some "anon-1" /\
  m_name (mergeParticipants (token "anon-2") (token "anon-1")) = Some "anon-2".
Proof.
  split.
  - apply (mergeParticipants_order_stable linkedDana phoneDan).
    intros (H & _). discriminate H.
  - apply (mergeParticipants_order_stable (token "anon-1") (token "anon-2")).
    repeat split; (reflexivity || discriminate).
Defined.

(** Where C2 as worded fails: two records that each carry only an
    [unknown] token. Either order keeps the token of its first argument
    and drops the other, so the two results do not hold the same values and
    each has lost one. *)
Lemma mergeParticipants_order_loses_token :
  mergedValues (mergeParticipants (token "anon-1") (token "anon-2")) = ["anon-1"] /\
  mergedValues (mergeParticipants (token "anon-2") (token "anon-1")) = ["anon-2"] /\
  ~ (forall v,
       In v (mergedValues (mergeParticipants (token "anon-1") (token "anon-2"))) <->
       In v (mergedValues (mergeParticipants (token "anon-2") (token "anon-1")))).
Proof.
  split; [reflexivity|]. split; [reflexivity|].
  intros H. destruct (H "anon-1") as [H1 _].
  destruct H1 as [H1|[]]; [left; reflexivity|]. discriminate H1.
Qed.

End MergeOrder.

(** ** retryOnDetachedFrame *)

Section RetryEnvelope.
Import Crawl.
Context {Ext A : Type}.
Variable operation : M Ext A.
Variable maxRetries : nat.

Lemma includes_truthy (s needle : string) :
  truthy needle = true -> includes s needle = true -> truthy s = true.
Proof.
  destruct s; [|reflexivity]. destruct needle; simpl; [discriminate|].
  intros _ H. discriminate H.
Qed.

(** The transient signatures are the four substrings the code lists. *)
Lemma isDetachedFrame_signatures (error : JsError) :
  isDetachedFrame error = true <->
  includes (message error) "detached Frame" = true \/
  includes (message error) "Execution context was destroyed" = true \/
  includes (message error) "Cannot find context" = true \/
  includes (message error) "Protocol error" = true.
Proof.
  unfold isDetachedFrame. rewrite andb_true_iff, !orb_true_iff. split.
  - intros [_ H]. tauto.
  - intros H. split; [|tauto].
    destruct H as [H|[H|[H|H]]];
      (eapply includes_truthy; [|exact H]; reflexivity).
Qed.

Lemma backoff_step (delay : Q) (k : nat) :
  backoff delay (S k) = (backoff delay k * (3 # 2))%Q.
Proof.
  revert delay. induction k as [|k IH]; intros delay; [reflexivity|].
  change (backoff delay (S (S k)))
    with (backoff (delay * (3 # 2))%Q (S k)).
  rewrite IH. reflexivity.
Qed.

Lemma backoff_positive (delay : Q) (k : nat) :
  (0 < delay)%Q -> (0 < backoff delay k)%Q.
Proof.
  revert delay. induction k as [|k IH]; intros delay Hd; simpl; [assumption|].
  apply IH. lra.
Qed.

Lemma worldAtAttempt_step (delay : Q) (k : nat) (w : World Ext) :
  worldAtAttempt operation delay (S k) w =
  snd (setTimeout (backoff delay k)
         (snd (operation (worldAtAttempt operation delay k w)))).
Proof.
  revert delay w. induction k as [|k IH]; intros delay w; [reflexivity|].
  change (worldAtAttempt operation delay (S (S k)) w)
    with (worldAtAttempt operation (delay * (3 # 2))%Q (S k)
            (snd (setTimeout delay (snd (operation w))))).
  rewrite IH. reflexivity.
Qed.

(** After [k] transient failures the loop stands at attempt [k + 1]. *)
Lemma retryLoop_after_failures (k remaining attempt : nat) (delay : Q) (w : World Ext) :
  attempt + k <= maxRetries ->
  transientFailures operation delay k w ->
  retryLoop operation maxRetries (k + remaining) attempt delay w =
  retryLoop operation maxRetries remaining (attempt + k) (backoff delay k)
    (worldAtAttempt operation delay k w).
Proof.
  revert attempt delay w. induction k as [|k IH]; intros attempt delay w Hk Hfail.
  - simpl. now rewrite Nat.add_0_r.
  - destruct Hfail as [(error & Herr & Htransient) Hrest].
    cbn [worldAtAttempt backoff].
    change (retryLoop operation maxRetries (S k + remaining) attempt delay w)
      with (tryCatch (v <- operation ;; ret (Some v))
              (fun error =>
                 if isDetachedFrame error && (attempt <? maxRetries)%nat then
                   setTimeout delay ;;;
                   retryLoop operation maxRetries (k + remaining) (attempt + 1)
                     (delay * (3 # 2))%Q
                 else throw error) w).
    unfold tryCatch, bind at 1.
    destruct (operation w) as [[v|e] w'] eqn:Hop; simpl in Herr; [discriminate|].
    injection Herr as ->. rewrite Htransient.
    assert ((attempt <? maxRetries)%nat = true) as -> by (apply Nat.ltb_lt; lia).
    simpl. unfold bind. simpl. simpl in Hrest.
    rewrite IH; [|lia|exact Hrest].
    replace (attempt + 1 + k) with (attempt + S k) by lia.
    reflexivity.
Qed.

(** C3. An error is transient when its message holds one of the four
    signatures. With [k < maxRetries] transient failures behind it, attempt
    [k + 1] decides the call: its value is returned and no error surfaces;
    an error that is not transient is thrown on at once, unchanged, with
    no wait and no further attempt; a transient error on the last allowed
    attempt is thrown on unchanged; a transient error on an earlier
    attempt is followed by a wait of [delay * 1.5^k] and attempt [k + 2],
    each wait half as long again as the one before. *)
Theorem retry_envelope (delay : Q) (w : World Ext) (k : nat) :
  k < maxRetries ->
  transientFailures operation delay k w ->
  let wk := worldAtAttempt operation delay k w in
  let run := retryOnDetachedFrame operation maxRetries delay w in
  (forall error,
     isDetachedFrame error = true <->
     includes (message error) "detached Frame" = true \/
     includes (message error) "Execution context was destroyed" = true \/
     includes (message error) "Cannot find context" = true \/
     includes (message error) "Protocol error" = true) /\
  (forall v w', operation wk = (Returned v, w') -> run = (Returned (Some v), w')) /\
  (forall error w', operation wk = (Thrown error, w') ->
     isDetachedFrame error = false -> run = (Thrown error, w')) /\
  (forall error w', operation wk = (Thrown error, w') ->
     S k = maxRetries -> run = (Thrown error, w')) /\
  (forall error w', operation wk = (Thrown error, w') ->
     isDetachedFrame error = true -> S k < maxRetries ->
     transientFailures operation delay (S k) w /\
     worldAtAttempt operation delay (S k) w
       = snd (setTimeout (backoff delay k) w')) /\
  backoff delay (S k) = (backoff delay k * (3 # 2))%Q /\
  ((0 < delay)%Q -> (backoff delay k < backoff delay (S k))%Q).
Proof.
  intros Hk Hfail wk run.
  assert (run = retryLoop operation maxRetries (maxRetries - k) (1 + k)
                  (backoff delay k) wk) as Hrun.
  { subst run wk. unfold retryOnDetachedFrame.
    replace maxRetries with (k + (maxRetries - k)) at 2 by lia.
    apply retryLoop_after_failures; [lia | assumption]. }
  destruct (maxRetries - k) as [|remaining] eqn:Hrem; [lia|].
  change (retryLoop operation maxRetries (S remaining) (1 + k)
            (backoff delay k) wk)
    with (tryCatch (v <- operation ;; ret (Some v))
            (fun error =>
               if isDetachedFrame error && (1 + k <? maxRetries)%nat then
                 setTimeout (backoff delay k) ;;;
                 retryLoop operation maxRetries remaining (1 + k + 1)
                   (backoff delay k * (3 # 2))%Q
               else throw error) wk) in Hrun.
  unfold tryCatch, bind at 1 in Hrun.
  split; [apply isDetachedFrame_signatures|].
  split; [|split; [|split; [|split; [|split]]]].
  - intros v w' Hop. rewrite Hop in Hrun. exact Hrun.
  - intros error w' Hop Hother. rewrite Hop, Hother in Hrun. exact Hrun.
  - intros error w' Hop Hlast. rewrite Hop in Hrun.
    assert ((1 + k <? maxRetries)%nat = false) as Hle by (apply Nat.ltb_ge; lia).
    rewrite Hle, andb_false_r in Hrun. exact Hrun.
  - intros error w' Hop Htransient Hmore. split.
    + clear Hrun Hk Hrem Hmore. subst wk. clear run. revert delay w Hfail Hop.
      induction k as [|k' IH]; intros delay w Hfail Hop.
      * simpl in *. rewrite Hop. simpl. eauto.
      * destruct Hfail as [Hfirst Hrest]. split; [exact Hfirst|].
        apply IH; assumption.
    + subst wk. rewrite worldAtAttempt_step, Hop. reflexivity.
  - apply backoff_step.
  - intros Hd. rewrite backoff_step. pose proof (backoff_positive delay k Hd). lra.
Qed.

End RetryEnvelope.

(** Scenario D: a detached frame on attempt 1 of 3, success on attempt 2. *)
Lemma retry_envelope_witness :
  Crawl.retryOnDetachedFrame (Crawl.call Crawl.flakyRequest) 3 1000 (Crawl.freshWorld 0)
  = (Returned (Some "page 1"), Crawl.mkWorld 2 1010 [1000%Q]).
Proof.
  apply (retry_envelope (Crawl.call Crawl.flakyRequest) 3 1000 (Crawl.freshWorld 0) 1).
  - lia.
  - simpl. split; [|exact I]. eexists. split; reflexivity.
  - reflexivity.
Defined.

(** ** The clock and the readiness check *)

Section Clock.
Import Crawl.
Context {Ext : Type}.

Lemma timerDuration_positive (delay : Q) : (1 <= timerDuration delay)%Z.
Proof.
  unfold timerDuration.
  destruct (1 <=? Qfloor delay)%Z eqn:H1; simpl; [|lia].
  destruct (Qfloor delay <=? 2147483647)%Z; lia.
Qed.

Lemma call_advancing {A : Type} (request : Ext -> Reply Ext A) : advancing (call request).
Proof. intros w. unfold call. simpl. lia. Qed.

Lemma setTimeout_advancing (delay : Q) : advancing (Ext := Ext) (setTimeout delay).
Proof.
  intros w. unfold setTimeout. simpl. pose proof (timerDuration_positive delay). lia.
Qed.

Lemma ret_advancing {A : Type} (v : A) : advancing (Ext := Ext) (ret v).
Proof. intros w. simpl. lia. Qed.

Lemma throw_advancing {A : Type} (e : JsError) : advancing (Ext := Ext) (throw (A := A) e).
Proof. intros w. simpl. lia. Qed.

Lemma bind_advancing {A B : Type} (m : M Ext A) (k : A -> M Ext B) :
  advancing m -> (forall v, advancing (k v)) -> advancing (bind m k).
Proof.
  intros Hm Hk w. unfold bind. specialize (Hm w).
  destruct (m w) as [[v|e] w']; simpl in *; [|assumption].
  specialize (Hk v w'). lia.
Qed.

Lemma tryCatch_advancing {A : Type} (body : M Ext A) (handler : JsError -> M Ext A) :
  advancing body -> (forall e, advancing (handler e)) -> advancing (tryCatch body handler).
Proof.
  intros Hb Hh w. unfold tryCatch. specialize (Hb w).
  destruct (body w) as [[v|e] w']; simpl in *; [assumption|].
  specialize (Hh e w'). lia.
Qed.

Lemma retryLoop_advancing {A : Type} (operation : M Ext A)
  (maxRetries remaining attempt : nat) (delay : Q) :
  advancing operation ->
  advancing (retryLoop operation maxRetries remaining attempt delay).
Proof.
  intros Hop. revert attempt delay.
  induction remaining as [|remaining IH]; intros attempt delay.
  - apply ret_advancing.
  - simpl. apply tryCatch_advancing.
    + apply bind_advancing; [assumption | intros v; apply ret_advancing].
    + intros e. destruct (isDetachedFrame e && (attempt <? maxRetries)%nat).
      * apply bind_advancing; [apply setTimeout_advancing | intros _; apply IH].
      * apply throw_advancing.
Qed.

Lemma chatProbe_advancing (client : Client Ext) (chatId : string) :
  advancing (chatProbe client chatId).
Proof.
  unfold chatProbe. apply bind_advancing; [apply call_advancing|].
  intros [c|]; [apply ret_advancing | apply throw_advancing].
Qed.

(** The readiness loop ends once the fuel covers the time left. *)
Lemma waitLoop_enough_fuel (client : Client Ext) (chatId : string)
  (startTime timeout : Z) (fuel : nat) (w : World Ext) :
  (timeout - (clock w - startTime) <= 1000 * Z.of_nat fuel)%Z ->
  exists r, waitLoop fuel client chatId startTime timeout w = Some r.
Proof.
  revert w. induction fuel as [|fuel IH]; intros w Hfuel.
  - simpl. destruct (clock w - startTime <? timeout)%Z eqn:Hc; [|eauto].
    apply Z.ltb_lt in Hc. lia.
  - cbn [waitLoop]. destruct (clock w - startTime <? timeout)%Z eqn:Hc; [|eauto].
    pose proof (retryLoop_advancing (chatProbe client chatId) 3 3 1 1000
                  (chatProbe_advancing client chatId) w) as Hadv.
    fold (retryOnDetachedFrame (chatProbe client chatId) 3 1000) in Hadv.
    destruct (retryOnDetachedFrame (chatProbe client chatId) 3 1000 w)
      as [[v|e] w1]; [eauto|].
    apply IH. apply Z.ltb_lt in Hc.
    assert (timerDuration 1000 = 1000%Z) as Hms by reflexivity.
    cbn [setTimeout snd clock]. rewrite Hms. simpl in Hadv. lia.
Qed.

(** [waitForChatReady] never runs out of fuel. *)
Lemma waitLoop_terminates (client : Client Ext) (chatId : string) (timeout : Z)
  (w : World Ext) :
  exists r,
    waitLoop (S (Z.to_nat (timeout / 1000))) client chatId (clock w) timeout w
      = Some r /\
    waitForChatReady client chatId timeout w = r.
Proof.
  destruct (waitLoop_enough_fuel client chatId (clock w) timeout
              (S (Z.to_nat (timeout / 1000))) w) as [r Hr].
  - pose proof (Z.div_mod timeout 1000 ltac:(lia)).
    pose proof (Z.mod_pos_bound timeout 1000 ltac:(lia)).
    lia.
  - exists r. split; [assumption|]. unfold waitForChatReady. now rewrite Hr.
Qed.

End Clock.

(** ** loadAllMessages *)

Section LoadingLoop.
Import Enrichment Crawl.
Context {Ext : Type}.
Variable client : Client Ext.
Variable chatId : string.
Variable maxCount : nat.

(** The dedup loop only ever appends, one message per count. *)
Lemma addUnseen_grows (page all : list RawMessage) (seen : gset string) (added : nat) :
  forall all' seen' added',
    addUnseen page all seen added = (all', seen', added') ->
    added <= added' /\
    length all' = length all + (added' - added) /\
    added' - added <= length page /\
    (exists fresh, all' = all ++ fresh) /\
    seen ⊆ seen' /\ allSeen page seen'.
Proof.
  revert all seen added.
  induction page as [|msg page IH]; intros all seen added all' seen' added' H.
  - simpl in H. injection H as <- <- <-.
    split_and!; try lia; [exists []; now rewrite app_nil_r | reflexivity | constructor].
  - simpl in H. destruct (decide (msg_id msg ∈ seen)) as [Hin|Hnew].
    + destruct (IH _ _ _ _ _ _ H) as (Hle & Hlen & Hb & Hfresh & Hsub & Hall).
      split_and!; try assumption; [simpl; lia|].
      constructor; [exact (Hsub _ Hin) | assumption].
    + destruct (IH _ _ _ _ _ _ H) as (Hle & Hlen & Hb & [fresh Hfresh] & Hsub & Hall).
      rewrite length_app in Hlen. simpl in Hlen.
      split_and!; try (simpl; lia).
      * exists (msg :: fresh). rewrite Hfresh, <- app_assoc. reflexivity.
      * intros x Hx. apply Hsub, elem_of_union. now right.
      * constructor; [|assumption].
        apply Hsub, elem_of_union. left. now apply elem_of_singleton.
Qed.


Lemma addUnseen_none_added (page all : list RawMessage) (seen : gset string) :
  forall all' seen',
    addUnseen page all seen 0 = (all', seen', 0) -> all' = all.
Proof.
  intros all' seen' H.
  destruct (addUnseen_grows _ _ _ _ _ _ _ H) as (_ & Hlen & _ & [fresh ->] & _).
  rewrite length_app in Hlen. destruct fresh; simpl in Hlen; [apply app_nil_r | lia].
Qed.

(** One turn of the loop, spelled out. *)
Lemma loadLoop_turn (fuel : nat) (all : list RawMessage) (seen : gset string)
  (w : World Ext) :
  length all < maxCount ->
  loadLoop (S fuel) client chatId maxCount all seen w =
  match fetchPage client chatId w with
  | (Returned None, w1) | (Returned (Some []), w1) => Some (Returned all, w1)
  | (Returned (Some page), w1) =>
      let '(all', seen', added) := addUnseen page all seen 0 in
      if (added =? 0)%nat then Some (Returned all', w1)
      else loadLoop fuel client chatId maxCount all' seen' (snd (setTimeout 500 w1))
  | (Thrown error, w1) =>
      if (0 <? length all)%nat then Some (Returned all, w1) else Some (Thrown error, w1)
  end.
Proof.
  intros Hlt. cbn [loadLoop].
  assert ((length all <? maxCount)%nat = true) as -> by (apply Nat.ltb_lt; lia).
  destruct (fetchPage client chatId w) as [[[[|m page]|]|e] w1]; reflexivity.
Qed.

Lemma loadLoop_at_cap (fuel : nat) (all : list RawMessage) (seen : gset string)
  (w : World Ext) :
  maxCount <= length all ->
  loadLoop fuel client chatId maxCount all seen w = Some (Returned all, w).
Proof.
  intros Hcap.
  assert ((length all <? maxCount)%nat = false) as Hc by (apply Nat.ltb_ge; lia).
  destruct fuel; simpl; now rewrite Hc.
Qed.

(** The loop ends once the fuel covers the room left under the cap, and
    more fuel changes nothing. *)
Lemma loadLoop_enough_fuel (fuel : nat) (all : list RawMessage) (seen : gset string)
  (w : World Ext) :
  maxCount - length all <= fuel ->
  exists r,
    loadLoop fuel client chatId maxCount all seen w = Some r /\
    forall fuel', fuel <= fuel' ->
      loadLoop fuel' client chatId maxCount all seen w = Some r.
Proof.
  revert all seen w. induction fuel as [|fuel IH]; intros all seen w Hfuel.
  - exists (Returned all, w). split; [|intros fuel' _]; apply loadLoop_at_cap; lia.
  - destruct (Nat.ltb_spec (length all) maxCount) as [Hlt|Hge].
    2:{ exists (Returned all, w). split; [|intros fuel' _]; apply loadLoop_at_cap; lia. }
    assert (forall fuel', S fuel <= fuel' ->
              exists n, fuel' = S n /\ fuel <= n) as Hsucc.
    { intros [|n] H; [lia|]. exists n. split; [reflexivity | lia]. }
    rewrite loadLoop_turn by assumption.
    destruct (fetchPage client chatId w) as [[[[|m page]|]|e] w1] eqn:Hfetch.
    + eexists. split; [reflexivity|]. intros fuel' Hle.
      destruct (Hsucc _ Hle) as (n & -> & _).
      rewrite loadLoop_turn, Hfetch by assumption. reflexivity.
    + destruct (addUnseen (m :: page) all seen 0) as [[all' seen'] added] eqn:Hadd.
      destruct (added =? 0)%nat eqn:Hzero.
      * eexists. split; [reflexivity|]. intros fuel' Hle.
        destruct (Hsucc _ Hle) as (n & -> & _).
        rewrite loadLoop_turn, Hfetch, Hadd, Hzero by assumption. reflexivity.
      * apply Nat.eqb_neq in Hzero.
        destruct (addUnseen_grows _ _ _ _ _ _ _ Hadd) as (_ & Hlen & _).
        destruct (IH all' seen' (snd (setTimeout 500 w1))) as (r & Hr & Hmore); [lia|].
        exists r. split; [assumption|]. intros fuel' Hle.
        destruct (Hsucc _ Hle) as (n & -> & Hn).
        rewrite loadLoop_turn, Hfetch, Hadd by assumption.
        assert ((added =? 0)%nat = false) as -> by (apply Nat.eqb_neq; lia).
        now apply Hmore.
    + eexists. split; [reflexivity|]. intros fuel' Hle.
      destruct (Hsucc _ Hle) as (n & -> & _).
      rewrite loadLoop_turn, Hfetch by assumption. reflexivity.
    + destruct (0 <? length all)%nat eqn:Hsome;
        (eexists; split; [reflexivity|]; intros fuel' Hle;
         destruct (Hsucc _ Hle) as (n & -> & _);
         rewrite loadLoop_turn, Hfetch, Hsome by assumption; reflexivity).
Qed.

(** [loadAllMessages] never runs out of fuel: it is the loading loop run
    to its end from the world the readiness check leaves. *)
Lemma loadAllMessages_runs_loop (w : World Ext) :
  exists r,
    loadLoop maxCount client chatId maxCount [] ∅ (afterReadinessCheck client chatId w)
      = Some r /\
    loadAllMessages client chatId maxCount w = r.
Proof.
  destruct (loadLoop_enough_fuel maxCount [] ∅ (afterReadinessCheck client chatId w))
    as (r & Hr & _); [simpl; lia|].
  exists r. split; [assumption|].
  unfold loadAllMessages. fold (afterReadinessCheck client chatId w). now rewrite Hr.
Qed.

End LoadingLoop.

Section Pagination.
Import Enrichment Crawl.
Context {Ext : Type}.
Variable client : Client Ext.
Variable chatId : string.
Variable maxCount : nat.



End Pagination.



Section SoftCap.
Import Enrichment Crawl.
Context {Ext : Type}.
Variable client : Client Ext.
Variable chatId : string.
Variable maxCount : nat.





End SoftCap.



(** ** runCrawler *)

Section MultiGroup.
Import Enrichment Crawl.
Context {Ext : Type}.
Variable listGroups : M Ext (list Group).
Variable process : Group -> M Ext (option GroupResult).

(** The loop over the groups never throws: it runs every group and files
    what each of them left. *)
Lemma crawlGroups_processEach (groups : list Group) (results : list ResultEntry)
  (w : World Ext) :
  crawlGroups process groups results w =
  (Returned (results ++ fst (processEach process groups w)),
   snd (processEach process groups w)).
Proof.
  revert results w. induction groups as [|group rest IH]; intros results w.
  - simpl. now rewrite app_nil_r.
  - cbn [crawlGroups processEach]. unfold bind at 1, tryCatch, bind at 1.
    destruct (process group w) as [[[r|]|e] w1]; simpl; rewrite IH;
      destruct (processEach process rest w1) as [entries w']; simpl;
      rewrite <- ?app_assoc; reflexivity.
Qed.

Lemma processEach_length (groups : list Group) (w : World Ext) :
  length (fst (processEach process groups w)) <= length groups.
Proof.
  revert w. induction groups as [|group rest IH]; intros w; simpl; [lia|].
  destruct (process group w) as [outcome w1]. specialize (IH w1).
  destruct (processEach process rest w1) as [entries w']. simpl in *.
  rewrite length_app. destruct outcome as [[r|]|e]; simpl; lia.
Qed.

Lemma filter_length_le {A : Type} (f : A -> bool) (l : list A) :
  length (List.filter f l) <= length l.
Proof. induction l as [|x l IH]; simpl; [lia|]. destruct (f x); simpl; lia. Qed.

(** The multi-group run, as the code has it. An error thrown while one
    group is processed becomes that group's entry in [results], with the
    group's name and the error's message, and the groups after it are
    processed all the same. The summary has [totalGroups] equal to the
    number of selected groups, [successful] equal to the number of entries
    that pass [!r.error], and [failed] the rest, so [successful + failed =
    totalGroups]. With group A failing with an error whose message is not
    empty and group B returning its result, the summary reports one failed
    and one successful group. *)
Theorem runCrawler_summary :
  (forall groups results w,
     crawlGroups process groups results w =
     (Returned (results ++ fst (processEach process groups w)),
      snd (processEach process groups w))) /\
  (forall group rest results w error w1,
     process group w = (Thrown error, w1) ->
     crawlGroups process (group :: rest) results w =
     crawlGroups process rest (results ++ [Failed (name group) (message error)]) w1) /\
  (forall selectedGroupIds cachedGroups w summary w',
     runCrawlerWith listGroups process selectedGroupIds cachedGroups w
       = (Returned summary, w') ->
     exists allGroups w0,
       let chosen := selected selectedGroupIds allGroups in
       chosen <> [] /\
       totalGroups summary = length chosen /\
       results summary = fst (processEach process chosen w0) /\
       w' = snd (processEach process chosen w0) /\
       successful summary = length (List.filter countsAsSuccessful (results summary)) /\
       (Z.of_nat (successful summary) + failed summary
        = Z.of_nat (totalGroups summary))%Z /\
       (0 <= failed summary)%Z) /\
  (forall selectedGroupIds groupA groupB w error w1 resultB w2,
     selected selectedGroupIds [groupA; groupB] = [groupA; groupB] ->
     process groupA w = (Thrown error, w1) ->
     truthy (message error) = true ->
     process groupB w1 = (Returned (Some resultB), w2) ->
     runCrawlerWith listGroups process selectedGroupIds (Some [groupA; groupB]) w
     = (Returned
          (mkSummary 2 1 1 [Failed (name groupA) (message error); Processed resultB]),
        w2)).
Proof.
  split; [apply crawlGroups_processEach|]. split; [|split].
  - intros group rest results w error w1 Hthrow.
    cbn [crawlGroups]. unfold bind at 1, tryCatch, bind at 1.
    rewrite Hthrow. reflexivity.
  - intros ids cached w summary w' Hrun.
    unfold runCrawlerWith, bind at 1 in Hrun.
    set (listing := match cached with Some (g :: gs) => ret (g :: gs) | _ => listGroups end)
      in Hrun.
    destruct (listing w) as [[allGroups|e] w0]; [|discriminate].
    exists allGroups, w0. fold (selected ids allGroups) in Hrun.
    destruct (selected ids allGroups) as [|g chosen] eqn:Hsel; [discriminate|].
    assert ((length (g :: chosen) =? 0)%nat = false) as Hsome by reflexivity.
    rewrite Hsome in Hrun. unfold bind in Hrun.
    rewrite crawlGroups_processEach in Hrun.
    pose proof (processEach_length (g :: chosen) w0) as Hlen.
    remember (processEach process (g :: chosen) w0) as run eqn:Hrun_def.
    remember (g :: chosen) as groups eqn:Hgroups.
    unfold ret in Hrun. injection Hrun as <- <-.
    cbn [totalGroups successful failed results app].
    fold countsAsSuccessful.
    pose proof (filter_length_le countsAsSuccessful (fst run)) as Hcount.
    split_and!; try reflexivity; try (now subst run); try lia.
    subst groups; discriminate.
  - intros ids A B w error w1 rB w2 Hsel HA Hmsg HB.
    unfold runCrawlerWith, bind at 1. unfold ret at 1. cbv beta iota.
    fold (selected ids [A; B]). rewrite Hsel.
    cbn [length Nat.eqb]. unfold bind. rewrite crawlGroups_processEach.
    cbn [processEach]. rewrite HA, HB. simpl. rewrite Hmsg. reflexivity.
Qed.

End MultiGroup.

(** Scenario E on a scripted remote: the first fetch of group A breaks
    down, group B loads page one. *)
Lemma runCrawler_scenario_E :
  fst (Crawl.runCrawler Crawl.sampleCommon Crawl.sampleEngine Crawl.quietHost
         Crawl.scriptedClient ["A@g.us"; "B@g.us"]
         (Some [Crawl.groupA; Crawl.groupB]) (Crawl.freshWorld Crawl.brokenScript))
  = Returned (Crawl.mkSummary 2 1 1
                [Crawl.Failed "Group A" "socket hang up";
                 Crawl.Processed Crawl.resultB]).
Proof.
  pose (process := Crawl.processGroup Crawl.sampleCommon Crawl.sampleEngine
                     Crawl.quietHost Crawl.scriptedClient).
  pose (w := Crawl.freshWorld Crawl.brokenScript).
  pose (w1 := snd (process Crawl.groupA w)).
  pose (w2 := snd (process Crawl.groupB w1)).
  destruct (runCrawler_summary
              (Crawl.getGroups Crawl.sampleCommon Crawl.sampleEngine Crawl.scriptedClient)
              process) as (_ & _ & _ & Hexample).
  unfold Crawl.runCrawler. fold process. fold w.
  rewrite (Hexample ["A@g.us"; "B@g.us"] Crawl.groupA Crawl.groupB w
             Crawl.brokenPipe w1 Crawl.resultB w2).
  - reflexivity.
  - reflexivity.
  - vm_compute. reflexivity.
  - reflexivity.
  - vm_compute. reflexivity.
Defined.

(** C6 at an input where the code departs from it. Group A fails with an
    error whose message is empty and group B succeeds. The failure is
    filed under group A, marked [success: false] in the source, yet the
    count [results.filter(r => !r.error)] takes the empty text for no
    error: the summary reports two successful groups and no failed one
    where C6 says one of each. *)
Lemma runCrawler_counts_silent_failure :
  fst (Crawl.processGroup Crawl.sampleCommon Crawl.sampleEngine Crawl.quietHost
         Crawl.scriptedClient Crawl.groupA (Crawl.freshWorld Crawl.silentScript))
  = Thrown Crawl.silentError /\
  fst (Crawl.runCrawler Crawl.sampleCommon Crawl.sampleEngine Crawl.quietHost
         Crawl.scriptedClient ["A@g.us"; "B@g.us"]
         (Some [Crawl.groupA; Crawl.groupB]) (Crawl.freshWorld Crawl.silentScript))
  = Returned (Crawl.mkSummary 2 2 0
                [Crawl.Failed "Group A" EmptyString; Crawl.Processed Crawl.resultB]).
Proof. split; vm_compute; reflexivity. Qed.

(** ** Array.prototype.sort *)

Section StableSort.
Import Sorting.
Context {A : Type}.

Lemma insertLast_permutation (comparefn : A -> A -> option Z) (x : A) (l : list A) :
  Permutation (x :: l) (insertLast comparefn x l).
Proof.
  induction l as [|y l IH]; simpl; [reflexivity|].
  destruct (order comparefn x y <? 0)%Z; [reflexivity|].
  rewrite perm_swap. now constructor.
Qed.

Lemma insertAll_permutation (comparefn : A -> A -> option Z) (l sorted : list A) :
  Permutation (sorted ++ l)
    (fold_left (fun sorted x => insertLast comparefn x sorted) l sorted).
Proof.
  revert sorted. induction l as [|x l IH]; intros sorted; simpl.
  - now rewrite app_nil_r.
  - rewrite <- IH. rewrite <- insertLast_permutation.
    rewrite <- Permutation_middle. reflexivity.
Qed.

(** Whatever the comparison function, the result holds the same elements. *)
Lemma stableSort_permutation (comparefn : A -> A -> option Z) (l : list A) :
  Permutation l (stableSort comparefn l).
Proof. apply (insertAll_permutation comparefn l []). Qed.

Lemma insertLast_agree (c1 c2 : A -> A -> option Z) (x : A) (l : list A) :
  (forall y, In y l -> order c1 x y = order c2 x y) ->
  insertLast c1 x l = insertLast c2 x l.
Proof.
  induction l as [|y l IH]; intros H; simpl; [reflexivity|].
  rewrite (H y) by (left; reflexivity).
  destruct (order c2 x y <? 0)%Z; [reflexivity|].
  f_equal. apply IH. intros z Hz. apply H. now right.
Qed.

Lemma insertAll_agree (c1 c2 : A -> A -> option Z) (universe l sorted : list A) :
  agreeOn c1 c2 universe -> incl l universe -> incl sorted universe ->
  fold_left (fun sorted x => insertLast c1 x sorted) l sorted =
  fold_left (fun sorted x => insertLast c2 x sorted) l sorted.
Proof.
  intros Hagree. revert sorted. induction l as [|x l IH]; intros sorted Hl Hs; simpl.
  - reflexivity.
  - assert (In x universe) as Hx by (apply Hl; left; reflexivity).
    rewrite (insertLast_agree c1 c2 x sorted) by (intros y Hy; apply Hagree; auto).
    apply IH.
    + intros y Hy. apply Hl. now right.
    + intros y Hy.
      apply (Permutation_in _ (Permutation_sym (insertLast_permutation c2 x sorted))) in Hy.
      destruct Hy as [<-|Hy]; auto.
Qed.

(** The sort only looks at the numbers it is handed. *)
Lemma stableSort_agree (c1 c2 : A -> A -> option Z) (l : list A) :
  agreeOn c1 c2 l -> stableSort c1 l = stableSort c2 l.
Proof.
  intros H. apply (insertAll_agree c1 c2 l l []); [assumption | apply incl_refl |].
  intros y [].
Qed.

Lemma keyedOn_agree (comparefn : A -> A -> option Z) (key : A -> Z) (l : list A) :
  keyedOn comparefn key l -> agreeOn comparefn (byKey key) l.
Proof. intros H x y Hx Hy. unfold order. now rewrite (H x y Hx Hy). Qed.

Variable key : A -> Z.

Lemma ascending_slot_zero (x y : A) (l : list A) :
  ascending key (y :: l) -> (key x < key y)%Z -> slot key x (y :: l) = 0.
Proof.
  intros Hasc Hlt. inversion Hasc as [|? ? _ Hall]; subst.
  unfold slot. simpl.
  assert ((key y <=? key x)%Z = false) as -> by (apply Z.leb_gt; lia).
  induction l as [|z l IH]; [reflexivity|].
  inversion Hall as [|? ? Hz Hrest]; subst. simpl.
  assert ((key z <=? key x)%Z = false) as -> by (apply Z.leb_gt; lia).
  apply IH; [|assumption].
  inversion Hasc as [|? ? Hsorted _]; subst.
  inversion Hsorted; subst. constructor; assumption.
Qed.

(** In an ascending list [insertLast] puts [x] into its slot. *)
Lemma insertLast_slot (x : A) (work : list A) :
  ascending key work ->
  insertLast (byKey key) x work =
  firstn (slot key x work) work ++ x :: skipn (slot key x work) work.
Proof.
  induction work as [|y l IH]; intros Hasc; [reflexivity|].
  simpl insertLast. unfold order, byKey.
  destruct (key x - key y <? 0)%Z eqn:Hlt.
  - apply Z.ltb_lt in Hlt. rewrite ascending_slot_zero by (assumption || lia).
    reflexivity.
  - apply Z.ltb_ge in Hlt.
    assert (slot key x (y :: l) = S (slot key x l)) as ->.
    { unfold slot. simpl.
      assert ((key y <=? key x)%Z = true) as -> by (apply Z.leb_le; lia).
      reflexivity. }
    simpl. f_equal. apply IH. now inversion Hasc.
Qed.

Lemma insertLast_ascending (x : A) (work : list A) :
  ascending key work -> ascending key (insertLast (byKey key) x work).
Proof.
  induction work as [|y l IH]; intros Hasc; simpl.
  - repeat constructor.
  - unfold order, byKey. destruct (key x - key y <? 0)%Z eqn:Hlt.
    + apply Z.ltb_lt in Hlt. constructor; [assumption|].
      inversion Hasc as [|? ? _ Hall]; subst.
      constructor; [lia|]. eapply Forall_impl; [|exact Hall]. simpl. intros; lia.
    + apply Z.ltb_ge in Hlt. inversion Hasc as [|? ? Hl Hall]; subst.
      constructor; [now apply IH|].
      eapply Permutation_Forall; [apply insertLast_permutation|].
      constructor; [lia | assumption].
Qed.

Lemma insertAll_ascending (l sorted : list A) :
  ascending key sorted ->
  ascending key (fold_left (fun sorted x => insertLast (byKey key) x sorted) l sorted).
Proof.
  revert sorted. induction l as [|x l IH]; intros sorted Hasc; simpl; [assumption|].
  apply IH. now apply insertLast_ascending.
Qed.

(** The result is in ascending order of the key. *)
Lemma stableSort_ascending (l : list A) : ascending key (stableSort (byKey key) l).
Proof. apply insertAll_ascending. constructor. Qed.

Lemma withKey_above (k : Z) (l : list A) :
  Forall (fun y => (k < key y)%Z) l -> withKey key k l = [].
Proof.
  induction 1 as [|y l Hy _ IH]; [reflexivity|]. unfold withKey in *. simpl.
  assert ((key y =? k)%Z = false) as -> by (apply Z.eqb_neq; lia). assumption.
Qed.

(** [insertLast] puts [x] behind the elements of its own key and leaves
    the elements of every key in their order. *)
Lemma insertLast_withKey (k : Z) (x : A) (work : list A) :
  ascending key work ->
  withKey key k (insertLast (byKey key) x work) =
  withKey key k work ++ withKey key k [x].
Proof.
  induction work as [|y l IH]; intros Hasc; [reflexivity|].
  simpl insertLast. change (order (byKey key) x y) with (key x - key y)%Z.
  inversion Hasc as [|? ? Hl Hall]; subst.
  destruct (key x - key y <? 0)%Z eqn:Hlt.
  - apply Z.ltb_lt in Hlt. unfold withKey. simpl.
    destruct (key x =? k)%Z eqn:Hx; [|now rewrite app_nil_r].
    apply Z.eqb_eq in Hx.
    assert ((key y =? k)%Z = false) as -> by (apply Z.eqb_neq; lia).
    fold (withKey key k l). rewrite withKey_above; [reflexivity|].
    eapply Forall_impl; [|exact Hall]. simpl. intros; lia.
  - replace (withKey key k (y :: insertLast (byKey key) x l))
      with ((if (key y =? k)%Z then [y] else []) ++
            withKey key k (insertLast (byKey key) x l))
      by (unfold withKey; simpl; now destruct (key y =? k)%Z).
    rewrite IH by assumption.
    unfold withKey. simpl. destruct (key y =? k)%Z; reflexivity.
Qed.

Lemma insertAll_withKey (k : Z) (l sorted : list A) :
  ascending key sorted ->
  withKey key k (fold_left (fun sorted x => insertLast (byKey key) x sorted) l sorted) =
  withKey key k sorted ++ withKey key k l.
Proof.
  revert sorted. induction l as [|x l IH]; intros sorted Hasc; simpl.
  - now rewrite app_nil_r.
  - rewrite IH by now apply insertLast_ascending.
    rewrite insertLast_withKey by assumption.
    rewrite <- app_assoc. f_equal.
    unfold withKey. simpl. now destruct (key x =? k)%Z.
Qed.

(** Elements of equal key keep the order they came in. *)
Lemma stableSort_stable (k : Z) (l : list A) :
  withKey key k (stableSort (byKey key) l) = withKey key k l.
Proof. apply (insertAll_withKey k l []). constructor. Qed.

End StableSort.

Section ShortArraySort.
Import Sorting.
Context {A : Type}.

Lemma insertAt_permutation (x : A) (n : nat) (l : list A) :
  Permutation (x :: l) (firstn n l ++ x :: skipn n l).
Proof. rewrite <- Permutation_middle. now rewrite firstn_skipn. Qed.

Lemma binaryInsertionSort_permutation (comparefn : A -> A -> option Z)
  (work rest : list A) :
  Permutation (work ++ rest) (binaryInsertionSort comparefn work rest).
Proof.
  revert work. induction rest as [|pivot rest IH]; intros work; simpl.
  - now rewrite app_nil_r.
  - rewrite <- IH. rewrite <- insertAt_permutation.
    rewrite <- Permutation_middle. reflexivity.
Qed.

Lemma countAndMakeRun_permutation (comparefn : A -> A -> option Z) (work : list A) :
  Permutation work (fst (countAndMakeRun comparefn work)
                    ++ snd (countAndMakeRun comparefn work)).
Proof.
  destruct work as [|high [|low rest]]; simpl; try now rewrite ?app_nil_r.
  set (n := runTail comparefn (order comparefn low high <? 0)%Z low rest).
  destruct (order comparefn low high <? 0)%Z.
  - rewrite <- (Permutation_rev (high :: low :: firstn n rest)).
    simpl. now rewrite firstn_skipn.
  - simpl. now rewrite firstn_skipn.
Qed.

(** Whatever the comparison function, V8's result holds the same elements. *)
Lemma shortArraySort_permutation (comparefn : A -> A -> option Z) (l : list A) :
  Permutation l (shortArraySort comparefn l).
Proof.
  unfold shortArraySort.
  pose proof (countAndMakeRun_permutation comparefn l) as Hrun.
  destruct (countAndMakeRun comparefn l) as [run rest]. simpl in Hrun.
  rewrite Hrun at 1. apply binaryInsertionSort_permutation.
Qed.

(** The algorithm only looks at the numbers it is handed. *)
Lemma runTail_agree (c1 c2 : A -> A -> option Z) (universe : list A)
  (isDescending : bool) (previous : A) (rest : list A) :
  agreeOn c1 c2 universe -> In previous universe -> incl rest universe ->
  runTail c1 isDescending previous rest = runTail c2 isDescending previous rest.
Proof.
  intros Hagree. revert previous.
  induction rest as [|current rest IH]; intros previous Hp Hrest; simpl; [reflexivity|].
  assert (In current universe) as Hc by (apply Hrest; now left).
  rewrite (Hagree current previous Hc Hp).
  rewrite IH; [reflexivity | assumption | intros z Hz; apply Hrest; now right].
Qed.

Lemma binarySearch_agree (c1 c2 : A -> A -> option Z) (pivot : A) (work : list A)
  (fuel left right : nat) :
  (forall y, In y work -> order c1 pivot y = order c2 pivot y) ->
  binarySearch c1 pivot work fuel left right = binarySearch c2 pivot work fuel left right.
Proof.
  intros Hagree. revert left right.
  induction fuel as [|fuel IH]; intros left right; simpl; [reflexivity|].
  destruct (left <? right)%nat; [|reflexivity].
  destruct (nth_error work (left + Nat.div2 (right - left))) as [element|] eqn:Hnth;
    [|reflexivity].
  rewrite (Hagree element) by (eapply nth_error_In; eassumption).
  now rewrite !IH.
Qed.

Lemma binaryInsertionSort_agree (c1 c2 : A -> A -> option Z) (universe work rest : list A) :
  agreeOn c1 c2 universe -> incl work universe -> incl rest universe ->
  binaryInsertionSort c1 work rest = binaryInsertionSort c2 work rest.
Proof.
  intros Hagree. revert work.
  induction rest as [|pivot rest IH]; intros work Hwork Hrest; simpl; [reflexivity|].
  assert (In pivot universe) as Hp by (apply Hrest; now left).
  rewrite (binarySearch_agree c1 c2 pivot work)
    by (intros y Hy; apply Hagree; auto).
  apply IH; [|intros z Hz; apply Hrest; now right].
  intros z Hz.
  apply (Permutation_in _ (Permutation_sym (insertAt_permutation pivot _ work))) in Hz.
  destruct Hz as [<-|Hz]; auto.
Qed.

Lemma shortArraySort_agree (c1 c2 : A -> A -> option Z) (l : list A) :
  agreeOn c1 c2 l -> shortArraySort c1 l = shortArraySort c2 l.
Proof.
  intros Hagree. unfold shortArraySort.
  pose proof (countAndMakeRun_permutation c2 l) as Hperm.
  assert (countAndMakeRun c1 l = countAndMakeRun c2 l) as Hrun.
  { destruct l as [|high [|low rest]]; try reflexivity. simpl.
    rewrite (Hagree low high) by (simpl; auto).
    rewrite (runTail_agree c1 c2 (high :: low :: rest)); try assumption;
      [reflexivity | simpl; auto | intros z Hz; simpl; auto]. }
  rewrite Hrun. destruct (countAndMakeRun c2 l) as [run rest]. simpl in Hperm.
  apply (binaryInsertionSort_agree c1 c2 l); [assumption| |];
    intros z Hz; apply (Permutation_in _ (Permutation_sym Hperm));
    apply in_or_app; auto.
Qed.

Variable key : A -> Z.

(** In an ascending list the elements not greater than [x] are exactly
    those before the slot of [x]. *)
Lemma slot_spec (x : A) (work : list A) (i : nat) (y : A) :
  ascending key work -> nth_error work i = Some y ->
  ((key y <= key x)%Z <-> i < slot key x work).
Proof.
  intros Hasc. revert i. induction Hasc as [|z l Hl IH Hall]; intros i Hnth.
  - destruct i; discriminate.
  - destruct (Z.leb_spec (key z) (key x)) as [Hle|Hgt].
    + assert (slot key x (z :: l) = S (slot key x l)) as ->.
      { unfold slot. simpl.
        assert ((key z <=? key x)%Z = true) as -> by (apply Z.leb_le; lia).
        reflexivity. }
      destruct i as [|i]; simpl in Hnth.
      * injection Hnth as <-. split; intros; lia.
      * rewrite (IH i Hnth). lia.
    + rewrite ascending_slot_zero by first [lia | now constructor].
      assert (key z <= key y)%Z.
      { destruct i as [|i]; simpl in Hnth; [injection Hnth as <-; lia|].
        rewrite Forall_forall in Hall. apply Hall.
        eapply nth_error_In; eassumption. }
      split; intros; lia.
Qed.

Lemma slot_le_length (x : A) (work : list A) : slot key x work <= length work.
Proof. apply filter_length_le. Qed.

(** The binary search finds the slot. *)
Lemma binarySearch_slot (x : A) (work : list A) (fuel left right : nat) :
  ascending key work ->
  left <= slot key x work <= right -> right <= length work -> right - left <= fuel ->
  binarySearch (byKey key) x work fuel left right = slot key x work.
Proof.
  intros Hasc. revert left right.
  induction fuel as [|fuel IH]; intros left right Hslot Hright Hfuel;
    cbn [binarySearch]; [lia|].
  destruct (Nat.ltb_spec left right) as [Hlt|Hge]; [|clear IH; lia].
  set (mid := left + Nat.div2 (right - left)).
  assert (left <= mid < right) as Hmid.
  { assert (Nat.div2 (right - left) < right - left) as Hhalf
      by (apply Nat.lt_div2; clear IH; lia).
    subst mid. clear IH. revert Hhalf. generalize (Nat.div2 (right - left)).
    intros half Hhalf. lia. }
  destruct (nth_error work mid) as [element|] eqn:Hnth.
  2:{ apply nth_error_None in Hnth. clear IH. lia. }
  pose proof (slot_spec x work mid element Hasc Hnth) as Hspec.
  change (order (byKey key) x element) with (key x - key element)%Z.
  destruct (Z.ltb_spec (key x - key element) 0) as [Hneg|Hpos];
    apply IH; clear IH; lia.
Qed.

(** On an ascending prefix, binary insertion is insertion behind the
    elements not greater. *)
Lemma binaryInsertionSort_insertAll (work rest : list A) :
  ascending key work ->
  binaryInsertionSort (byKey key) work rest =
  fold_left (fun sorted x => insertLast (byKey key) x sorted) rest work.
Proof.
  revert work. induction rest as [|pivot rest IH]; intros work Hasc; simpl; [reflexivity|].
  rewrite binarySearch_slot; try assumption; try lia;
    [|split; [lia | apply slot_le_length]].
  rewrite <- insertLast_slot by assumption.
  apply IH. now apply insertLast_ascending.
Qed.

Lemma insertLast_at_end (x : A) (sorted : list A) :
  Forall (fun y => (key y <= key x)%Z) sorted ->
  insertLast (byKey key) x sorted = sorted ++ [x].
Proof.
  induction 1 as [|y l Hy _ IH]; simpl; [reflexivity|].
  change (order (byKey key) x y) with (key x - key y)%Z.
  assert ((key x - key y <? 0)%Z = false) as -> by (apply Z.ltb_ge; lia).
  now rewrite IH.
Qed.

Lemma insertAll_of_ascending (l sorted : list A) :
  ascending key (sorted ++ l) ->
  fold_left (fun sorted x => insertLast (byKey key) x sorted) l sorted = sorted ++ l.
Proof.
  revert sorted. induction l as [|x l IH]; intros sorted Hasc; simpl.
  - now rewrite app_nil_r.
  - rewrite insertLast_at_end.
    + rewrite IH; rewrite <- app_assoc; [reflexivity | assumption].
    + apply Forall_forall. intros y Hy.
      apply (StronglySorted_app_1_elem_of _ _ _ y x Hasc);
        [now apply list_elem_of_In | left].
Qed.

Lemma insertLast_at_front (x : A) (sorted : list A) :
  Forall (fun y => (key x < key y)%Z) sorted ->
  insertLast (byKey key) x sorted = x :: sorted.
Proof.
  destruct 1 as [|y l Hy _]; simpl; [reflexivity|].
  change (order (byKey key) x y) with (key x - key y)%Z.
  assert ((key x - key y <? 0)%Z = true) as -> by (apply Z.ltb_lt; lia).
  reflexivity.
Qed.

Lemma insertAll_of_descending (l sorted : list A) :
  StronglySorted (fun x y => (key y < key x)%Z) l ->
  (forall x y, In x l -> In y sorted -> (key x < key y)%Z) ->
  fold_left (fun sorted x => insertLast (byKey key) x sorted) l sorted = rev l ++ sorted.
Proof.
  revert sorted. induction l as [|x l IH]; intros sorted Hdesc Hbelow; simpl;
    [reflexivity|].
  inversion Hdesc as [|? ? Hl Hall]; subst.
  rewrite insertLast_at_front
    by (apply Forall_forall; intros y Hy; apply Hbelow; [now left | assumption]).
  rewrite IH; [now rewrite <- app_assoc | assumption |].
  intros z y Hz [<-|Hy].
  - rewrite Forall_forall in Hall. now apply Hall.
  - apply Hbelow; [now right | assumption].
Qed.

Lemma runTail_le (comparefn : A -> A -> option Z) (d : bool) (previous : A)
  (rest : list A) :
  runTail comparefn d previous rest <= length rest.
Proof.
  revert previous. induction rest as [|c rest IH]; intros previous; simpl; [lia|].
  destruct d.
  - destruct (0 <=? order comparefn c previous)%Z; [lia|]. specialize (IH c). lia.
  - destruct (order comparefn c previous <? 0)%Z; [lia|]. specialize (IH c). lia.
Qed.

Lemma runTail_rising (previous : A) (rest : list A) :
  Sorted (fun x y => (key x <= key y)%Z)
    (previous :: firstn (runTail (byKey key) false previous rest) rest).
Proof.
  revert previous. induction rest as [|c rest IH]; intros previous; simpl.
  - repeat constructor.
  - change (order (byKey key) c previous) with (key c - key previous)%Z.
    destruct (Z.ltb_spec (key c - key previous) 0) as [Hlt|Hge]; simpl.
    + repeat constructor.
    + constructor; [apply IH|]. constructor. lia.
Qed.

Lemma runTail_falling (previous : A) (rest : list A) :
  Sorted (fun x y => (key y < key x)%Z)
    (previous :: firstn (runTail (byKey key) true previous rest) rest).
Proof.
  revert previous. induction rest as [|c rest IH]; intros previous; simpl.
  - repeat constructor.
  - change (order (byKey key) c previous) with (key c - key previous)%Z.
    destruct (Z.leb_spec 0 (key c - key previous)) as [Hge|Hlt]; simpl.
    + repeat constructor.
    + constructor; [apply IH|]. constructor. lia.
Qed.

(** The run that [countAndMakeRun] hands over is its stretch of the array,
    stably sorted. *)
Lemma countAndMakeRun_sorted (work : list A) :
  fst (countAndMakeRun (byKey key) work) =
  stableSort (byKey key)
    (firstn (length (fst (countAndMakeRun (byKey key) work))) work) /\
  snd (countAndMakeRun (byKey key) work) =
  skipn (length (fst (countAndMakeRun (byKey key) work))) work.
Proof.
  destruct work as [|high [|low rest]]; [split; reflexivity | split; reflexivity |].
  cbn [countAndMakeRun fst snd].
  change (order (byKey key) low high) with (key low - key high)%Z.
  set (d := (key low - key high <? 0)%Z).
  set (n := runTail (byKey key) d low rest).
  assert (n <= length rest) as Hn by apply runTail_le.
  set (run := firstn (2 + n) (high :: low :: rest)).
  assert (length run = 2 + n) as Hrun.
  { subst run. rewrite length_firstn. simpl. lia. }
  assert (length (if d then rev run else run) = 2 + n) as Hlen.
  { destruct d; [rewrite length_rev|]; assumption. }
  rewrite Hlen. fold run. split; [|reflexivity].
  subst run. cbn [firstn Nat.add]. unfold stableSort.
  destruct (Z.ltb_spec (key low - key high) 0) as [Hlt|Hge]; subst d.
  - assert (StronglySorted (fun x y => (key y < key x)%Z)
              (high :: low :: firstn n rest)) as Hdesc.
    { apply Sorted_StronglySorted; [intros x y z; lia|].
      constructor; [apply runTail_falling | constructor; lia]. }
    rewrite insertAll_of_descending; [now rewrite app_nil_r | assumption |].
    intros x y _ [].
  - assert (ascending key (high :: low :: firstn n rest)) as Hasc.
    { apply Sorted_StronglySorted; [intros x y z; lia|].
      constructor; [apply runTail_rising | constructor; lia]. }
    now rewrite (insertAll_of_ascending _ []).
Qed.

(** On a comparison function that is the difference of a key, V8 computes
    the stable sort. *)
Lemma shortArraySort_byKey (l : list A) :
  shortArraySort (byKey key) l = stableSort (byKey key) l.
Proof.
  unfold shortArraySort.
  destruct (countAndMakeRun_sorted l) as [Hrun Hrest].
  destruct (countAndMakeRun (byKey key) l) as [run rest]. simpl in Hrun, Hrest.
  rewrite binaryInsertionSort_insertAll
    by (rewrite Hrun; apply stableSort_ascending).
  rewrite <- (firstn_skipn (length run) l) at 1.
  unfold stableSort at 1. rewrite fold_left_app.
  fold (stableSort (byKey key) (firstn (length run) l)).
  now rewrite <- Hrun, <- Hrest.
Qed.

End ShortArraySort.

(** Both engines keep the promises of the language. *)
Lemma referenceSort_conforming : Sorting.Conforming Sorting.referenceSort.
Proof.
  split.
  - intros A comparefn l. apply stableSort_permutation.
  - reflexivity.
Qed.

Lemma v8Sort_conforming : Sorting.Conforming Sorting.v8Sort.
Proof.
  split.
  - intros A comparefn l. apply shortArraySort_permutation.
  - intros A comparefn key l Hkeyed. unfold Sorting.v8Sort.
    pose proof (keyedOn_agree comparefn key l Hkeyed) as Hagree.
    rewrite (shortArraySort_agree _ _ l Hagree), (stableSort_agree _ _ l Hagree).
    apply shortArraySort_byKey.
Qed.

(** ** enrichMessages *)

Section EnrichmentPipeline.
Import Sorting Enrichment.
Variable common : Common.
Variable engine : Engine.
Hypothesis conforming : Conforming (arraySort engine).

Lemma filter_permutation {A : Type} (f : A -> bool) (l l' : list A) :
  Permutation l l' -> Permutation (List.filter f l) (List.filter f l').
Proof.
  induction 1 as [|x l l' _ IH|x y l|l l' l'' _ IH1 _ IH2]; simpl.
  - reflexivity.
  - destruct (f x); [now constructor | assumption].
  - destruct (f x), (f y); try reflexivity. apply perm_swap.
  - now transitivity (List.filter f l').
Qed.

Lemma filter_filter_comm {A : Type} (f g : A -> bool) (l : list A) :
  List.filter f (List.filter g l) = List.filter g (List.filter f l).
Proof.
  induction l as [|x l IH]; simpl; [reflexivity|].
  destruct (g x) eqn:Hg, (f x) eqn:Hf; simpl; rewrite ?Hg, ?Hf, IH; reflexivity.
Qed.

Lemma insertLast_map {A B : Type} (f : A -> B) (cA : A -> A -> option Z)
  (cB : B -> B -> option Z) (x : A) (l : list A) :
  (forall a b, cB (f a) (f b) = cA a b) ->
  insertLast cB (f x) (map f l) = map f (insertLast cA x l).
Proof.
  intros Hc. induction l as [|y l IH]; simpl; [reflexivity|].
  unfold Js.order. rewrite Hc.
  destruct (match cA x y with Some v => v | None => 0%Z end <? 0)%Z; simpl;
    [reflexivity | now rewrite IH].
Qed.

(** Sorting the images is the image of sorting. *)
Lemma stableSort_map {A B : Type} (f : A -> B) (cA : A -> A -> option Z)
  (cB : B -> B -> option Z) (l : list A) :
  (forall a b, cB (f a) (f b) = cA a b) ->
  stableSort cB (map f l) = map f (stableSort cA l).
Proof.
  intros Hc. unfold stableSort. change (@nil B) with (map f []).
  generalize (@nil A). induction l as [|x l IH]; intros sorted; simpl; [reflexivity|].
  rewrite (insertLast_map f cA cB) by assumption. apply IH.
Qed.

Lemma validRaw_spec (msg : RawMessage) :
  validRaw msg = true <-> exists t, msg_timestamp msg = Seconds t /\ (0 < t)%Z.
Proof.
  unfold validRaw, isValidTimestamp. destruct (msg_timestamp msg) as [| |t].
  - split; [discriminate | intros (t & H & _); discriminate].
  - split; [discriminate | intros (t & H & _); discriminate].
  - rewrite Z.ltb_lt. split; [eauto | intros (t' & [= <-] & H); assumption].
Qed.

Lemma finite_keyed (l : list RawMessage) :
  Forall finiteNumber l -> keyedOn sortByTimestamp timestampKey l.
Proof.
  intros Hall x y Hx Hy. rewrite Forall_forall in Hall.
  destruct (Hall x Hx) as [tx Htx]. destruct (Hall y Hy) as [ty Hty].
  unfold sortByTimestamp, timestampKey, timestampDifference.
  now rewrite Htx, Hty.
Qed.

Lemma valid_finite (l : list RawMessage) : Forall finiteNumber (List.filter validRaw l).
Proof.
  apply Forall_forall. intros x Hx. apply filter_In in Hx as [_ Hvalid].
  apply validRaw_spec in Hvalid as (t & Ht & _). now exists t.
Qed.

Lemma filter_valid_map (members : list Participant) (l : list RawMessage) :
  List.filter (isValidMessage) (map (fun msg => enrichSingleMessage common msg members) l)
  = map (fun msg => enrichSingleMessage common msg members) (List.filter validRaw l).
Proof.
  induction l as [|x l IH]; simpl; [reflexivity|].
  unfold isValidMessage at 1. simpl. fold (validRaw x).
  destruct (validRaw x); simpl; now rewrite IH.
Qed.

Lemma enriched_keyed (members : list Participant) (l : list RawMessage) :
  Forall finiteNumber l ->
  keyedOn sortEnrichedByTimestamp enrichedKey
    (map (fun msg => enrichSingleMessage common msg members) l).
Proof.
  intros Hall x y Hx Hy. rewrite Forall_forall in Hall.
  apply in_map_iff in Hx as (a & <- & Ha). apply in_map_iff in Hy as (b & <- & Hb).
  destruct (Hall a Ha) as [ta Hta]. destruct (Hall b Hb) as [tb Htb].
  unfold sortEnrichedByTimestamp, enrichedKey, timestampDifference.
  simpl. now rewrite Hta, Htb.
Qed.

(** The array handed to [addFinalMetadata] is the enrichment of [kept]. *)
Lemma second_sort (messages : list RawMessage) (members : list Participant) :
  arraySort engine _ sortEnrichedByTimestamp
    (List.filter isValidMessage
       (map (fun msg => enrichSingleMessage common msg members)
          (arraySort engine _ sortByTimestamp messages)))
  = map (fun msg => enrichSingleMessage common msg members) (kept engine messages).
Proof.
  rewrite filter_valid_map.
  rewrite (sort_stable _ conforming _ _ enrichedKey)
    by (apply enriched_keyed, valid_finite).
  apply stableSort_map. reflexivity.
Qed.

Lemma kept_byKey (messages : list RawMessage) :
  kept engine messages =
  stableSort (byKey timestampKey)
    (List.filter validRaw (arraySort engine _ sortByTimestamp messages)).
Proof.
  unfold kept. apply stableSort_agree, keyedOn_agree, finite_keyed, valid_finite.
Qed.

Lemma kept_valid (messages : list RawMessage) (msg : RawMessage) :
  In msg (kept engine messages) -> validRaw msg = true.
Proof.
  intros H. unfold kept in H.
  apply (Permutation_in _ (Permutation_sym (stableSort_permutation _ _))) in H.
  now apply filter_In in H.
Qed.

Lemma mapFinalMetadata_in_range (members : list Participant) (index : nat)
  (l : list RawMessage) :
  Forall (fun msg => validRaw msg = true) l -> Forall inDateRange l ->
  mapFinalMetadata engine index
    (map (fun msg => enrichSingleMessage common msg members) l)
  = Returned (imap (fun i msg => finalOf common engine members (index + i) msg) l).
Proof.
  intros Hvalid. revert index.
  induction Hvalid as [|msg l Hmsg _ IH]; intros index Hrange; [reflexivity|].
  inversion Hrange as [|? ? Hin Hrest]; subst.
  apply validRaw_spec in Hmsg as (t & Ht & Hpos).
  unfold inDateRange, timestampKey in Hin. rewrite Ht in Hin.
  cbn [map mapFinalMetadata]. unfold addFinalMetadata, formatTimestamp.
  cbn [e_timestamp enrichSingleMessage]. rewrite Ht.
  assert ((Z.abs (t * 1000) <=? maxTimeValue)%Z = true) as -> by (apply Z.leb_le; lia).
  rewrite IH by assumption. rewrite imap_cons. f_equal. f_equal.
  - unfold finalOf, timestampKey. rewrite Ht, Nat.add_0_r. reflexivity.
  - apply imap_ext. intros i x _. simpl. f_equal. lia.
Qed.

(** C8, as the code has it. On an engine that keeps the promises of the
    language, the output holds one record for each input message whose
    timestamp is a number above 0 (0, [NaN] and a missing timestamp are
    out, 1 is in) and for no other, in ascending order of timestamp, the
    record at position [i] carrying [serialNumber = i + 1]. Messages of
    equal timestamp come in the order the first sort left them in; that is
    their arrival order when the timestamp of every input message is a
    finite number, so neither missing nor [NaN]. All this holds when the
    kept timestamps are dates a [Date] can hold. *)
Theorem enrichMessages_output (messages : list RawMessage) (members : list Participant) :
  let sorted := arraySort engine _ sortByTimestamp messages in
  Permutation (kept engine messages) (List.filter validRaw messages) /\
  (forall msg, validRaw msg = true <->
               exists t, msg_timestamp msg = Seconds t /\ (0 < t)%Z) /\
  ascending timestampKey (kept engine messages) /\
  (forall t, withKey timestampKey t (kept engine messages) =
             withKey timestampKey t (List.filter validRaw sorted)) /\
  (Forall finiteNumber messages ->
   forall t, withKey timestampKey t (kept engine messages) =
             withKey timestampKey t (List.filter validRaw messages)) /\
  (Forall inDateRange (kept engine messages) ->
   fst (enrichMessages common engine (mkArrays messages members)) =
   Returned (imap (finalOf common engine members) (kept engine messages))) /\
  (forall i msg, serialNumber (finalOf common engine members i msg) = i + 1).
Proof.
  intros sorted. split_and!.
  - unfold kept. rewrite <- stableSort_permutation.
    apply filter_permutation. symmetry. apply (sort_permutation _ conforming).
  - apply validRaw_spec.
  - rewrite kept_byKey. apply stableSort_ascending.
  - intros t. rewrite kept_byKey. apply stableSort_stable.
  - intros Hnum t. rewrite kept_byKey, stableSort_stable.
    unfold withKey. rewrite !(filter_filter_comm _ validRaw). f_equal.
    rewrite (sort_stable _ conforming _ _ timestampKey) by now apply finite_keyed.
    rewrite (stableSort_agree _ (byKey timestampKey))
      by now apply keyedOn_agree, finite_keyed.
    apply (stableSort_stable timestampKey t).
  - intros Hrange. unfold enrichMessages. cbn [fst messagesArray membersArray].
    rewrite second_sort.
    rewrite (mapFinalMetadata_in_range members 0); [reflexivity| |assumption].
    apply Forall_forall. intros msg. apply kept_valid.
  - reflexivity.
Qed.

(** C9, as the code has it. The call does not touch the participants
    array. It leaves the rawMessages array with the same elements but
    sorted in place by timestamp, as the first statement of the function
    does: ascending with ties in arrival order when every timestamp is a
    finite number (neither missing nor [NaN]), and hence unchanged when
    the array was in ascending order already. *)
Theorem enrichMessages_frame (messages : list RawMessage) (members : list Participant) :
  let after := snd (enrichMessages common engine (mkArrays messages members)) in
  membersArray after = members /\
  messagesArray after = arraySort engine _ sortByTimestamp messages /\
  Permutation messages (messagesArray after) /\
  (Forall finiteNumber messages ->
   messagesArray after = stableSort (byKey timestampKey) messages /\
   ascending timestampKey (messagesArray after) /\
   (forall t, withKey timestampKey t (messagesArray after)
              = withKey timestampKey t messages) /\
   (ascending timestampKey messages -> messagesArray after = messages)).
Proof.
  intros after. subst after. unfold enrichMessages. cbn [snd messagesArray membersArray].
  split_and!; try reflexivity.
  - apply (sort_permutation _ conforming).
  - intros Hnum.
    rewrite (sort_stable _ conforming _ _ timestampKey) by now apply finite_keyed.
    rewrite (stableSort_agree _ (byKey timestampKey))
      by now apply keyedOn_agree, finite_keyed.
    split_and!.
    + reflexivity.
    + apply stableSort_ascending.
    + intros t. apply stableSort_stable.
    + intros Hasc. apply (insertAll_of_ascending timestampKey messages []). exact Hasc.
Qed.

End EnrichmentPipeline.

(** The boundary of C8 on V8: of the timestamps 0, missing, [NaN] and 1
    only the last is kept, with serial number 1. *)
Lemma enrichMessages_output_witness :
  fst (Enrichment.enrichMessages Enrichment.noCommon Enrichment.v8Engine
         (Enrichment.mkArrays Enrichment.boundaryInput []))
  = Returned [Enrichment.mkEnrichedMessage 1 "1000" "one" Enrichment.UnknownMember
                "text" None None] /\
  Sorting.withKey Enrichment.timestampKey 1
    (Enrichment.kept Enrichment.v8Engine Enrichment.oldestFirst)
  = [Enrichment.stamped "early" (Enrichment.Seconds 1)].
Proof.
  assert (Enrichment.kept Enrichment.v8Engine Enrichment.boundaryInput
          = [Enrichment.stamped "one" (Enrichment.Seconds 1)]) as Hkept
    by (vm_compute; reflexivity).
  destruct (enrichMessages_output Enrichment.noCommon Enrichment.v8Engine
              v8Sort_conforming Enrichment.boundaryInput [])
    as (_ & _ & _ & _ & _ & Hout & _).
  destruct (enrichMessages_output Enrichment.noCommon Enrichment.v8Engine
              v8Sort_conforming Enrichment.oldestFirst [])
    as (_ & _ & _ & _ & Hties & _ & _).
  split.
  - rewrite Hout.
    + rewrite Hkept. reflexivity.
    + rewrite Hkept. constructor; [|constructor]. now cbv.
  - rewrite Hties; [reflexivity|].
    apply Forall_forall. intros msg [<- | [<- | []]]; eexists; reflexivity.
Defined.

(** Where C8 as worded fails. A [NaN] timestamp is of type number and
    makes every comparison [NaN], so the comparison function is not
    consistent; V8 - an engine that keeps the promises of the language -
    then leaves m7 before m6 although both carry timestamp 3 and m6
    arrived first, and the second sort keeps that order. Messages without
    a timestamp have the same effect. And a timestamp above 0 that no
    [Date] can hold is not in the output: the call throws when it formats
    the date. *)
Lemma enrichMessages_reorders_ties :
  Sorting.Conforming (Enrichment.arraySort Enrichment.v8Engine) /\
  Forall Enrichment.numeric Enrichment.nanInput /\
  map Enrichment.msg_id
    (Sorting.withKey Enrichment.timestampKey 3
       (List.filter Enrichment.validRaw Enrichment.nanInput))
  = ["m6"; "m7"] /\
  (exists out,
     fst (Enrichment.enrichMessages Enrichment.noCommon Enrichment.v8Engine
            (Enrichment.mkArrays Enrichment.nanInput []))
     = Returned out /\
     map Enrichment.messageId out = ["m4"; "m7"; "m6"; "m3"] /\
     map Enrichment.serialNumber out = [1; 2; 3; 4]) /\
  (exists out,
     fst (Enrichment.enrichMessages Enrichment.noCommon Enrichment.v8Engine
            (Enrichment.mkArrays Enrichment.tieInput []))
     = Returned out /\
     map Enrichment.messageId out = ["m4"; "m7"; "m6"; "m3"] /\
     map Enrichment.serialNumber out = [1; 2; 3; 4]) /\
  Enrichment.validRaw (Enrichment.stamped "far" (Enrichment.Seconds 8640000000001)) = true /\
  fst (Enrichment.enrichMessages Enrichment.noCommon Enrichment.v8Engine
         (Enrichment.mkArrays Enrichment.farFuture []))
  = Thrown (mkError "RangeError" "Invalid time value").
Proof.
  split; [exact v8Sort_conforming|].
  split; [repeat constructor; discriminate|].
  split; [reflexivity|]. split; [|split].
  - eexists. split; [vm_compute; reflexivity|]. split; reflexivity.
  - eexists. split; [vm_compute; reflexivity|]. split; reflexivity.
  - split; vm_compute; reflexivity.
Qed.

(** On V8: the participants stay as they were, and an array that is in
    ascending order already stays as it was. *)
Lemma enrichMessages_frame_witness :
  Enrichment.membersArray
    (snd (Enrichment.enrichMessages Enrichment.noCommon Enrichment.v8Engine
            (Enrichment.mkArrays Enrichment.oldestFirst [Enrichment.dana])))
  = [Enrichment.dana] /\
  Enrichment.messagesArray
    (snd (Enrichment.enrichMessages Enrichment.noCommon Enrichment.v8Engine
            (Enrichment.mkArrays Enrichment.oldestFirst [Enrichment.dana])))
  = Enrichment.oldestFirst.
Proof.
  destruct (enrichMessages_frame Enrichment.noCommon Enrichment.v8Engine
              v8Sort_conforming Enrichment.oldestFirst [Enrichment.dana])
    as (Hmembers & _ & _ & Hfinite).
  split; [exact Hmembers|].
  apply Hfinite.
  - apply Forall_forall. intros msg [<- | [<- | []]]; eexists; reflexivity.
  - repeat constructor; now cbv.
Defined.

(** Where C9 as worded fails: an array that arrives newest first is in
    the opposite order after the call. And with [NaN] among the
    timestamps, all of them of type number, the array is left in an order
    that is neither the one it came in nor ascending with ties in arrival
    order: 4 stands before 3, and m7 before m6. *)
Lemma enrichMessages_sorts_callers_array :
  Enrichment.messagesArray
    (snd (Enrichment.enrichMessages Enrichment.noCommon Enrichment.v8Engine
            (Enrichment.mkArrays Enrichment.newestFirst [])))
  = Enrichment.oldestFirst /\
  Enrichment.oldestFirst <> Enrichment.newestFirst /\
  Forall Enrichment.numeric Enrichment.nanInput /\
  map Enrichment.msg_id
    (Enrichment.messagesArray
       (snd (Enrichment.enrichMessages Enrichment.noCommon Enrichment.v8Engine
               (Enrichment.mkArrays Enrichment.nanInput []))))
  = ["m1"; "m2"; "m4"; "m7"; "m3"; "m5"; "m6"].
Proof.
  split; [vm_compute; reflexivity|]. split; [discriminate|].
  split; [repeat constructor; discriminate|]. vm_compute. reflexivity.
Qed.

(** * Properties read off the code *)

(** ** File names *)

Section FileNames.
Import Crawl Exporter.

Lemma allChars_sanitize (name : string) :
  safeName (Crawl.sanitizeFilename name) = true.
Proof.
  unfold safeName. induction name as [|c rest IH]; [reflexivity|].
  cbn [Crawl.sanitizeFilename allChars]. rewrite IH, andb_true_r.
  destruct (unsafeInFilename c) eqn:Hc; [reflexivity|]. now rewrite Hc.
Qed.

Lemma sanitize_safe_fixed (name : string) :
  safeName name = true -> Crawl.sanitizeFilename name = name.
Proof.
  unfold safeName. induction name as [|c rest IH]; [reflexivity|].
  cbn [Crawl.sanitizeFilename allChars]. intros [Hc Hrest]%andb_true_iff.
  apply negb_true_iff in Hc. rewrite Hc, IH by assumption. reflexivity.
Qed.

Lemma sanitize_length (name : string) :
  String.length (Crawl.sanitizeFilename name) = String.length name.
Proof. induction name as [|c rest IH]; [reflexivity|]. cbn. now rewrite IH. Qed.

(** X1. The crawl service's [sanitizeFilename] keeps the length of the
    name, leaves none of the ten unsafe characters behind, changes nothing
    when applied a second time, and leaves a name unchanged exactly when it
    has no unsafe character. *)
Theorem sanitizeFilename_safe (name : string) :
  String.length (Crawl.sanitizeFilename name) = String.length name /\
  safeName (Crawl.sanitizeFilename name) = true /\
  Crawl.sanitizeFilename (Crawl.sanitizeFilename name) = Crawl.sanitizeFilename name /\
  (Crawl.sanitizeFilename name = name <-> safeName name = true).
Proof.
  split_and!.
  - apply sanitize_length.
  - apply allChars_sanitize.
  - apply sanitize_safe_fixed, allChars_sanitize.
  - split.
    + intros <-. apply allChars_sanitize.
    + apply sanitize_safe_fixed.
Qed.

(** No 8-bit character is a directional mark, so on the strings of this
    development the first replacement of the exporter removes nothing. *)
Lemma isDirectionalMark_8bit (c : ascii) : isDirectionalMark c = false.
Proof.
  unfold isDirectionalMark. pose proof (N_ascii_bounded c) as Hc.
  repeat match goal with
  | |- context [(?a =? ?b)%N] => destruct (N.eqb_spec a b); [lia|]
  | |- context [(?a <=? ?b)%N] => destruct (N.leb_spec a b); try lia
  end; reflexivity.
Qed.

Lemma removeAll_8bit (s : string) : removeAll isDirectionalMark s = s.
Proof.
  induction s as [|c rest IH]; [reflexivity|].
  cbn [removeAll]. now rewrite isDirectionalMark_8bit, IH.
Qed.

Lemma isHyphen_safe (c : ascii) : isHyphen c = true -> unsafeInFilename c = false.
Proof. unfold isHyphen. intros ->%Ascii.eqb_eq. reflexivity. Qed.

(** The three hyphen passes only take characters away. *)
Lemma allChars_collapse (test : ascii -> bool) (s : string) :
  allChars test s = true -> allChars test (collapseHyphens s) = true.
Proof.
  induction s as [|c rest IH]; [reflexivity|].
  cbn [allChars]. intros [Hc Hrest]%andb_true_iff.
  cbn [collapseHyphens]. destruct rest as [|d rest'].
  - cbn. now rewrite Hc.
  - destruct (isHyphen c && isHyphen d); [now apply IH|].
    cbn [allChars]. rewrite Hc. now apply IH.
Qed.

Lemma allChars_dropLeading (test : ascii -> bool) (s : string) :
  allChars test s = true -> allChars test (dropLeadingHyphens s) = true.
Proof.
  induction s as [|c rest IH]; [reflexivity|].
  intros H. cbn [dropLeadingHyphens]. destruct (isHyphen c); [|exact H].
  cbn [allChars] in H. apply andb_true_iff in H as [_ H]. now apply IH.
Qed.

Lemma allChars_dropTrailing (test : ascii -> bool) (s : string) :
  allChars test s = true -> allChars test (dropTrailingHyphens s) = true.
Proof.
  induction s as [|c rest IH]; [reflexivity|].
  cbn [allChars]. intros [Hc Hrest]%andb_true_iff.
  cbn [dropTrailingHyphens]. specialize (IH Hrest).
  destruct (dropTrailingHyphens rest) as [|d kept].
  - destruct (isHyphen c); [reflexivity|]. cbn. now rewrite Hc.
  - cbn [allChars]. rewrite Hc. exact IH.
Qed.

Lemma startsWith_hyphen (c : ascii) (rest : string) :
  startsWith "-" (String c rest) = isHyphen c.
Proof.
  unfold isHyphen. cbn [startsWith]. rewrite (Ascii.eqb_sym "-"%char c).
  now destruct (Ascii.eqb c "-").
Qed.

Lemma includes_hyphens (c : ascii) (rest : string) :
  includes (String c rest) "--" =
  (isHyphen c && startsWith "-" rest) || includes rest "--".
Proof.
  cbn [includes]. f_equal.
Qed.

Lemma collapse_first (s : string) :
  startsWith "-" (collapseHyphens s) = startsWith "-" s.
Proof.
  induction s as [|c rest IH]; [reflexivity|].
  cbn [collapseHyphens]. destruct rest as [|d rest']; [reflexivity|].
  destruct (isHyphen c && isHyphen d) eqn:Hcd.
  - rewrite IH, !startsWith_hyphen.
    apply andb_true_iff in Hcd as [-> ->]. reflexivity.
  - now rewrite !startsWith_hyphen.
Qed.

Lemma collapse_no_run (s : string) : includes (collapseHyphens s) "--" = false.
Proof.
  induction s as [|c rest IH]; [reflexivity|].
  cbn [collapseHyphens]. destruct rest as [|d rest'].
  - rewrite includes_hyphens. now rewrite andb_false_r.
  - destruct (isHyphen c && isHyphen d) eqn:Hcd; [exact IH|].
    rewrite includes_hyphens, IH, collapse_first, startsWith_hyphen, Hcd.
    reflexivity.
Qed.

Lemma collapse_fixed (s : string) :
  includes s "--" = false -> collapseHyphens s = s.
Proof.
  induction s as [|c rest IH]; [reflexivity|].
  rewrite includes_hyphens. intros [Hcd Hrest]%orb_false_iff.
  cbn [collapseHyphens]. destruct rest as [|d rest']; [reflexivity|].
  rewrite startsWith_hyphen in Hcd. rewrite Hcd. now rewrite IH.
Qed.

Lemma dropLeading_no_run (s : string) :
  includes s "--" = false -> includes (dropLeadingHyphens s) "--" = false.
Proof.
  induction s as [|c rest IH]; [reflexivity|].
  intros H. cbn [dropLeadingHyphens]. destruct (isHyphen c); [|exact H].
  rewrite includes_hyphens in H. apply orb_false_iff in H as [_ H]. now apply IH.
Qed.

Lemma dropLeading_first (s : string) : startsWith "-" (dropLeadingHyphens s) = false.
Proof.
  induction s as [|c rest IH]; [reflexivity|].
  cbn [dropLeadingHyphens]. destruct (isHyphen c) eqn:Hc; [exact IH|].
  now rewrite startsWith_hyphen.
Qed.

Lemma dropLeading_fixed (s : string) :
  startsWith "-" s = false -> dropLeadingHyphens s = s.
Proof.
  destruct s as [|c rest]; [reflexivity|].
  rewrite startsWith_hyphen. cbn [dropLeadingHyphens]. now intros ->.
Qed.

(** What [dropTrailingHyphens] keeps starts like the string itself. *)
Lemma dropTrailing_first (s : string) :
  startsWith "-" (dropTrailingHyphens s) = true -> startsWith "-" s = true.
Proof.
  destruct s as [|c rest]; [easy|].
  cbn [dropTrailingHyphens]. rewrite startsWith_hyphen.
  destruct (dropTrailingHyphens rest).
  - destruct (isHyphen c) eqn:Hc; [easy|]. now rewrite startsWith_hyphen, Hc.
  - now rewrite startsWith_hyphen.
Qed.

Lemma dropTrailing_no_run (s : string) :
  includes s "--" = false -> includes (dropTrailingHyphens s) "--" = false.
Proof.
  induction s as [|c rest IH]; [reflexivity|].
  rewrite includes_hyphens. intros [Hcd Hrest]%orb_false_iff.
  specialize (IH Hrest). cbn [dropTrailingHyphens].
  pose proof (dropTrailing_first rest) as Hfirst.
  destruct (dropTrailingHyphens rest) as [|d kept].
  - destruct (isHyphen c); [reflexivity|].
    rewrite includes_hyphens. now rewrite andb_false_r.
  - rewrite includes_hyphens, IH, orb_false_r.
    destruct (isHyphen c) eqn:Hc; [|reflexivity]. cbn [andb] in *.
    destruct (startsWith "-" (String d kept)) eqn:Hd; [|reflexivity].
    rewrite Hfirst in Hcd by reflexivity. discriminate.
Qed.

Lemma dropTrailing_last (s : string) : endsWithHyphen (dropTrailingHyphens s) = false.
Proof.
  induction s as [|c rest IH]; [reflexivity|].
  cbn [dropTrailingHyphens]. destruct (dropTrailingHyphens rest) as [|d kept].
  - destruct (isHyphen c) eqn:Hc; [reflexivity|]. cbn. exact Hc.
  - exact IH.
Qed.

Lemma dropTrailing_fixed (s : string) :
  endsWithHyphen s = false -> dropTrailingHyphens s = s.
Proof.
  induction s as [|c rest IH]; [reflexivity|].
  intros H. cbn [dropTrailingHyphens]. destruct rest as [|d rest'].
  - cbn in H. cbn. now rewrite H.
  - rewrite IH by exact H. reflexivity.
Qed.

Lemma tidy_spec (s : string) :
  tidy s = true <->
  truthy s = true /\ includes s "--" = false /\ startsWith "-" s = false /\
  endsWithHyphen s = false.
Proof.
  unfold tidy. rewrite !andb_true_iff, !negb_true_iff. tauto.
Qed.

(** A tidy name of safe characters is what the exporter leaves alone. *)
Lemma exporter_fixed (s : string) :
  tidy s = true -> safeName s = true -> Exporter.sanitizeFilename (JsString s) = s.
Proof.
  intros (Hs & Hrun & Hfirst & Hlast)%tidy_spec Hsafe.
  unfold Exporter.sanitizeFilename. rewrite Hs, removeAll_8bit.
  rewrite sanitize_safe_fixed by exact Hsafe.
  rewrite collapse_fixed, dropLeading_fixed, dropTrailing_fixed by assumption.
  now rewrite Hs.
Qed.

Lemma exporter_tidy (name : JsValue) :
  tidy (Exporter.sanitizeFilename name) = true /\
  safeName (Exporter.sanitizeFilename name) = true.
Proof.
  destruct name as [| |b|n|s]; try (split; reflexivity).
  unfold Exporter.sanitizeFilename.
  destruct (truthy s); [|split; reflexivity].
  rewrite removeAll_8bit.
  set (t := dropTrailingHyphens (dropLeadingHyphens (collapseHyphens (Crawl.sanitizeFilename s)))).
  destruct (truthy t) eqn:Ht; [|split; reflexivity].
  split.
  - apply tidy_spec. split_and!.
    + exact Ht.
    + apply dropTrailing_no_run, dropLeading_no_run, collapse_no_run.
    + destruct (startsWith "-" t) eqn:Hfirst; [|reflexivity].
      apply dropTrailing_first in Hfirst. now rewrite dropLeading_first in Hfirst.
    + apply dropTrailing_last.
  - apply allChars_dropTrailing, allChars_dropLeading, allChars_collapse,
      allChars_sanitize.
Qed.

(** X2. Whatever value it is given, the exporter's [sanitizeFilename]
    returns a usable file name: not empty, free of the ten unsafe
    characters, with no two hyphens in a row and no hyphen at either end. *)
Theorem exporter_sanitizeFilename_tidy (name : JsValue) :
  let file := Exporter.sanitizeFilename name in
  truthy file = true /\
  safeName file = true /\
  includes file "--" = false /\
  startsWith "-" file = false /\
  endsWithHyphen file = false.
Proof.
  cbn zeta. destruct (exporter_tidy name) as [Htidy Hsafe].
  apply tidy_spec in Htidy. tauto.
Qed.

(** X3. The exporter's [sanitizeFilename] is idempotent: a name it has
    produced passes through it unchanged. *)
Theorem exporter_sanitizeFilename_idempotent (name : JsValue) :
  Exporter.sanitizeFilename (JsString (Exporter.sanitizeFilename name))
  = Exporter.sanitizeFilename name.
Proof.
  destruct (exporter_tidy name) as [Htidy Hsafe]. now apply exporter_fixed.
Qed.

Lemma append_cancel_r (s1 s2 t : string) :
  (s1 ++ t)%string = (s2 ++ t)%string -> s1 = s2.
Proof.
  assert (Hlen : forall a b : string,
            String.length (a ++ b)%string = String.length a + String.length b).
  { intros a b. induction a as [|c a IH]; [reflexivity|].
    change (S (String.length (a ++ b)%string) = S (String.length a + String.length b)).
    now rewrite IH. }
  revert s2. induction s1 as [|c s1 IH]; intros [|d s2] H.
  - reflexivity.
  - apply (f_equal String.length) in H. rewrite !Hlen in H. cbn in H. lia.
  - apply (f_equal String.length) in H. rewrite !Hlen in H. cbn in H. lia.
  - change (String c (s1 ++ t)%string = String d (s2 ++ t)%string) in H.
    injection H as -> H. f_equal. now apply IH.
Qed.

(** X4. The file name that [processGroup] reports for a group is the one
    [writeExportFile] wrote exactly when the group name, with its unsafe
    characters replaced, is tidy: not empty, no two hyphens in a row, no
    hyphen at either end. For every other name the two differ. *)
Theorem reported_file_is_written_file (groupName : string) :
  reportedFileName groupName = exportFileName groupName <->
  tidy (Crawl.sanitizeFilename groupName) = true.
Proof.
  unfold reportedFileName, exportFileName. split.
  - intros H%append_cancel_r. rewrite H. apply exporter_tidy.
  - intros Htidy. f_equal.
    pose proof (exporter_fixed _ Htidy (allChars_sanitize groupName)) as Hfix.
    rewrite <- Hfix at 1.
    unfold Exporter.sanitizeFilename.
    destruct (tidy_spec (Crawl.sanitizeFilename groupName)) as [Hspec _].
    destruct (Hspec Htidy) as (Hs & _).
    assert (Hname : truthy groupName = true).
    { destruct groupName; [discriminate Hs|reflexivity]. }
    rewrite Hs, Hname, !removeAll_8bit.
    rewrite (sanitize_safe_fixed (Crawl.sanitizeFilename groupName))
      by apply allChars_sanitize.
    reflexivity.
Qed.

End FileNames.

(** ** Sender ids *)

Section SenderIdFacts.
Import MessageUtils Enrichment SenderIds.

Lemma afterDotStar_shape (s : string) :
  afterDotStar s = EmptyString \/ singleLine (afterDotStar s) = false.
Proof.
  induction s as [|c rest IH]; [now left|].
  cbn [afterDotStar]. destruct (isLineTerminator c) eqn:Hc; [|exact IH].
  right. cbn [singleLine]. now rewrite Hc.
Qed.

Lemma stripDomain_no_at (s : string) :
  singleLine (stripDomain s) = true -> noChar "@" (stripDomain s) = true.
Proof.
  induction s as [|c rest IH]; [reflexivity|].
  cbn [stripDomain]. destruct (Ascii.eqb c "@") eqn:Hc.
  - destruct (afterDotStar_shape rest) as [-> | Hrest]; [reflexivity|].
    intros H. congruence.
  - cbn [singleLine noChar]. intros [_ Hrest]%andb_true_iff.
    rewrite Hc. now apply IH.
Qed.

Lemma stripDomain_fixed (s : string) : noChar "@" s = true -> stripDomain s = s.
Proof.
  induction s as [|c rest IH]; [reflexivity|].
  cbn [noChar stripDomain]. intros [Hc Hrest]%andb_true_iff.
  apply negb_true_iff in Hc. rewrite Hc. now rewrite IH.
Qed.

Lemma stripDomain_idempotent (s : string) :
  singleLine (stripDomain s) = true -> stripDomain (stripDomain s) = stripDomain s.
Proof. intros H. apply stripDomain_fixed, stripDomain_no_at, H. Qed.

Lemma singleLine_stripDomain (s : string) :
  singleLine s = true -> singleLine (stripDomain s) = true.
Proof.
  intros H. rewrite stripDomain_singleLine by exact H.
  induction s as [|c rest IH]; [reflexivity|].
  cbn [singleLine] in H. apply andb_true_iff in H as [Hc Hrest].
  cbn [beforeAt]. destruct (Ascii.eqb c "@"); [reflexivity|].
  cbn [singleLine]. rewrite Hc. now apply IH.
Qed.

(** X5. For a message that carries no sender id of its own and whose id is
    well formed, [getReadableSenderId] returns the sender that
    [parseMessageId] reads from the id, provided that sender is not empty
    and holds no line break. *)
Theorem getReadableSenderId_from_message_id (msg : RawMessage)
  (chatId msgHashId senderId : string) :
  truthyOpt (senderObjectId msg) = false ->
  parseMessageId (JsString (msg_id msg)) = ValidId chatId msgHashId senderId ->
  truthy senderId = true ->
  singleLine senderId = true ->
  getReadableSenderId msg = senderId.
Proof.
  intros Hobject Hparsed Htruthy Hline.
  assert (Hid : truthy (msg_id msg) = true).
  { destruct (msg_id msg); [discriminate Hparsed|reflexivity]. }
  assert (Hstripped : exists raw, senderId = stripDomain raw).
  { unfold parseMessageId in Hparsed.
    destruct (split "_" (msg_id msg)) as [|? [|? [|? [|raw [|? ?]]]]];
      try discriminate Hparsed.
    injection Hparsed as _ _ <-. now exists raw. }
  destruct Hstripped as [raw ->].
  unfold getReadableSenderId, senderIdInMessageId.
  rewrite Hid, Hparsed.
  unfold orElse at 3. rewrite Hobject.
  unfold orElse at 2. cbn [truthyOpt]. rewrite Htruthy.
  unfold orElse. cbn [truthyOpt]. rewrite Htruthy.
  now apply stripDomain_idempotent.
Qed.

(** A message of page one: no sender object, a well-formed id. *)
Lemma getReadableSenderId_from_message_id_witness :
  getReadableSenderId
    (Crawl.textMessage "false_1@g.us_A1_972500000001@c.us" 100 "hello")
  = "972500000001".
Proof.
  apply (getReadableSenderId_from_message_id
           (Crawl.textMessage "false_1@g.us_A1_972500000001@c.us" 100 "hello")
           "1@g.us" "A1" "972500000001");
    reflexivity.
Defined.

(** X6. [stripLid] hands back anything that is not a string as it is. A
    string without a line break it cuts at the first [@]: the result has
    no [@] left, and stripping it again changes nothing. *)
Theorem stripLid_strips (id : JsValue) :
  (isString id = false -> stripLid id = id) /\
  (forall s, id = JsString s -> singleLine s = true ->
     stripLid id = JsString (beforeAt s) /\
     noChar "@" (beforeAt s) = true /\
     stripLid (stripLid id) = stripLid id).
Proof.
  split.
  - destruct id; try reflexivity. discriminate.
  - intros s -> Hline. cbn [stripLid].
    pose proof (singleLine_stripDomain s Hline) as Hstripped.
    rewrite <- (stripDomain_singleLine s Hline).
    split_and!.
    + reflexivity.
    + now apply stripDomain_no_at.
    + f_equal. now apply stripDomain_idempotent.
Qed.

End SenderIdFacts.

(** ** Senders, replies and reactions *)

Section SenderResolution.
Import Enrichment.
Variable common : Common.


Lemma find_none_forall {A : Type} (f : A -> bool) (l : list A) :
  Forall (fun y => f y = false) l -> List.find f l = None.
Proof.
  induction 1 as [|y l Hy _ IH]; [reflexivity|].
  cbn [List.find]. now rewrite Hy.
Qed.

Lemma memberOrUnknown_member (found : option Participant) (p : Participant) :
  memberOrUnknown found = Member p -> found = Some p.
Proof. destruct found; [intros [= ->]; reflexivity | discriminate]. Qed.

(** Where a candidate of [getPhoneNumber] and [getLid] comes from. *)
Lemma candidates_origin (msg : RawMessage) (value : string) :
  In value (candidates msg) ->
  msg_author msg = Some value \/
  msg_sender msg = Some (SenderString value) \/
  exists c, msg_sender msg = Some (SenderContact c) /\
            In (Some value) [c_id c; c_formattedName c; c_pushname c; c_name c].
Proof.
  unfold candidates. rewrite in_app_iff. intros [Hauthor | Hsender].
  - left. destruct (msg_author msg); cbn in Hauthor; [|tauto].
    destruct Hauthor as [-> | []]. reflexivity.
  - right. destruct (msg_sender msg) as [[s | c] |]; [| |destruct Hsender].
    + left. destruct (truthy s); [|destruct Hsender].
      destruct Hsender as [-> | []]. reflexivity.
    + right. exists c. split; [reflexivity|].
      assert (Hpush : forall o, In value (pushIfTruthy o) -> o = Some value).
      { intros [s|]; unfold pushIfTruthy; cbn; [|tauto].
        destruct (truthy s); cbn; [|tauto]. now intros [-> | []]. }
      rewrite !in_app_iff in Hsender. cbn [In].
      destruct Hsender as [H | [H | [H | H]]]; apply Hpush in H; rewrite H; tauto.
Qed.

(** A sender that is resolved is an entry of the roster. *)
Lemma resolveSender_on_roster (msg : RawMessage) (members : list Participant)
  (p : Participant) :
  resolveSender common msg members = Member p -> In p members.
Proof.
  assert (Hfound : forall found, memberOrUnknown found = Member p ->
                                 found = Some p).
  { exact (fun found => memberOrUnknown_member found p). }
  assert (Hlid : match getLid common msg with
                 | Some lid =>
                     if truthy lid then memberOrUnknown (findById members lid)
                     else UnknownMember
                 | None => UnknownMember
                 end = Member p -> In p members).
  { destruct (getLid common msg) as [lid|]; [|discriminate].
    destruct (truthy lid); [|discriminate].
    intros H%Hfound. now apply find_some in H. }
  unfold resolveSender. destruct (getPhoneNumber common msg) as [ph|]; [|exact Hlid].
  destruct (truthy ph); [|exact Hlid].
  intros H%Hfound. now apply find_some in H.
Qed.


(** X8. A phone number found in the message settles the matter: when no
    roster entry has that phone, the sender is ["Unknown Member"], also
    when a roster entry would match the message's linked id. *)
Theorem resolveSender_phone_settles (msg : RawMessage) (members : list Participant)
  (phone : string) :
  getPhoneNumber common msg = Some phone ->
  truthy phone = true ->
  Forall (fun p => part_phone p <> Some phone) members ->
  resolveSender common msg members = UnknownMember.
Proof.
  intros Hfound Hphone Hnone. unfold resolveSender. rewrite Hfound, Hphone.
  unfold findByPhone. rewrite find_none_forall; [reflexivity|].
  eapply Forall_impl; [|exact Hnone].
  intros p Hp. now apply bool_decide_eq_false.
Qed.

Lemma extractMessageBody_truthy (isMedia : bool) (body content : option string) :
  truthy (extractMessageBody isMedia body content) = true.
Proof.
  unfold extractMessageBody. destruct isMedia; [reflexivity|].
  unfold orElse.
  destruct body as [[|c b]|], content as [[|d t]|]; reflexivity.
Qed.

(** What a reply reference holds. *)
Lemma buildReplyTo_some (msg : RawMessage) (members : list Participant)
  (reply : ReplyReference) :
  buildReplyTo common msg members = Some reply ->
  truthy (ref reply) = true /\
  truthy (reply_body reply) = true /\
  (truthyOpt (msg_quotedStanzaID msg) = false -> ref reply = "unresolved reference") /\
  exists quoted,
    msg_quotedParticipant msg = Some quoted /\
    match reply_author reply with
    | AuthorRaw s => s = quoted
    | AuthorMember p =>
        In p members /\
        (isPhoneNumber common quoted = true /\
         part_phone p = Some (normalizePhoneNumber common quoted) \/
         isPhoneNumber common quoted = false /\ isLid common quoted = true /\
         part_id p = quoted)
    end.
Proof.
  unfold buildReplyTo.
  destruct (msg_quotedMsg msg) as [quotedMsg|]; [|discriminate].
  destruct (msg_quotedParticipant msg) as [quoted|]; [|discriminate].
  destruct (truthy quoted); [|discriminate].
  intros [= <-]. cbn [ref reply_body reply_author]. split_and!.
  - unfold orElse. now destruct (msg_quotedStanzaID msg) as [[|c s]|].
  - apply extractMessageBody_truthy.
  - unfold orElse. intros ->. reflexivity.
  - exists quoted. split; [reflexivity|].
    destruct (isPhoneNumber common quoted) eqn:Hphone.
    + destruct (findByPhone members (normalizePhoneNumber common quoted)) as [p|] eqn:Hp;
        [|reflexivity].
      apply find_some in Hp as [Hin Hp]. apply bool_decide_eq_true in Hp.
      split; [exact Hin|]. left. now split.
    + destruct (isLid common quoted) eqn:Hlid; [|reflexivity].
      destruct (findById members quoted) as [p|] eqn:Hp; [|reflexivity].
      apply find_some in Hp as [Hin Hp]. apply bool_decide_eq_true in Hp.
      split; [exact Hin|]. right. now split_and!.
Qed.

(** X9. [buildReplyTo] answers [null] exactly when the message quotes
    nothing or names no quoted participant. Otherwise the reference and
    the quoted body are never empty, and the author is the quoted token
    itself unless the roster has an entry with its normalised phone or,
    for a token that is not phone-shaped, with its linked id. *)
Theorem buildReplyTo_spec (msg : RawMessage) (members : list Participant) :
  (buildReplyTo common msg members = None <->
   msg_quotedMsg msg = None \/ truthyOpt (msg_quotedParticipant msg) = false) /\
  (forall reply, buildReplyTo common msg members = Some reply ->
     truthy (ref reply) = true /\
     truthy (reply_body reply) = true /\
     (truthyOpt (msg_quotedStanzaID msg) = false -> ref reply = "unresolved reference") /\
     exists quoted,
       msg_quotedParticipant msg = Some quoted /\
       match reply_author reply with
       | AuthorRaw s => s = quoted
       | AuthorMember p =>
           In p members /\
           (isPhoneNumber common quoted = true /\
            part_phone p = Some (normalizePhoneNumber common quoted) \/
            isPhoneNumber common quoted = false /\ isLid common quoted = true /\
            part_id p = quoted)
       end).
Proof.
  split; [|apply buildReplyTo_some].
  unfold buildReplyTo.
  destruct (msg_quotedMsg msg) as [quotedMsg|]; [|intuition].
  destruct (msg_quotedParticipant msg) as [quoted|]; cbn [truthyOpt]; [|intuition].
  destruct (truthy quoted); [|intuition].
  split; [discriminate|]. intros [H | H]; discriminate.
Qed.

Lemma reaction_summaries (rs : list Reaction) :
  let summaries :=
    map (fun reaction =>
           mkReactionSummary (aggregateEmoji reaction) (length (senders reaction))
             (map (fun s => stripDomain (senderUserJid s)) (senders reaction))) rs in
  map emoji summaries = map aggregateEmoji rs /\
  map count summaries = map (fun r => length (senders r)) rs /\
  Forall (fun s => count s = length (reactedBy s)) summaries.
Proof.
  cbn zeta. rewrite !List.map_map. cbn [emoji count]. split_and!; [reflexivity..|].
  apply List.Forall_forall. intros summary [r [<- _]]%List.in_map_iff.
  cbn [count reactedBy]. now rewrite List.length_map.
Qed.

(** X10. [formatReactionsForMessage] answers [null] exactly when the
    message has no reactions. Otherwise it gives one summary per reaction,
    in order, with the reaction's emoji, and with a count that is the
    number of names listed under [reactedBy]. *)
Theorem formatReactionsForMessage_spec (msg : RawMessage) :
  (formatReactionsForMessage msg = None <-> msg_reactions msg = []) /\
  (forall summaries, formatReactionsForMessage msg = Some summaries ->
     map emoji summaries = map aggregateEmoji (msg_reactions msg) /\
     map count summaries = map (fun r => length (senders r)) (msg_reactions msg) /\
     Forall (fun s => count s = length (reactedBy s)) summaries).
Proof.
  unfold formatReactionsForMessage. split.
  - destruct (msg_reactions msg); [tauto|]. split; discriminate.
  - intros summaries. destruct (msg_reactions msg) as [|r rs]; [discriminate|].
    intros [= <-]. apply (reaction_summaries (r :: rs)).
Qed.

(** One entry of the roster at a time: it is dropped, or kept with the
    fields of [filterParticipants]. *)
Lemma filterParticipants_cons (entry : option RawParticipant)
  (rest : list (option RawParticipant)) :
  (filterParticipants common (entry :: rest) = filterParticipants common rest /\
   (forall raw id, entry = Some raw -> raw_id raw = Some id -> truthy id = false)) \/
  (exists raw id,
     entry = Some raw /\ raw_id raw = Some id /\ truthy id = true /\
     filterParticipants common (entry :: rest) =
     mkParticipant id (raw_name raw) (raw_shortName raw) (raw_pushname raw)
       (match raw_formattedName raw with
        | Some f =>
            if isPhoneNumber common f then Some (normalizePhoneNumber common f) else None
        | None => None
        end) :: filterParticipants common rest).
Proof.
  unfold filterParticipants. cbn [omap list_omap].
  destruct entry as [raw|]; [|left; split; [reflexivity|discriminate]].
  destruct (raw_id raw) as [id|] eqn:Hid;
    [|left; split; [reflexivity|intros ? ? [= <-]; congruence]].
  destruct (truthy id) eqn:Hok.
  - right. exists raw, id. now split_and!.
  - left. split; [reflexivity|]. intros ? ? [= <-]. congruence.
Qed.

(** X11. [filterParticipants] keeps exactly the entries that exist and
    have a non-empty id, in their order and with their names; an entry gets
    a phone only from a phone-shaped [formattedName]. *)
Theorem filterParticipants_spec (participants : list (option RawParticipant)) :
  let roster := filterParticipants common participants in
  length roster <= length participants /\
  Forall (fun p => truthy (part_id p) = true) roster /\
  (forall p, In p roster ->
     exists raw,
       In (Some raw) participants /\ raw_id raw = Some (part_id p) /\
       part_name p = raw_name raw /\ part_shortName p = raw_shortName raw /\
       part_pushname p = raw_pushname raw /\
       (forall phone, part_phone p = Some phone ->
          exists formatted,
            raw_formattedName raw = Some formatted /\
            isPhoneNumber common formatted = true /\
            phone = normalizePhoneNumber common formatted)) /\
  (forall raw id,
     In (Some raw) participants -> raw_id raw = Some id -> truthy id = true ->
     exists p, In p roster /\ part_id p = id) /\
  sublist (map (fun p => Some (part_id p)) roster)
    (map (fun entry => entry ≫= raw_id) participants).
Proof.
  cbn zeta. induction participants as [|entry rest IH].
  - split_and!; try constructor; try (intros; contradiction).
  - destruct IH as (Hlen & Hids & Hsound & Hcomplete & Horder).
    destruct (filterParticipants_cons entry rest)
      as [[-> Hdropped] | (raw & id & -> & Hid & Hok & ->)].
    + split_and!.
      * cbn [length]. lia.
      * exact Hids.
      * intros p Hp. destruct (Hsound p Hp) as (raw & Hin & Hrest).
        exists raw. split; [now right|exact Hrest].
      * intros raw id [-> | Hin] Hid Hok; [|eauto].
        rewrite (Hdropped raw id eq_refl Hid) in Hok. discriminate.
      * cbn [map]. now apply sublist_cons.
    + split_and!.
      * cbn [length]. lia.
      * constructor; [exact Hok|exact Hids].
      * intros p [<- | Hp].
        -- exists raw. cbn. split_and!; try reflexivity; [now left|exact Hid|].
           intros phone. destruct (raw_formattedName raw) as [formatted|]; [|discriminate].
           destruct (isPhoneNumber common formatted) eqn:Hshape; [|discriminate].
           intros [= <-]. now exists formatted.
        -- destruct (Hsound p Hp) as (raw' & Hin & Hrest).
           exists raw'. split; [now right|exact Hrest].
      * intros raw' id' [[= <-] | Hin] Hid' Hok'.
        -- eexists. split; [now left|]. cbn. congruence.
        -- destruct (Hcomplete raw' id' Hin Hid' Hok') as (p & Hp & Hpid).
           exists p. split; [now right|exact Hpid].
      * cbn [map part_id mbind option_bind]. rewrite Hid. now apply sublist_skip.
Qed.

End SenderResolution.

Section SenderResolutionExamples.
Import Enrichment.


(** The author's phone is nobody's, the linked id of the sender object is
    Dana's: the sender stays unknown. *)
Lemma resolveSender_phone_settles_witness :
  getLid Samples.shapes (Samples.fromPhoneAndLid "+972500000000" "17@lid")
    = Some (part_id dana) /\
  resolveSender Samples.shapes (Samples.fromPhoneAndLid "+972500000000" "17@lid") [dana]
    = UnknownMember.
Proof.
  split; [reflexivity|].
  apply (resolveSender_phone_settles Samples.shapes
           (Samples.fromPhoneAndLid "+972500000000" "17@lid") [dana] "972500000000").
  - reflexivity.
  - reflexivity.
  - repeat constructor. discriminate.
Defined.

End SenderResolutionExamples.

(** ** What the pipeline exports *)

Section ExportedMessages.
Import Sorting Enrichment.
Variable common : Common.
Variable engine : Engine.
Hypothesis conforming : Conforming (arraySort engine).

Lemma mapFinalMetadata_fields (l : list Enriched) :
  forall index out,
    mapFinalMetadata engine index l = Returned out ->
    Forall (fun m => exists e,
              In e l /\ messageId m = e_id e /\ sender m = e_sender e /\
              body m = e_body e /\ replyTo m = e_replyTo e /\
              reactions m = e_reactions e) out.
Proof.
  induction l as [|e rest IH]; intros index out.
  - intros [= <-]. constructor.
  - cbn [mapFinalMetadata]. unfold addFinalMetadata.
    destruct (formatTimestamp engine (e_timestamp e)) as [datetime|]; [|discriminate].
    destruct (mapFinalMetadata engine (S index) rest) as [finals|] eqn:Hrest;
      [|discriminate].
    intros [= <-]. constructor.
    + exists e. cbn. split_and!; try reflexivity. now left.
    + eapply Forall_impl; [|exact (IH _ _ Hrest)].
      intros m (e' & Hin & Hfields). exists e'. split; [now right|exact Hfields].
Qed.

(** X12. Whatever [enrichMessages] returns, every exported message stems
    from an input message with a positive timestamp, its body is not
    empty, and every member object in it (as sender or as the author of
    the quoted message) is an entry of the roster that was passed in. *)
Theorem enrichMessages_exports (messages : list RawMessage)
  (members : list Participant) (out : list EnrichedMessage) :
  fst (enrichMessages common engine (mkArrays messages members)) = Returned out ->
  Forall (fun m =>
            truthy (body m) = true /\
            (forall p, sender m = Member p -> In p members) /\
            (forall reply, replyTo m = Some reply ->
               truthy (ref reply) = true /\ truthy (reply_body reply) = true /\
               forall p, reply_author reply = AuthorMember p -> In p members) /\
            exists msg,
              In msg messages /\ validRaw msg = true /\
              messageId m = e_id (enrichSingleMessage common msg members)) out.
Proof.
  unfold enrichMessages. cbn [fst messagesArray membersArray].
  intros Hout. apply mapFinalMetadata_fields in Hout.
  eapply Forall_impl; [|exact Hout]. clear Hout.
  intros m (e & Hin & Hid & Hsender & Hbody & Hreply & _).
  eapply Permutation_in in Hin;
    [|apply Permutation_sym, (sort_permutation _ conforming)].
  apply filter_In in Hin as [Hin Hvalid].
  apply in_map_iff in Hin as (msg & <- & Hmsg).
  eapply Permutation_in in Hmsg;
    [|apply Permutation_sym, (sort_permutation _ conforming)].
  split_and!.
  - rewrite Hbody. apply extractMessageBody_truthy.
  - intros p Hp. rewrite Hsender in Hp. cbn in Hp.
    now apply (resolveSender_on_roster common) in Hp.
  - intros reply Hr. rewrite Hreply in Hr. cbn [e_replyTo enrichSingleMessage] in Hr.
    destruct (buildReplyTo_some common msg members reply Hr)
      as (Href & Hquoted & _ & quoted & _ & Hauthor).
    split_and!; [exact Href|exact Hquoted|].
    intros p Hp. rewrite Hp in Hauthor. tauto.
  - exists msg. split_and!; [exact Hmsg|exact Hvalid|exact Hid].
Qed.

End ExportedMessages.

(** One message from Dana, exported with Dana's roster entry as sender. *)
Lemma enrichMessages_exports_witness :
  fst (Enrichment.enrichMessages Samples.shapes Enrichment.v8Engine
         (Enrichment.mkArrays [Samples.fromPhoneAndLid "+972501234567" "99@lid"]
            [Enrichment.dana]))
  = Returned [Enrichment.mkEnrichedMessage 1 "100000" "C1"
                (Enrichment.Member Enrichment.dana) "hello" None None] /\
  Forall (fun m => forall p, Enrichment.sender m = Enrichment.Member p ->
                             In p [Enrichment.dana])
    [Enrichment.mkEnrichedMessage 1 "100000" "C1" (Enrichment.Member Enrichment.dana)
       "hello" None None].
Proof.
  split; [reflexivity|].
  eapply Forall_impl;
    [|exact (enrichMessages_exports Samples.shapes Enrichment.v8Engine
               v8Sort_conforming [Samples.fromPhoneAndLid "+972501234567" "99@lid"]
               [Enrichment.dana] _ eq_refl)].
  intros m H. exact (proj1 (proj2 H)).
Defined.

(** ** Identity records and the info map *)

Section IdentityFacts.
Import Enrichment Participants Identities.
Variable common : Common.

(** X13. What [parseParticipant] returns. Nothing, [null], yields [{}], and
    so do the empty string and a group id. Any other string yields exactly
    one key: [phone] with the normal form of a phone-shaped string, else
    [id] with a lid-shaped string as it stands, else [unknown] with the
    string as it stands. An object yields no [unknown] token. Its [id] is
    there exactly when the entity's own [id] is non-empty and lid-shaped,
    and is that id. Its [name] is there exactly when [formattedName] is
    non-empty and not phone-shaped, and is that name. Its [phone] is the
    non-empty normal form of a phone-shaped [id], or, when the [id] is not
    phone-shaped, of a phone-shaped [formattedName], and is there whenever
    that normal form is not empty. *)
Theorem parseParticipant_shape (entity : option Sender) :
  let parsed := parseParticipant common entity in
  (entity = None -> parsed = emptyIdentity) /\
  (forall s, entity = Some (SenderString s) ->
     length (identityValues parsed) <= 1 /\
     (truthy s = false \/ includes s "@g.us" = true -> parsed = emptyIdentity) /\
     (truthy s = true -> includes s "@g.us" = false ->
        length (identityValues parsed) = 1 /\
        (isPhoneNumber common s = true ->
           parsed = mkIdentity None (Some (normalizePhoneNumber common s)) None None) /\
        (isPhoneNumber common s = false -> isLid common s = true ->
           parsed = mkIdentity (Some s) None None None) /\
        (isPhoneNumber common s = false -> isLid common s = false ->
           parsed = mkIdentity None None None (Some s))) /\
     (forall token, p_unknown parsed = Some token ->
        token = s /\ isPhoneNumber common s = false /\ isLid common s = false)) /\
  (forall c, entity = Some (SenderContact c) ->
     p_unknown parsed = None /\
     (forall id, p_id parsed = Some id <->
        c_id c = Some id /\ truthy id = true /\ isLid common id = true) /\
     (forall phone, p_phone parsed = Some phone ->
        truthy phone = true /\
        exists value,
          (c_id c = Some value \/ c_formattedName c = Some value) /\
          truthy value = true /\ isPhoneNumber common value = true /\
          phone = normalizePhoneNumber common value) /\
     (forall value,
        c_id c = Some value -> truthy value = true ->
        isPhoneNumber common value = true ->
        truthy (normalizePhoneNumber common value) = true ->
        p_phone parsed = Some (normalizePhoneNumber common value)) /\
     (forall value,
        (forall id, c_id c = Some id -> truthy id = true ->
                    isPhoneNumber common id = false) ->
        c_formattedName c = Some value -> truthy value = true ->
        isPhoneNumber common value = true ->
        truthy (normalizePhoneNumber common value) = true ->
        p_phone parsed = Some (normalizePhoneNumber common value)) /\
     (forall name, p_name parsed = Some name <->
        c_formattedName c = Some name /\ truthy name = true /\
        isPhoneNumber common name = false)).
Proof.
  cbn zeta. split_and!.
  - intros ->. reflexivity.
  - intros s ->. cbn [parseParticipant].
    destruct (truthy s) eqn:Hs; cbn [negb].
    2: { split_and!; [cbn; lia|reflexivity|discriminate|discriminate]. }
    destruct (includes s "@g.us") eqn:Hgroup.
    { split_and!; [cbn; lia|reflexivity|discriminate|discriminate]. }
    destruct (isPhoneNumber common s) eqn:Hphone.
    { split_and!; [cbn; lia|intros [|]; discriminate| |discriminate].
      intros _ _. split_and!; [reflexivity|reflexivity|discriminate|discriminate]. }
    destruct (isLid common s) eqn:Hlid.
    { split_and!; [cbn; lia|intros [|]; discriminate| |discriminate].
      intros _ _. split_and!; [reflexivity|discriminate|reflexivity|discriminate]. }
    split_and!; [cbn; lia|intros [|]; discriminate| |].
    + intros _ _. split_and!; [reflexivity|discriminate|discriminate|reflexivity].
    + intros token [= <-]. now split_and!.
  - intros c ->. cbn [parseParticipant p_unknown p_id p_phone p_name].
    assert (Horelse : forall o v, orElse o None = Some v <-> o = Some v /\ truthy v = true).
    { intros o v. unfold orElse. destruct o as [t|]; cbn [truthyOpt].
      - destruct (truthy t) eqn:Ht.
        + split; [intros [= <-]; now split|intros [[= <-] _]; reflexivity].
        + split; [discriminate|intros [[= <-] Hv]; congruence].
      - split; [discriminate|intros [[=] _]]. }
    split_and!.
    + reflexivity.
    + intros id. split.
      * destruct (isLidOrNull common (orElse (c_id c) None)) eqn:Hlid; [|discriminate].
        intros Hid. rewrite Hid in Hlid. destruct (proj1 (Horelse _ _) Hid) as [Hc Hok].
        now split_and!.
      * intros (Hc & Hok & Hlid).
        rewrite (proj2 (Horelse (c_id c) id) (conj Hc Hok)).
        cbn [isLidOrNull]. now rewrite Hlid.
    + intros phone.
      match goal with
      | |- (if truthyOpt ?ph then _ else _) = _ -> _ => destruct (truthyOpt ph) eqn:Hph
      end; [|discriminate].
      intros Hphone. rewrite Hphone in Hph. split; [exact Hph|].
      destruct (isPhoneNumberOrNull common (orElse (c_id c) None)) eqn:Hid.
      * destruct (orElse (c_id c) None) as [value|] eqn:Hvalue; [|discriminate].
        destruct (proj1 (Horelse _ _) Hvalue) as [Hc Hok].
        injection Hphone as <-. exists value. split_and!; auto.
      * destruct (isPhoneNumberOrNull common (orElse (c_formattedName c) None)) eqn:Hf;
          [|discriminate].
        destruct (orElse (c_formattedName c) None) as [value|] eqn:Hvalue; [|discriminate].
        destruct (proj1 (Horelse _ _) Hvalue) as [Hc Hok].
        injection Hphone as <-. exists value. split_and!; auto.
    + intros value Hc Hok Hshape Hnormal.
      rewrite (proj2 (Horelse (c_id c) value) (conj Hc Hok)).
      cbn [isPhoneNumberOrNull option_map]. rewrite Hshape.
      cbn [truthyOpt]. now rewrite Hnormal.
    + intros value Hid Hc Hok Hshape Hnormal.
      assert (Hnot : isPhoneNumberOrNull common (orElse (c_id c) None) = false).
      { destruct (orElse (c_id c) None) as [id|] eqn:Hvalue; [|reflexivity].
        destruct (proj1 (Horelse _ _) Hvalue) as [Hcid Hidok].
        cbn [isPhoneNumberOrNull]. now apply Hid. }
      rewrite Hnot, (proj2 (Horelse (c_formattedName c) value) (conj Hc Hok)).
      cbn [isPhoneNumberOrNull option_map]. rewrite Hshape.
      cbn [truthyOpt]. now rewrite Hnormal.
    + intros name. split.
      * destruct (orElse (c_formattedName c) None) as [value|] eqn:Hvalue.
        2: { cbn. discriminate. }
        destruct (proj1 (Horelse _ _) Hvalue) as [Hc Hok].
        cbn [isPhoneNumberOrNull truthyOpt]. rewrite Hok, andb_true_r.
        destruct (isPhoneNumber common value) eqn:Hshape; cbn [negb]; [discriminate|].
        cbn [truthyOpt]. rewrite Hok. intros [= <-]. now split_and!.
      * intros (Hc & Hok & Hshape).
        rewrite (proj2 (Horelse (c_formattedName c) name) (conj Hc Hok)).
        cbn [isPhoneNumberOrNull truthyOpt]. rewrite Hshape, Hok. cbn [negb andb truthyOpt].
        now rewrite Hok.
Qed.

Lemma localPhone_no_prefix (id : string) : startsWith "972" (localPhone id) = false.
Proof.
  unfold localPhone. destruct (startsWith "972" id) eqn:Hid; [reflexivity|exact Hid].
Qed.

(** One message never replaces an entry. *)
Lemma addSender_keeps (infoMap : gmap string Info) (msg : RawMessage) :
  infoMap ⊆ addSender common infoMap msg.
Proof.
  unfold addSender.
  destruct (Identities.parseMessageId (JsString (msg_id msg))) as [raw|]; [|reflexivity].
  destruct (truthy raw); [|reflexivity].
  destruct (infoMap !! stripDomain raw) eqn:Hlookup; [reflexivity|].
  now apply insert_subseteq.
Qed.

Lemma fold_addSender_keeps (messages : list RawMessage) (infoMap : gmap string Info) :
  infoMap ⊆ fold_left (addSender common) messages infoMap.
Proof.
  revert infoMap. induction messages as [|msg rest IH]; intros infoMap; [reflexivity|].
  cbn [fold_left]. etrans; [apply addSender_keeps|apply IH].
Qed.

(** X14. In [buildParticipantInfo] an entry, once made, stays: the roster
    entries are never replaced by what the message history says, and among
    the messages the first one to name a sender decides. Handing the
    function more messages only adds entries. *)
Theorem buildParticipantInfo_keeps_entries (participants : list Participant)
  (messages more : list RawMessage) :
  buildParticipantInfo common participants [] ⊆
    buildParticipantInfo common participants messages /\
  buildParticipantInfo common participants messages ⊆
    buildParticipantInfo common participants (messages ++ more).
Proof.
  unfold buildParticipantInfo. split.
  - cbn [fold_left]. apply fold_addSender_keeps.
  - rewrite fold_left_app. apply fold_addSender_keeps.
Qed.

Lemma addParticipant_lookup (infoMap : gmap string Info) (p : Participant) (id : string) :
  is_Some (addParticipant common infoMap p !! id) <->
  id = rosterKey p \/ is_Some (infoMap !! id).
Proof.
  unfold addParticipant, rosterKey. rewrite lookup_insert_is_Some'.
  split; intros [H | H]; auto.
Qed.

Lemma addSender_lookup (infoMap : gmap string Info) (msg : RawMessage) (id : string) :
  is_Some (addSender common infoMap msg !! id) <->
  senderKey msg = Some id \/ is_Some (infoMap !! id).
Proof.
  unfold addSender, senderKey.
  destruct (Identities.parseMessageId (JsString (msg_id msg))) as [raw|];
    [|split; [now right|intros [[=] | H]; exact H]].
  destruct (truthy raw); [|split; [now right|intros [[=] | H]; exact H]].
  destruct (infoMap !! stripDomain raw) as [known|] eqn:Hlookup.
  - split; [now right|]. intros [[= <-] | H]; [now rewrite Hlookup|exact H].
  - rewrite lookup_insert_is_Some'. split.
    + intros [<- | H]; [now left|now right].
    + intros [[= <-] | H]; [now left|now right].
Qed.

Lemma roster_lookup (participants : list Participant) (infoMap : gmap string Info)
  (id : string) :
  is_Some (fold_left (addParticipant common) participants infoMap !! id) <->
  In id (map rosterKey participants) \/ is_Some (infoMap !! id).
Proof.
  revert infoMap. induction participants as [|p rest IH]; intros infoMap.
  - cbn. tauto.
  - cbn [fold_left map In]. rewrite IH, addParticipant_lookup.
    split; [intros [H | [H | H]] | intros [[H | H] | H]]; auto.
Qed.

Lemma senders_lookup (messages : list RawMessage) (infoMap : gmap string Info)
  (id : string) :
  is_Some (fold_left (addSender common) messages infoMap !! id) <->
  In (Some id) (map senderKey messages) \/ is_Some (infoMap !! id).
Proof.
  revert infoMap. induction messages as [|msg rest IH]; intros infoMap.
  - cbn. tauto.
  - cbn [fold_left map In]. rewrite IH, addSender_lookup.
    split; [intros [H | [H | H]] | intros [[H | H] | H]]; auto.
Qed.

(** Every entry is filed with the phone that its key gives. *)
Lemma addParticipant_phone (infoMap : gmap string Info) (p : Participant) :
  (forall id info, infoMap !! id = Some info -> info_phone info = localPhone id) ->
  forall id info, addParticipant common infoMap p !! id = Some info ->
                  info_phone info = localPhone id.
Proof.
  intros Hfiled id info. unfold addParticipant.
  rewrite lookup_insert_Some. intros [[<- <-] | [_ H]]; [reflexivity|eauto].
Qed.

Lemma addSender_phone (infoMap : gmap string Info) (msg : RawMessage) :
  (forall id info, infoMap !! id = Some info -> info_phone info = localPhone id) ->
  forall id info, addSender common infoMap msg !! id = Some info ->
                  info_phone info = localPhone id.
Proof.
  intros Hfiled id info. unfold addSender.
  destruct (Identities.parseMessageId (JsString (msg_id msg))) as [raw|]; [|eauto].
  destruct (truthy raw); [|eauto].
  destruct (infoMap !! stripDomain raw); [eauto|].
  rewrite lookup_insert_Some. intros [[<- <-] | [_ H]]; [reflexivity|eauto].
Qed.

Lemma buildParticipantInfo_phone (participants : list Participant)
  (messages : list RawMessage) :
  forall id info,
    buildParticipantInfo common participants messages !! id = Some info ->
    info_phone info = localPhone id.
Proof.
  unfold buildParticipantInfo.
  assert (Hroster : forall ps infoMap,
            (forall id info, infoMap !! id = Some info -> info_phone info = localPhone id) ->
            forall id info,
              fold_left (addParticipant common) ps infoMap !! id = Some info ->
              info_phone info = localPhone id).
  { induction ps as [|p rest IH]; intros infoMap Hfiled; [exact Hfiled|].
    cbn [fold_left]. apply IH. now apply addParticipant_phone. }
  assert (Hsenders : forall ms infoMap,
            (forall id info, infoMap !! id = Some info -> info_phone info = localPhone id) ->
            forall id info,
              fold_left (addSender common) ms infoMap !! id = Some info ->
              info_phone info = localPhone id).
  { induction ms as [|msg rest IH]; intros infoMap Hfiled; [exact Hfiled|].
    cbn [fold_left]. apply IH. now apply addSender_phone. }
  apply Hsenders, Hroster. intros id info. rewrite lookup_empty. discriminate.
Qed.

(** X15. The keys of the map that [buildParticipantInfo] returns are the
    roster ids and the sender ids read from well-formed message ids, each
    cut at its first [@]. Every entry holds the phone computed from its
    key, and no phone in the map starts with [972]. *)
Theorem buildParticipantInfo_entries (participants : list Participant)
  (messages : list RawMessage) (id : string) :
  (is_Some (buildParticipantInfo common participants messages !! id) <->
   In id (map rosterKey participants) \/ In (Some id) (map senderKey messages)) /\
  (forall info,
     buildParticipantInfo common participants messages !! id = Some info ->
     info_phone info = localPhone id /\ startsWith "972" (info_phone info) = false).
Proof.
  split.
  - unfold buildParticipantInfo. rewrite senders_lookup, roster_lookup.
    rewrite lookup_empty. split.
    + intros [H | [H | [? [=]]]]; auto.
    + intros [H | H]; auto.
  - intros info Hinfo.
    rewrite (buildParticipantInfo_phone participants messages id info Hinfo).
    split; [reflexivity|apply localPhone_no_prefix].
Qed.

End IdentityFacts.

(** ** Group discovery *)

Section GroupDiscovery.
Import Sorting Enrichment Crawl.
Context {Ext : Type}.
Variable common : Common.
Variable engine : Engine.
Hypothesis conforming : Conforming (arraySort engine).
Variable client : Client Ext.

(** A failed member fetch is absorbed: the count always comes back. *)
Lemma memberCount_returns (group : RawGroup) (w : World Ext) :
  exists count w', memberCount client group w = (Returned count, w').
Proof.
  unfold memberCount, tryCatch, bind.
  destruct (retryOnDetachedFrame (call (getGroupMembers client (group_id group))) 2 1000 w)
    as [[members | error] w1]; cbn; eauto.
Qed.

Lemma formatGroups_returns (groups : list RawGroup) :
  forall formattedGroups w,
  exists formatted w',
    formatGroups common client groups formattedGroups w
      = (Returned (formattedGroups ++ formatted), w') /\
    map id formatted = map group_id groups /\
    map originalName formatted = map group_name groups /\
    Forall (fun g => isGroupChat g = true) formatted.
Proof.
  induction groups as [|group rest IH]; intros formattedGroups w.
  - exists [], w. rewrite app_nil_r. now split_and!.
  - cbn [formatGroups]. unfold bind at 1.
    destruct (memberCount_returns group w) as (count & w1 & ->).
    unfold bind at 1.
    set (pause := match rest with [] => ret tt | _ :: _ => setTimeout 100 end).
    assert (Hpause : exists w2, pause w1 = (Returned tt, w2)).
    { subst pause. destruct rest; cbn; eauto. }
    destruct Hpause as (w2 & ->).
    match goal with
    | |- context [formatGroups common client rest (formattedGroups ++ [?g]) w2] =>
        destruct (IH (formattedGroups ++ [g]) w2)
          as (formatted & w' & -> & Hids & Hnames & Hflags);
        exists (g :: formatted), w'
    end.
    rewrite <- app_assoc. cbn [app map id originalName formatGroup].
    split_and!; [reflexivity|now f_equal|now f_equal|].
    constructor; [reflexivity|exact Hflags].
Qed.

Lemma descending_by_count (l : list Group) :
  StronglySorted (fun a b => participantCount b <= participantCount a)
    (stableSort byParticipantCount l).
Proof.
  set (key := fun g : Group => (- Z.of_nat (participantCount g))%Z).
  assert (Hsame : stableSort byParticipantCount l = stableSort (byKey key) l).
  { apply stableSort_agree. intros a b _ _. unfold order, byParticipantCount, byKey, key.
    lia. }
  rewrite Hsame. pose proof (stableSort_ascending key l) as Hsorted.
  unfold ascending in Hsorted. clear Hsame.
  induction Hsorted as [|g rest Hrest IH Hhead]; constructor; [exact IH|].
  eapply Forall_impl; [|exact Hhead]. intros b Hb. unfold key in Hb. lia.
Qed.

(** X16. Once the remote has listed the groups, [getGroups] returns: a
    member list that cannot be fetched never fails the discovery. The
    result has one entry per listed group, under the group's own id and
    name, and is ordered by member count, largest first. *)
Theorem getGroups_lists_every_group (groups : list RawGroup) (w w1 : World Ext) :
  retryOnDetachedFrame (call (getAllGroups client)) 3 2000 w
    = (Returned (Some groups), w1) ->
  exists listed w',
    getGroups common engine client w = (Returned listed, w') /\
    Permutation (map (fun g => (id g, originalName g)) listed)
                (map (fun group => (group_id group, group_name group)) groups) /\
    Forall (fun g => isGroupChat g = true) listed /\
    StronglySorted (fun a b => participantCount b <= participantCount a) listed.
Proof.
  intros Hlisting. unfold getGroups, bind at 1. rewrite Hlisting.
  destruct groups as [|group rest].
  { exists [], w1. split_and!; [reflexivity|constructor..]. }
  destruct (formatGroups_returns (group :: rest) [] w1)
    as (formatted & w' & Hformat & Hids & Hnames & Hflags).
  unfold bind. rewrite Hformat. cbn [app].
  exists (arraySort engine Group byParticipantCount formatted), w'.
  pose proof (sort_permutation _ conforming Group byParticipantCount formatted) as Hperm.
  assert (Hstable : arraySort engine Group byParticipantCount formatted
                    = stableSort byParticipantCount formatted).
  { apply (sort_stable _ conforming) with
      (key := fun g : Group => (- Z.of_nat (participantCount g))%Z).
    intros a b _ _. unfold byParticipantCount. f_equal. lia. }
  split_and!.
  - reflexivity.
  - etrans; [apply Permutation_map, Permutation_sym, Hperm|].
    assert (Hpairs : map (fun g => (id g, originalName g)) formatted
                     = map (fun raw => (group_id raw, group_name raw)) (group :: rest)).
    { clear -Hids Hnames. revert Hids Hnames. generalize (group :: rest).
      induction formatted as [|g gs IH]; intros [|raw raws]; cbn; try discriminate;
        [reflexivity|].
      intros [= Hid Hids] [= Hname Hnames]. rewrite Hid, Hname. f_equal. now apply IH. }
    now rewrite Hpairs.
  - eapply Permutation_Forall; [exact Hperm|exact Hflags].
  - rewrite Hstable. apply descending_by_count.
Qed.

End GroupDiscovery.

(** Two groups whose member lists cannot be fetched: both are listed, by
    the counts of their own metadata, 5 before 2. *)
Lemma getGroups_lists_every_group_witness :
  exists listed w',
    Crawl.getGroups Crawl.sampleCommon Crawl.sampleEngine Samples.listingClient
      (Crawl.freshWorld tt) = (Returned listed, w') /\
    map Crawl.participantCount listed = [5; 2].
Proof.
  destruct (getGroups_lists_every_group Crawl.sampleCommon Crawl.sampleEngine
              v8Sort_conforming Samples.listingClient Samples.twoGroups
              (Crawl.freshWorld tt) (Crawl.mkWorld tt 1 []) eq_refl)
    as (listed & w' & Hrun & _).
  exists listed, w'. split; [exact Hrun|].
  vm_compute in Hrun. injection Hrun as <- _. reflexivity.
Defined.

Section SilentDiscovery.
Import Enrichment Crawl.
Context {Ext : Type}.
Variable common : Common.
Variable engine : Engine.
Variable client : Client Ext.

Lemma bind_same_start {A B : Type} (m : M Ext A) (k k' : A -> M Ext B) (w : World Ext) :
  (forall v w', k v w' = k' v w') -> bind m k w = bind m k' w.
Proof. intros Hk. unfold bind. destruct (m w) as [[v | e] w']; [apply Hk|reflexivity]. Qed.

Lemma bind_same_rest {A B : Type} (m m' : M Ext A) (k : A -> M Ext B) (w : World Ext) :
  m w = m' w -> bind m k w = bind m' k w.
Proof. intros Hm. unfold bind. now rewrite Hm. Qed.

Lemma formatGroupsReporting_silent (total : nat) (groups : list RawGroup) :
  forall i formattedGroups w,
    formatGroupsReporting common client None total groups i formattedGroups w
    = formatGroups common client groups formattedGroups w.
Proof.
  induction groups as [|group rest IH]; intros i formattedGroups w; [reflexivity|].
  cbn [formatGroupsReporting formatGroups reportGroup]. unfold bind. cbn [ret].
  destruct (memberCount client group w) as [[count | error] w1]; [|reflexivity].
  destruct rest as [|next rest]; [reflexivity|].
  destruct (setTimeout 100 w1) as [[[] | error] w2]; [|reflexivity].
  exact (IH _ _ _).
Qed.

(** With no callback, [getGroupsReporting] is [getGroups]. *)
Lemma getGroupsReporting_silent (w : World Ext) :
  getGroupsReporting common engine client None w = getGroups common engine client w.
Proof.
  unfold getGroupsReporting, getGroups. apply bind_same_start.
  intros [[|group rest]|] w1; try reflexivity.
  apply bind_same_rest, formatGroupsReporting_silent.
Qed.

End SilentDiscovery.

(** ** The readiness check *)

Section Readiness.
Import Enrichment Crawl.
Context {Ext : Type}.
Variable client : Client Ext.
Variable chatId : string.

Lemma waitLoop_outcome (startTime timeout : Z) (fuel : nat) :
  forall w outcome w',
    (startTime <= clock w)%Z ->
    waitLoop fuel client chatId startTime timeout w = Some (outcome, w') ->
    (clock w <= clock w')%Z /\
    (outcome = Returned true \/
     outcome = Thrown (newError ("Chat " ++ chatId ++ " not ready after " ++
                                 pretty timeout ++ "ms")) /\
     (timeout <= clock w' - startTime)%Z).
Proof.
  induction fuel as [|fuel IH]; intros w outcome w' Hstart; cbn [waitLoop].
  - destruct (clock w - startTime <? timeout)%Z eqn:Htime; [discriminate|].
    intros [= <- <-]. split; [lia|]. right. split; [reflexivity|lia].
  - destruct (clock w - startTime <? timeout)%Z eqn:Htime.
    + pose proof (retryLoop_advancing (chatProbe client chatId) 3 3 1 1000
                    (chatProbe_advancing client chatId) w) as Hprobe.
      fold (retryOnDetachedFrame (chatProbe client chatId) 3 1000) in Hprobe.
      destruct (retryOnDetachedFrame (chatProbe client chatId) 3 1000 w)
        as [[chat | error] w1]; cbn [snd] in Hprobe.
      * intros [= <- <-]. split; [exact Hprobe|now left].
      * intros Hrest.
        pose proof (setTimeout_advancing (Ext := Ext) 1000 w1) as Hwait.
        apply IH in Hrest; [|lia]. split; [lia|tauto].
    + intros [= <- <-]. split; [lia|]. right. split; [reflexivity|lia].
Qed.

(** X17. [waitForChatReady] ends in one of two ways: it returns [true], or
    it throws its own error, which names the chat and the timeout, never
    the error of a failed probe. It gives up only once the timeout has
    passed on the clock, and with a timeout of zero or less it gives up at
    once, without asking the remote. *)
Theorem waitForChatReady_outcomes (timeout : Z) (w : World Ext) :
  let outcome := fst (waitForChatReady client chatId timeout w) in
  let w' := snd (waitForChatReady client chatId timeout w) in
  let gaveUp :=
    Thrown (newError ("Chat " ++ chatId ++ " not ready after " ++
                      pretty timeout ++ "ms")) in
  (clock w <= clock w')%Z /\
  (outcome = Returned true \/
   outcome = gaveUp /\ (timeout <= clock w' - clock w)%Z) /\
  ((timeout <= 0)%Z -> outcome = gaveUp /\ w' = w).
Proof.
  cbn zeta. destruct (waitLoop_terminates client chatId timeout w) as ([outcome w'] & Hloop & ->).
  cbn [fst snd]. split_and!.
  - eapply waitLoop_outcome; [|exact Hloop]. lia.
  - eapply waitLoop_outcome; [|exact Hloop]. lia.
  - intros Htimeout. cbn [waitLoop] in Hloop.
    replace (clock w - clock w <? timeout)%Z with false in Hloop
      by (symmetry; apply Z.ltb_ge; lia).
    injection Hloop as <- <-. now split.
Qed.

End Readiness.

(** ** The retry envelope as a whole *)

Section RetryRuns.
Import Enrichment Crawl.
Context {Ext A : Type}.
Variable operation : M Ext A.
Variable maxRetries : nat.

(** The outcome of the envelope when attempt [k + 1] was the last. *)
Lemma retryLoop_runs (remaining : nat) :
  forall attempt delay w,
    attempt + remaining = S maxRetries ->
    0 < remaining ->
    exists k,
      k < remaining /\
      transientFailures operation delay k w /\
      let last := operation (worldAtAttempt operation delay k w) in
      retryLoop operation maxRetries remaining attempt delay w =
      (match fst last with
       | Returned v => Returned (Some v)
       | Thrown error => Thrown error
       end, snd last) /\
      (forall error, fst last = Thrown error ->
         isDetachedFrame error = false \/ attempt + k = maxRetries).
Proof.
  induction remaining as [|remaining IH]; intros attempt delay w Hsum Hpos; [lia|].
  cbn [retryLoop]. unfold tryCatch, bind at 1.
  destruct (operation w) as [[v | error] w1] eqn:Hfirst.
  - exists 0. cbn [worldAtAttempt transientFailures]. rewrite Hfirst. cbn.
    split; [|split; [|split]]; [lia|exact I|reflexivity|discriminate].
  - destruct (isDetachedFrame error && (attempt <? maxRetries)%nat) eqn:Hretry.
    + apply andb_true_iff in Hretry as [Htransient Hmore].
      apply Nat.ltb_lt in Hmore.
      unfold bind at 1. cbn [setTimeout].
      destruct (IH (attempt + 1) (delay * (3 # 2))%Q
                  (mkWorld (outside w1) (clock w1 + timerDuration delay) (delay :: timers w1)))
        as (k & Hk & Hfailures & Hrun & Hlast); [lia|lia|].
      exists (S k). cbn [worldAtAttempt transientFailures]. rewrite Hfirst.
      cbn [fst snd setTimeout]. split; [|split; [|split]].
      * lia.
      * split; [now exists error|exact Hfailures].
      * exact Hrun.
      * intros error' Herror. destruct (Hlast error' Herror) as [H | H]; [now left|].
        right. lia.
    + exists 0. cbn [worldAtAttempt transientFailures]. rewrite Hfirst. cbn [fst snd].
      split; [|split; [|split]]; [lia|exact I|reflexivity|].
      intros error' [= <-]. apply andb_false_iff in Hretry as [H | H]; [now left|].
      right. apply Nat.ltb_ge in H. lia.
Qed.

(** X18. Every run of [retryOnDetachedFrame] with a positive [maxRetries]
    is of one form: some number of attempts below [maxRetries] fail with a
    transient error, each followed by its wait, and the next attempt
    decides: its value is returned, its error is thrown. The envelope makes
    at most [maxRetries] attempts and throws only an error that is not
    transient or that the last permitted attempt threw. With [maxRetries]
    zero the operation never runs and the result is [undefined]. *)
Theorem retryOnDetachedFrame_runs (delay : Q) (w : World Ext) :
  (maxRetries = 0 ->
   retryOnDetachedFrame operation maxRetries delay w = (Returned None, w)) /\
  (0 < maxRetries ->
   exists k,
     k < maxRetries /\
     transientFailures operation delay k w /\
     let last := operation (worldAtAttempt operation delay k w) in
     retryOnDetachedFrame operation maxRetries delay w =
     (match fst last with
      | Returned v => Returned (Some v)
      | Thrown error => Thrown error
      end, snd last) /\
     (forall error, fst last = Thrown error ->
        isDetachedFrame error = false \/ S k = maxRetries)).
Proof.
  split.
  - intros ->. reflexivity.
  - intros Hpos. unfold retryOnDetachedFrame.
    destruct (retryLoop_runs maxRetries 1 delay w) as (k & Hk & Hfailures & Hrun & Hlast);
      [lia|exact Hpos|].
    exists k. split; [|split; [|split]]; assumption.
Qed.

End RetryRuns.

(** ** Message ids are loaded once *)

Section UniqueIds.
Import Enrichment Crawl.
Context {Ext : Type}.
Variable client : Client Ext.
Variable chatId : string.
Variable maxCount : nat.

Lemma addUnseen_unique (page : list RawMessage) :
  forall all seen added all' seen' added',
    NoDup (map msg_id all) ->
    (forall msg, In msg all -> msg_id msg ∈ seen) ->
    addUnseen page all seen added = (all', seen', added') ->
    NoDup (map msg_id all') /\
    (forall msg, In msg all' -> msg_id msg ∈ seen') /\
    (forall msg, In msg all' -> In msg all \/ In msg page).
Proof.
  induction page as [|msg rest IH]; intros all seen added all' seen' added' Hunique Hseen.
  - intros [= <- <- <-]. split_and!; auto.
  - cbn [addUnseen]. destruct (decide (msg_id msg ∈ seen)) as [Hin | Hnew].
    + intros Hrest. destruct (IH _ _ _ _ _ _ Hunique Hseen Hrest) as (H1 & H2 & H3).
      split_and!; [exact H1|exact H2|].
      intros m Hm. destruct (H3 m Hm); [now left|right; now right].
    + intros Hrest. eapply IH in Hrest.
      * destruct Hrest as (H1 & H2 & H3). split_and!; [exact H1|exact H2|].
        intros m Hm. destruct (H3 m Hm) as [H | H]; [|right; now right].
        apply in_app_iff in H as [H | [<- | []]]; [now left|right; now left].
      * rewrite map_app. cbn [map]. apply NoDup_app.
        -- exact Hunique.
        -- constructor; [intros []|constructor].
        -- intros i Hi [<- | []].
           apply in_map_iff in Hi as (m & Hid & Hm).
           apply Hnew. rewrite <- Hid. now apply Hseen.
      * intros m [Hm | [<- | []]]%in_app_iff.
        -- apply elem_of_union. right. now apply Hseen.
        -- apply elem_of_union. left. now apply elem_of_singleton.
Qed.

Lemma loadLoop_unique (fuel : nat) :
  forall all seen w res w',
    NoDup (map msg_id all) ->
    (forall msg, In msg all -> msg_id msg ∈ seen) ->
    loadLoop fuel client chatId maxCount all seen w = Some (Returned res, w') ->
    NoDup (map msg_id res).
Proof.
  induction fuel as [|fuel IH]; intros all seen w res w' Hunique Hseen; cbn [loadLoop].
  - destruct (length all <? maxCount)%nat; [discriminate|]. now intros [= <- <-].
  - destruct (length all <? maxCount)%nat; [|now intros [= <- <-]].
    destruct (fetchPage client chatId w) as [[[page|] | error] w1].
    + destruct page as [|msg page]; [now intros [= <- <-]|].
      destruct (addUnseen (msg :: page) all seen 0) as [[all' seen'] added] eqn:Hadd.
      destruct (addUnseen_unique _ _ _ _ _ _ _ Hunique Hseen Hadd) as (H1 & H2 & _).
      destruct (added =? 0)%nat; [now intros [= <- <-]|].
      now apply IH.
    + now intros [= <- <-].
    + destruct (0 <? length all)%nat; [now intros [= <- <-]|discriminate].
Qed.

(** X19. The messages that [loadAllMessages] returns have pairwise
    different ids, however often the remote repeats a message within a
    page or across pages. *)
Theorem loadAllMessages_unique_ids (w : World Ext) (messages : list RawMessage)
  (w' : World Ext) :
  loadAllMessages client chatId maxCount w = (Returned messages, w') ->
  NoDup (map msg_id messages).
Proof.
  intros Hrun. destruct (loadAllMessages_runs_loop client chatId maxCount w)
    as (r & Hloop & Hsame).
  rewrite Hrun in Hsame. subst r.
  eapply loadLoop_unique; [| |exact Hloop].
  - constructor.
  - intros msg [].
Qed.

End UniqueIds.

(** The remote sends page one twice within one page, then page two, then
    page one again: four messages are loaded, each once. *)
Lemma loadAllMessages_unique_ids_witness :
  map Enrichment.msg_id Crawl.pageOne
    = ["false_1@g.us_A1_972500000001@c.us"; "false_1@g.us_A2_972500000002@c.us";
       "false_1@g.us_A3_972500000001@c.us"] /\
  NoDup (map Enrichment.msg_id (Crawl.pageOne ++ Crawl.pageTwo)).
Proof.
  split; [reflexivity|].
  apply (loadAllMessages_unique_ids Crawl.scriptedClient "1@g.us" 5000
           (Crawl.freshWorld
              [Returned (Crawl.pageOne ++ Crawl.pageOne); Returned Crawl.pageTwo;
               Returned Crawl.pageOne])
           (Crawl.pageOne ++ Crawl.pageTwo)
           (Crawl.mkWorld [] 1004 [500%Q; 500%Q])).
  vm_compute. reflexivity.
Defined.

(** ** One group, and the run over all groups *)

Section GroupRun.
Import Sorting Enrichment Crawl.
Context {Ext : Type}.
Variable common : Common.
Variable engine : Engine.
Variable host : Host Ext.
Hypothesis conforming : Conforming (arraySort engine).
Variable client : Client Ext.

Lemma mapFinalMetadata_length (l : list Enriched) :
  forall index out,
    mapFinalMetadata engine index l = Returned out -> length out = length l.
Proof.
  induction l as [|e rest IH]; intros index out.
  - now intros [= <-].
  - cbn [mapFinalMetadata].
    destruct (addFinalMetadata engine e index); [|discriminate].
    destruct (mapFinalMetadata engine (S index) rest) eqn:Hrest; [|discriminate].
    intros [= <-]. cbn [length]. f_equal. now apply (IH (S index)).
Qed.

(** The export holds one message per input message with a positive
    timestamp. *)
Lemma enrichMessages_length (messages : list RawMessage) (members : list Participant)
  (out : list EnrichedMessage) :
  fst (enrichMessages common engine (mkArrays messages members)) = Returned out ->
  length out = length (List.filter validRaw messages).
Proof.
  unfold enrichMessages. cbn [fst messagesArray membersArray]. intros Hout.
  apply mapFinalMetadata_length in Hout. rewrite Hout.
  rewrite <- (Permutation_length (sort_permutation _ conforming _ _ _)).
  rewrite filter_valid_map, length_map.
  apply Permutation_length, filter_permutation, Permutation_sym,
    (sort_permutation _ conforming).
Qed.

(** X20. What a returning [processGroup] has done. It answers [null]
    exactly when the chat gave no messages, and then nothing happened
    after the loading. Otherwise the result carries the group's name, the
    number of loaded messages with a positive timestamp as its message
    count, and the export path under the Downloads folder. *)
Theorem processGroup_result (group : Group) (w : World Ext)
  (result : option GroupResult) (w' : World Ext) :
  processGroup common engine host client group w = (Returned result, w') ->
  exists messages w1,
    loadAllMessages client (id group) 5000 w = (Returned messages, w1) /\
    match result with
    | None => messages = [] /\ w' = w1
    | Some r =>
        messages <> [] /\
        groupName r = name group /\
        messageCount r = length (List.filter validRaw messages) /\
        messageCount r <= length messages /\
        exportPath r =
          pathJoin host
            (pathJoin host (pathJoin host (homedir host) "Downloads")
               "WhatsApp Data Collection")
            (sanitizeFilename (name group) ++ ".json")%string
    end.
Proof.
  unfold processGroup. unfold bind at 1.
  destruct (loadAllMessages client (id group) 5000 w) as [[messages | error] w1];
    [|discriminate].
  intros Hrun. exists messages, w1. split; [reflexivity|].
  destruct messages as [|msg rest].
  { cbn in Hrun. injection Hrun as <- <-. now split. }
  cbn [length Nat.eqb] in Hrun.
  set (messages := msg :: rest) in *.
  unfold bind at 1 in Hrun.
  destruct (retryOnDetachedFrame (call (getGroupMembers client (id group))) 3 1000 w1)
    as [[rawParticipants | error] w2]; [|discriminate].
  unfold bind at 1, enrich at 1 in Hrun. cbn beta in Hrun.
  destruct (fst (enrichMessages common engine
                   (mkArrays messages
                      (filterParticipants common
                         match rawParticipants with Some ps => ps | None => [] end))))
    as [enriched | error] eqn:Henriched; [|discriminate].
  apply enrichMessages_length in Henriched.
  unfold bind at 1 in Hrun.
  destruct (call (analyzeMessageWordCounts host enriched) w2) as [[[] | error] w3];
    [|discriminate].
  unfold bind at 1, isoNow at 1 in Hrun. cbn beta in Hrun.
  unfold bind at 1, exists_ at 1 in Hrun. cbn beta in Hrun.
  unfold bind at 1 in Hrun.
  match type of Hrun with
  | context [(if ?present then ret tt else ?create) w3] =>
      destruct ((if present then ret tt else create) w3) as [[[] | error] w4];
        [|discriminate]
  end.
  unfold bind at 1 in Hrun.
  match type of Hrun with
  | context [call ?write w4] =>
      destruct (call write w4) as [[[] | error] w5]; [|discriminate]
  end.
  cbn [ret] in Hrun. injection Hrun as <- <-.
  cbn [groupName messageCount exportPath]. split_and!.
  - discriminate.
  - reflexivity.
  - exact Henriched.
  - rewrite Henriched. apply filter_length_le.
  - reflexivity.
Qed.

End GroupRun.

(** Four loaded messages, one of them without a timestamp: the message
    count is 3. *)
Lemma processGroup_result_witness :
  exists messages w1,
    Crawl.loadAllMessages Crawl.scriptedClient "A@g.us" 5000
      (Crawl.freshWorld [Returned Samples.mixedPage]) = (Returned messages, w1) /\
    messages <> [] /\
    3 = length (List.filter Enrichment.validRaw messages) /\
    3 <= length messages.
Proof.
  destruct (processGroup_result Crawl.sampleCommon Crawl.sampleEngine Crawl.quietHost
              v8Sort_conforming Crawl.scriptedClient Crawl.groupA
              (Crawl.freshWorld [Returned Samples.mixedPage])
              (Some (Crawl.mkGroupResult "Group A" 3 0
                       "/home/user/Downloads/WhatsApp Data Collection/Group A.json"))
              (Crawl.mkWorld [] 506 [500%Q])
              ltac:(vm_compute; reflexivity))
    as (messages & w1 & Hload & Hsome & _ & Hcount & Hle & _).
  exists messages, w1. now split_and!.
Defined.

Section WholeRun.
Import Enrichment Crawl.
Context {Ext : Type}.
Variable listGroups : M Ext (list Group).
Variable process : Group -> ProgressCallback Ext -> M Ext (option GroupResult).
Variable selectedGroupIds : list string.
Variable progressCallback : option (ProgressCallback Ext).

(** Inside the loop only the report before a group can throw: what a group
    throws, the reports made on its behalf included, becomes its entry. *)
Lemma crawlGroupsReporting_outcome (count : nat) (groups : list Group) :
  forall i results w,
    match crawlGroupsReporting process progressCallback count groups i results w with
    | (Returned results', w') => length results' <= length results + length groups
    | (Thrown error, w') =>
        exists callback j group w1,
          progressCallback = Some callback /\
          nth_error groups j = Some group /\
          callback ("Processing " ++ position (i + j) count ++ ": " ++ name group)%string
            (i + j) count w1 = (Thrown error, w')
    end.
Proof.
  induction groups as [|group rest IH]; intros i results w.
  - cbn. lia.
  - cbn [crawlGroupsReporting]. unfold bind at 1.
    destruct (report progressCallback
                ("Processing " ++ position i count ++ ": " ++ name group)%string i count w)
      as [[[] | error] w1] eqn:Hreport.
    2: { unfold report in Hreport.
         destruct progressCallback as [callback|]; [|discriminate].
         exists callback, 0, group, w. rewrite Nat.add_0_r.
         split_and!; [reflexivity..|exact Hreport]. }
    unfold bind at 1.
    match goal with
    | |- context [tryCatch ?body ?handler w1] =>
        assert (Hgroup : exists results1 w2,
                  tryCatch body handler w1 = (Returned results1, w2) /\
                  length results1 <= length results + 1)
    end.
    { unfold tryCatch, bind.
      match goal with
      | |- context [process group ?cb w1] =>
          destruct (process group cb w1) as [[[r|] | error] w2]
      end; cbn; eexists _, _; (split; [reflexivity|]); rewrite ?length_app; cbn; lia. }
    destruct Hgroup as (results1 & w2 & -> & Hlen).
    specialize (IH (S i) results1 w2).
    destruct (crawlGroupsReporting process progressCallback count rest (S i) results1 w2)
      as [[results' | error] w'].
    + cbn [length]. lia.
    + destruct IH as (callback & j & later & w3 & Hcallback & Hlater & Hthrown).
      exists callback, (S j), later, w3.
      rewrite Nat.add_succ_r. split_and!; assumption.
Qed.

(** Without a callback the loop is the loop of the plain run. *)
Lemma crawlGroupsReporting_silent (count : nat) (groups : list Group) :
  forall i results w,
    crawlGroupsReporting process None count groups i results w
    = crawlGroups (fun group => process group (fun _ _ _ => ret tt)) groups results w.
Proof.
  induction groups as [|group rest IH]; intros i results w; [reflexivity|].
  cbn [crawlGroupsReporting crawlGroups report]. unfold bind, tryCatch. cbn [ret].
  destruct (process group (fun _ _ _ => ret tt) w) as [[[r|] | error] w1];
    exact (IH _ _ _).
Qed.

Lemma runCrawlerReporting_from (cachedGroups : option (list Group))
  (allGroups : list Group) (w w0 : World Ext) :
  (match cachedGroups with
   | Some (g :: gs) => ret (g :: gs)
   | _ => listGroups
   end) w = (Returned allGroups, w0) ->
  runCrawlerReporting listGroups process selectedGroupIds progressCallback cachedGroups w
  = let chosen := selected selectedGroupIds allGroups in
    match chosen with
    | [] => (Thrown (newError "No valid groups found for selected IDs"), w0)
    | _ :: _ =>
        (results <-
           crawlGroupsReporting process progressCallback (length chosen) chosen 0 [] ;;
         report progressCallback "Crawl completed!" (length chosen) (length chosen) ;;;
         ret (mkSummary (length chosen)
                (length (List.filter countsAsSuccessful results))
                (Z.of_nat (length chosen)
                 - Z.of_nat (length (List.filter countsAsSuccessful results)))%Z
                results)) w0
    end.
Proof.
  intros Hknown. unfold runCrawlerReporting, bind at 1. rewrite Hknown. cbn zeta.
  fold (selected selectedGroupIds allGroups).
  destruct (selected selectedGroupIds allGroups) as [|g gs]; reflexivity.
Qed.

(** X21. A crawl fails as a whole for three reasons only: the group list
    could not be fetched; none of the selected ids names a listed group;
    or the progress callback threw on a report that [runCrawler] makes
    outside the [try] of a group, which is the report before each group
    and the closing one. In every other case, so whenever the callback
    returns or there is none, [runCrawler] returns a summary, whatever
    happens to the single groups: [totalGroups] is the number of selected
    groups and [results] holds at most one entry for each. Without a
    callback the run is the plain run. A non-empty cached list spares the
    fetch; an empty one does not. *)
Theorem runCrawlerReporting_outcomes (cachedGroups : option (list Group))
  (w : World Ext) :
  let run :=
    runCrawlerReporting listGroups process selectedGroupIds progressCallback
      cachedGroups w in
  let known : Outcome (list Group) * World Ext :=
    match cachedGroups with
    | Some (g :: gs) => (Returned (g :: gs), w)
    | _ => listGroups w
    end in
  (progressCallback = None ->
   run = runCrawlerWith listGroups (fun group => process group (fun _ _ _ => ret tt))
           selectedGroupIds cachedGroups w) /\
  match known with
  | (Thrown error, w0) => run = (Thrown error, w0)
  | (Returned allGroups, w0) =>
      let chosen := selected selectedGroupIds allGroups in
      (chosen = [] ->
       run = (Thrown (newError "No valid groups found for selected IDs"), w0)) /\
      (chosen <> [] ->
       (exists summary w',
          run = (Returned summary, w') /\
          totalGroups summary = length chosen /\
          length (results summary) <= totalGroups summary /\
          successful summary
          = length (List.filter countsAsSuccessful (results summary)) /\
          failed summary
          = (Z.of_nat (totalGroups summary) - Z.of_nat (successful summary))%Z) \/
       (exists error w' callback message current w1,
          run = (Thrown error, w') /\
          progressCallback = Some callback /\
          overallReport chosen message current /\
          callback message current (length chosen) w1 = (Thrown error, w'))) /\
      (chosen <> [] -> alwaysReturns progressCallback ->
       exists summary w',
         run = (Returned summary, w') /\
         totalGroups summary = length chosen /\
         length (results summary) <= totalGroups summary)
  end.
Proof.
  cbn zeta. split.
  { intros ->. unfold runCrawlerReporting, runCrawlerWith, bind at 1. unfold bind at 3.
    match goal with
    | |- context [match ?m w with _ => _ end] => destruct (m w) as [[allGroups | error] w0]
    end; [|reflexivity].
    cbn zeta.
    destruct (length (List.filter (fun group => bool_decide (id group ∈ selectedGroupIds))
                        allGroups) =? 0)%nat; [reflexivity|].
    unfold bind at 1. unfold bind at 2. rewrite crawlGroupsReporting_silent.
    match goal with
    | |- context [crawlGroups ?p ?g [] w0] =>
        destruct (crawlGroups p g [] w0) as [[results | error] w1]
    end; reflexivity. }
  assert (Hfrom : forall allGroups w0,
            (match cachedGroups with
             | Some (g :: gs) => ret (g :: gs)
             | _ => listGroups
             end) w = (Returned allGroups, w0) ->
            let chosen := selected selectedGroupIds allGroups in
            (chosen = [] ->
             runCrawlerReporting listGroups process selectedGroupIds progressCallback
               cachedGroups w
             = (Thrown (newError "No valid groups found for selected IDs"), w0)) /\
            (chosen <> [] ->
             (exists summary w',
                runCrawlerReporting listGroups process selectedGroupIds progressCallback
                  cachedGroups w = (Returned summary, w') /\
                totalGroups summary = length chosen /\
                length (results summary) <= totalGroups summary /\
                successful summary
                = length (List.filter countsAsSuccessful (results summary)) /\
                failed summary
                = (Z.of_nat (totalGroups summary) - Z.of_nat (successful summary))%Z) \/
             (exists error w' callback message current w1,
                runCrawlerReporting listGroups process selectedGroupIds progressCallback
                  cachedGroups w = (Thrown error, w') /\
                progressCallback = Some callback /\
                overallReport chosen message current /\
                callback message current (length chosen) w1 = (Thrown error, w'))) /\
            (chosen <> [] -> alwaysReturns progressCallback ->
             exists summary w',
               runCrawlerReporting listGroups process selectedGroupIds progressCallback
                 cachedGroups w = (Returned summary, w') /\
               totalGroups summary = length chosen /\
               length (results summary) <= totalGroups summary)).
  { intros allGroups w0 Hknown. cbn zeta.
    rewrite (runCrawlerReporting_from _ _ _ _ Hknown). cbn zeta.
    destruct (selected selectedGroupIds allGroups) as [|g gs] eqn:Hchosen.
    { split_and!; [reflexivity|congruence|congruence]. }
    rewrite <- Hchosen.
    set (chosen := selected selectedGroupIds allGroups).
    assert (Hcount : length chosen = S (length gs)) by (unfold chosen; now rewrite Hchosen).
    match goal with
    | |- context [bind ?m ?k w0] => remember (bind m k w0) as body eqn:Hbody
    end.
    symmetry in Hbody.
    assert (Hcases :
      (exists summary w',
         body = (Returned summary, w') /\
         totalGroups summary = length chosen /\
         length (results summary) <= totalGroups summary /\
         successful summary
         = length (List.filter countsAsSuccessful (results summary)) /\
         failed summary
         = (Z.of_nat (totalGroups summary) - Z.of_nat (successful summary))%Z) \/
      (exists error w' callback message current w1,
         body = (Thrown error, w') /\
         progressCallback = Some callback /\
         overallReport chosen message current /\
         callback message current (length chosen) w1 = (Thrown error, w'))).
    { pose proof (crawlGroupsReporting_outcome (length chosen) chosen 0 [] w0) as Hloop.
      unfold bind at 1 in Hbody.
      destruct (crawlGroupsReporting process progressCallback (length chosen) chosen 0 [] w0)
        as [[results' | error] w1].
      - unfold bind in Hbody.
        destruct (report progressCallback "Crawl completed!" (length chosen)
                    (length chosen) w1) as [[[] | error] w2] eqn:Hreport.
        + left. subst body. eexists _, _. split; [reflexivity|].
          cbn [totalGroups results successful failed length] in *.
          split_and!; [reflexivity|lia|reflexivity|reflexivity].
        + right. subst body. unfold report in Hreport.
          destruct progressCallback as [callback|]; [|discriminate].
          exists error, w2, callback, "Crawl completed!", (length chosen), w1.
          split_and!; [reflexivity|reflexivity| |exact Hreport].
          left. now split.
      - destruct Hloop as (callback & j & group & w2 & Hcallback & Hgroup & Hthrown).
        cbn [Nat.add] in Hthrown.
        right. subst body. eexists error, w1, callback, _, j, w2.
        split_and!; [reflexivity|exact Hcallback| |exact Hthrown].
        right. exists group. split; [exact Hgroup|reflexivity]. }
    clear Hbody.
    split_and!.
    - intros Hnone. rewrite Hnone in Hcount. discriminate.
    - intros _. exact Hcases.
    - intros _ Hreturns.
      destruct Hcases as [(summary & w' & -> & Htotal & Hlen & _) |
                          (error & w' & callback & message & current & w1 & _ & Hcallback
                           & _ & Hthrown)].
      + eauto.
      + destruct (Hreturns callback Hcallback message current (length chosen) w1)
          as (w2 & Hreturned). congruence. }
  destruct cachedGroups as [[|g gs]|].
  - destruct (listGroups w) as [[allGroups | error] w0] eqn:Hlist.
    + now apply Hfrom.
    + unfold runCrawlerReporting, bind at 1. now rewrite Hlist.
  - now apply Hfrom.
  - destruct (listGroups w) as [[allGroups | error] w0] eqn:Hlist.
    + now apply Hfrom.
    + unfold runCrawlerReporting, bind at 1. now rewrite Hlist.
Qed.

End WholeRun.

(** Groups A and B are cached and both selected; the callback throws on the
    closing report. Both groups are processed and the run throws. *)
Lemma runCrawlerReporting_outcomes_witness :
  exists w' message current w1,
    Crawl.runCrawlerReporting (Crawl.ret []) Samples.quickProcess ["A@g.us"; "B@g.us"]
      (Some Samples.failsAtTheEnd) (Some [Crawl.groupA; Crawl.groupB]) (Crawl.freshWorld [])
    = (Thrown Samples.windowGone, w') /\
    Crawl.overallReport [Crawl.groupA; Crawl.groupB] message current /\
    Samples.failsAtTheEnd message current 2 w1 = (Thrown Samples.windowGone, w').
Proof.
  destruct (runCrawlerReporting_outcomes (Crawl.ret []) Samples.quickProcess
              ["A@g.us"; "B@g.us"] (Some Samples.failsAtTheEnd)
              (Some [Crawl.groupA; Crawl.groupB]) (Crawl.freshWorld []))
    as (_ & _ & Hcases & _).
  destruct (Hcases ltac:(discriminate))
    as [(summary & w' & Hrun & _) |
        (error & w' & callback & message & current & w1 & Hrun & Hcallback & Hreport & Hthrown)].
  - vm_compute in Hrun. discriminate.
  - injection Hcallback as <-. assert (error = Samples.windowGone) as ->.
    { vm_compute in Hrun. now injection Hrun as <- _. }
    exists w', message, current, w1. split_and!; assumption.
Defined.

(** ** The handlers of the main process *)

Section MainHandlers.
Import Enrichment Crawl Main.
Context {Ext : Type}.
Variable common : Common.
Variable engine : Engine.
Variable host : Host Ext.
Variable send : WindowMessage -> Ext -> Reply Ext unit.
Variable roundedPercent : nat -> nat -> Z.


(** Once a client and a list are in place, [get-groups] answers with the
    list and does nothing else. *)
Lemma getGroupsHandler_cached (st : MainState) (groups : list Group) (w : World Ext) :
  authenticatedClient st <> None ->
  cachedGroups st = Some groups ->
  getGroupsHandler common engine send roundedPercent st w
  = (Returned (GroupsListed groups), st, w).
Proof.
  intros Hclient Hcache. unfold getGroupsHandler, attempt, andThen, moduleVariables.
  destruct (authenticatedClient st); [|congruence]. now rewrite Hcache.
Qed.

(** X23. The [get-groups] handler never throws and never changes the
    client. Without a client it answers with a failure at once. A success
    leaves the listed groups in the cache, and from then on the handler
    answers with that very list without asking the remote or the window,
    also when the list is empty. A failure leaves the cache as it was,
    with one exception: when the groups were listed and sending them to
    the window threw, the answer is a failure with the message of that
    error, and the list is cached all the same, so that later calls answer
    with it. *)
Theorem getGroupsHandler_caches (st : MainState) (w : World Ext) :
  exists reply st' w',
    getGroupsHandler common engine send roundedPercent st w = (Returned reply, st', w') /\
    authenticatedClient st' = authenticatedClient st /\
    (authenticatedClient st = None ->
     reply = GroupsFailed
               "Failed to get groups: Not authenticated. Please authenticate first." /\
     st' = st /\ w' = w) /\
    match reply with
    | GroupsListed groups =>
        cachedGroups st' = Some groups /\
        forall w2,
          getGroupsHandler common engine send roundedPercent st' w2
          = (Returned (GroupsListed groups), st', w2)
    | GroupsFailed note =>
        st' = st \/
        exists client groups w1 w2 error,
          authenticatedClient st = Some client /\
          cachedGroups st = None /\
          getGroupsReporting common engine client
            (Some (groupLoadingCallback send roundedPercent)) w1
          = (Returned groups, w2) /\
          call (send (GroupsLoadingComplete groups)) w2 = (Thrown error, w') /\
          note = ("Failed to get groups: " ++ message error)%string /\
          cachedGroups st' = Some groups /\
          forall w3,
            getGroupsHandler common engine send roundedPercent st' w3
            = (Returned (GroupsListed groups), st', w3)
    end.
Proof.
  destruct (authenticatedClient st) as [client|] eqn:Hclient.
  2: { unfold getGroupsHandler, attempt, andThen, moduleVariables. rewrite Hclient.
       eexists _, _, _. split; [reflexivity|]. cbn.
       split_and!; [assumption || reflexivity..| |now left].
       intros _. now split_and!. }
  destruct (cachedGroups st) as [groups|] eqn:Hcache.
  { exists (GroupsListed groups), st, w.
    assert (Hanswer : forall w2,
              getGroupsHandler common engine send roundedPercent st w2
              = (Returned (GroupsListed groups), st, w2)).
    { intros w2. apply getGroupsHandler_cached; [congruence|exact Hcache]. }
    split_and!; [apply Hanswer|assumption|congruence|exact Hcache|exact Hanswer]. }
  unfold getGroupsHandler at 1. unfold attempt, andThen, moduleVariables.
  rewrite Hclient, Hcache. unfold run.
  destruct (call (send (ProgressUpdate "Loading groups...")) w) as [[[] | error] w1].
  2: { eexists _, _, _. split; [reflexivity|].
       split_and!; [assumption|discriminate|now left]. }
  destruct (getGroupsReporting common engine client
              (Some (groupLoadingCallback send roundedPercent)) w1)
    as [[groups | error] w2] eqn:Hlisting.
  2: { eexists _, _, _. split; [reflexivity|].
       split_and!; [assumption|discriminate|now left]. }
  unfold setCachedGroups.
  assert (Hanswer : forall w3,
            getGroupsHandler common engine send roundedPercent
              (mkMainState (authenticatedClient st) (Some groups)) w3
            = (Returned (GroupsListed groups),
               mkMainState (authenticatedClient st) (Some groups), w3)).
  { intros w3. apply getGroupsHandler_cached; [cbn; congruence|reflexivity]. }
  destruct (call (send (GroupsLoadingComplete groups)) w2) as [[[] | error] w3] eqn:Hsend.
  - eexists _, _, _. split; [reflexivity|]. cbn [authenticatedClient cachedGroups].
    split_and!; [exact Hclient|discriminate|reflexivity|exact Hanswer].
  - eexists _, _, _. split; [reflexivity|]. cbn [authenticatedClient].
    split_and!; [exact Hclient|discriminate|].
    right. exists client, groups, w1, w2, error.
    split_and!; [reflexivity..|exact Hlisting|exact Hsend|reflexivity|reflexivity|exact Hanswer].
Qed.

(** X24. Authentication never touches the group cache, however it ends.
    The client is in place as soon as the authentication itself has
    returned, also when the handler then fails; otherwise the client is
    the one there was. The handler throws only what the send in its
    [catch] block throws, so it always answers when the window takes every
    message. Once groups are cached and a client is in place after it,
    [get-groups] still answers with the groups cached before, without
    asking the client or the window. *)
Theorem startAuth_keeps_cache (authenticateWhatsApp : M Ext (Client Ext))
  (st st' : MainState) (w w' : World Ext) (outcome : Outcome AuthReply) :
  startAuth send authenticateWhatsApp st w = (outcome, st', w') ->
  cachedGroups st' = cachedGroups st /\
  (forall w1 client w2,
     call (send (AuthStatus "Starting authentication...")) w = (Returned tt, w1) ->
     authenticateWhatsApp w1 = (Returned client, w2) ->
     authenticatedClient st' = Some client) /\
  (authenticatedClient st' = authenticatedClient st \/
   exists w1 client w2,
     call (send (AuthStatus "Starting authentication...")) w = (Returned tt, w1) /\
     authenticateWhatsApp w1 = (Returned client, w2) /\
     authenticatedClient st' = Some client) /\
  (forall error, outcome = Thrown error ->
     exists earlier w0,
       call (send (AuthStatus ("Authentication failed: " ++ message earlier))) w0
       = (Thrown error, w')) /\
  (forall reply, outcome = Returned reply ->
     match reply with
     | AuthCompleted note =>
         note = "Authentication completed successfully" /\
         exists w1 client w2,
           call (send (AuthStatus "Starting authentication...")) w = (Returned tt, w1) /\
           authenticateWhatsApp w1 = (Returned client, w2) /\
           call (send (AuthStatus "Authentication successful!")) w2 = (Returned tt, w')
     | AuthFailed note =>
         exists earlier w0,
           note = ("Authentication failed: " ++ message earlier)%string /\
           call (send (AuthStatus note)) w0 = (Returned tt, w')
     end) /\
  ((forall message s, reply_outcome (send message s) = Returned tt) ->
   exists reply, outcome = Returned reply) /\
  (forall groups,
     cachedGroups st = Some groups -> authenticatedClient st' <> None ->
     forall w2,
       getGroupsHandler common engine send roundedPercent st' w2
       = (Returned (GroupsListed groups), st', w2)).
Proof.
  intros Hrun.
  assert (Hfacts :
    cachedGroups st' = cachedGroups st /\
    (forall w1 client w2,
       call (send (AuthStatus "Starting authentication...")) w = (Returned tt, w1) ->
       authenticateWhatsApp w1 = (Returned client, w2) ->
       authenticatedClient st' = Some client) /\
    (authenticatedClient st' = authenticatedClient st \/
     exists w1 client w2,
       call (send (AuthStatus "Starting authentication...")) w = (Returned tt, w1) /\
       authenticateWhatsApp w1 = (Returned client, w2) /\
       authenticatedClient st' = Some client) /\
    (forall error, outcome = Thrown error ->
       exists earlier w0,
         call (send (AuthStatus ("Authentication failed: " ++ message earlier))) w0
         = (Thrown error, w')) /\
    (forall reply, outcome = Returned reply ->
       match reply with
       | AuthCompleted note =>
           note = "Authentication completed successfully" /\
           exists w1 client w2,
             call (send (AuthStatus "Starting authentication...")) w = (Returned tt, w1) /\
             authenticateWhatsApp w1 = (Returned client, w2) /\
             call (send (AuthStatus "Authentication successful!")) w2 = (Returned tt, w')
       | AuthFailed note =>
           exists earlier w0,
             note = ("Authentication failed: " ++ message earlier)%string /\
             call (send (AuthStatus note)) w0 = (Returned tt, w')
       end)).
  { unfold startAuth, attempt, andThen, run, setAuthenticatedClient, answer in Hrun.
    destruct (call (send (AuthStatus "Starting authentication...")) w)
      as [[[] | failure] w1] eqn:Hfirst.
    - destruct (authenticateWhatsApp w1) as [[client | failure] w2] eqn:Hauth.
      + destruct (call (send (AuthStatus "Authentication successful!")) w2)
          as [[[] | failure] w3] eqn:Hsecond.
        * injection Hrun as <- <- <-. cbn [cachedGroups authenticatedClient].
          split_and!.
          -- reflexivity.
          -- intros w1' client' w2' [= <-] Hauth'. rewrite Hauth in Hauth'. congruence.
          -- right. exists w1, client, w2. now split_and!.
          -- discriminate.
          -- intros reply [= <-]. split; [reflexivity|]. exists w1, client, w2.
             now split_and!.
        * destruct (call (send (AuthStatus ("Authentication failed: " ++ message failure)))
                      w3) as [[[] | last] w4] eqn:Hcatch;
            injection Hrun as <- <- <-; cbn [cachedGroups authenticatedClient];
            (split_and!;
             [reflexivity
             |intros w1' client' w2' [= <-] Hauth'; rewrite Hauth in Hauth'; congruence
             |right; exists w1, client, w2; now split_and!
             | |]).
          -- discriminate.
          -- intros reply [= <-]. exists failure, w3. now split.
          -- intros error [= <-]. now exists failure, w3.
          -- discriminate.
      + destruct (call (send (AuthStatus ("Authentication failed: " ++ message failure)))
                    w2) as [[[] | last] w3] eqn:Hcatch;
          injection Hrun as <- <- <-;
          (split_and!;
           [reflexivity
           |intros w1' client' w2' [= <-] Hauth'; rewrite Hauth in Hauth'; congruence
           |now left
           | |]).
        * discriminate.
        * intros reply [= <-]. exists failure, w2. now split.
        * intros error [= <-]. now exists failure, w2.
        * discriminate.
    - destruct (call (send (AuthStatus ("Authentication failed: " ++ message failure)))
                  w1) as [[[] | last] w2] eqn:Hcatch;
        injection Hrun as <- <- <-;
        (split_and!; [reflexivity|intros w1' client' w2' [=]|now left| |]).
      + discriminate.
      + intros reply [= <-]. exists failure, w1. now split.
      + intros error [= <-]. now exists failure, w1.
      + discriminate. }
  destruct Hfacts as (Hcache & Hclient & Horigin & Hthrown & Hreply).
  split_and!; try assumption.
  - intros Hopen. destruct outcome as [reply | error]; [now exists reply|].
    destruct (Hthrown error eq_refl) as (earlier & w0 & Hsend).
    unfold call in Hsend. rewrite Hopen in Hsend. discriminate.
  - intros groups Hcached Hinstalled w2. apply getGroupsHandler_cached; [exact Hinstalled|].
    now rewrite Hcache.
Qed.

End MainHandlers.

(** The remote lists its groups and the window is gone by the time the
    list is to be sent: the answer is a failure, and the list is cached. *)
Lemma getGroupsHandler_caches_witness :
  exists st' w',
    Main.getGroupsHandler Crawl.sampleCommon Crawl.sampleEngine Samples.closingWindow
      Samples.exactPercent (Main.mkMainState (Some Samples.listingClient) None)
      (Crawl.freshWorld tt)
    = (Returned (Main.GroupsFailed "Failed to get groups: Object has been destroyed"),
       st', w') /\
    map Crawl.id <$> Main.cachedGroups st' = Some ["B@g.us"; "A@g.us"].
Proof.
  destruct (getGroupsHandler_caches Crawl.sampleCommon Crawl.sampleEngine
              Samples.closingWindow Samples.exactPercent
              (Main.mkMainState (Some Samples.listingClient) None) (Crawl.freshWorld tt))
    as (reply & st' & w' & Hrun & _).
  exists st', w'. vm_compute in Hrun. injection Hrun as <- <- <-.
  split; reflexivity.
Defined.

(** Group A is cached. The authentication succeeds and the window is gone
    right after: the handler throws, the new client is in place, and
    [get-groups] answers with group A. *)
Lemma startAuth_keeps_cache_witness :
  exists st' w',
    Main.startAuth Samples.windowUntilSuccess (Crawl.ret Samples.listingClient)
      (Main.mkMainState None (Some [Crawl.groupA])) (Crawl.freshWorld tt)
    = (Thrown Samples.windowGone, st', w') /\
    Main.cachedGroups st' = Some [Crawl.groupA] /\
    Main.authenticatedClient st' = Some Samples.listingClient /\
    Main.getGroupsHandler Crawl.sampleCommon Crawl.sampleEngine Samples.windowUntilSuccess
      Samples.exactPercent st' (Crawl.freshWorld tt)
    = (Returned (Main.GroupsListed [Crawl.groupA]), st', Crawl.freshWorld tt).
Proof.
  exists (Main.mkMainState (Some Samples.listingClient) (Some [Crawl.groupA])),
    (Crawl.freshWorld tt).
  assert (Hrun : Main.startAuth Samples.windowUntilSuccess (Crawl.ret Samples.listingClient)
                   (Main.mkMainState None (Some [Crawl.groupA])) (Crawl.freshWorld tt)
                 = (Thrown Samples.windowGone,
                    Main.mkMainState (Some Samples.listingClient) (Some [Crawl.groupA]),
                    Crawl.freshWorld tt)) by reflexivity.
  destruct (startAuth_keeps_cache Crawl.sampleCommon Crawl.sampleEngine
              Samples.windowUntilSuccess Samples.exactPercent
              (Crawl.ret Samples.listingClient) _ _ _ _ _ Hrun)
    as (Hcache & Hclient & _ & _ & _ & _ & Hnext).
  split_and!.
  - exact Hrun.
  - exact Hcache.
  - exact (Hclient (Crawl.freshWorld tt) Samples.listingClient (Crawl.freshWorld tt)
             eq_refl eq_refl).
  - apply (Hnext [Crawl.groupA] eq_refl). discriminate.
Defined.

(** ** The histograms *)

Section Numerals.
Import Exporter Analysis.

Lemma pretty_N_char_value (x : N) :
  (x < 10)%N -> digitValue 10 (pretty_N_char x) = Some x.
Proof.
  intros Hx.
  assert (Hcases : x = 0%N \/ x = 1%N \/ x = 2%N \/ x = 3%N \/ x = 4%N \/ x = 5%N \/
                   x = 6%N \/ x = 7%N \/ x = 8%N \/ x = 9%N) by lia.
  repeat destruct Hcases as [-> | Hcases]; try subst x; reflexivity.
Qed.

Lemma pretty_N_go_digits (x : N) :
  forall s, allChars isDecimalDigit s = true ->
            allChars isDecimalDigit (pretty_N_go x s) = true.
Proof.
  induction (N.lt_wf_0 x) as [x _ IH]. intros s Hs.
  destruct (N.eq_dec x 0) as [-> | Hx]; [now rewrite pretty_N_go_0|].
  rewrite pretty_N_go_step by lia. apply IH.
  - apply N.div_lt; lia.
  - cbn [allChars]. rewrite Hs, andb_true_r. unfold isDecimalDigit.
    rewrite pretty_N_char_value; [reflexivity|]. apply N.mod_lt. lia.
Qed.

Lemma pretty_N_go_nonempty (x : N) :
  forall s, s <> EmptyString -> pretty_N_go x s <> EmptyString.
Proof.
  induction (N.lt_wf_0 x) as [x _ IH]. intros s Hs.
  destruct (N.eq_dec x 0) as [-> | Hx]; [now rewrite pretty_N_go_0|].
  rewrite pretty_N_go_step by lia. apply IH; [|discriminate].
  apply N.div_lt; lia.
Qed.

Lemma pretty_N_go_value (x : N) :
  exists n : N,
    forall s acc,
      digitsValue 10 (pretty_N_go x s) acc =
      digitsValue 10 s (if decide (x = 0%N) then acc else acc * 10 ^ n + x)%N.
Proof.
  induction (N.lt_wf_0 x) as [x _ IH].
  destruct (N.eq_dec x 0) as [-> | Hx].
  { exists 0%N. intros s acc. now rewrite pretty_N_go_0. }
  destruct (IH (x / 10)%N) as [n Hn]; [apply N.div_lt; lia|].
  pose proof (N.div_mod x 10 ltac:(lia)) as Hsplit.
  pose proof (N.mod_lt x 10 ltac:(lia)) as Hdigit.
  destruct (decide (x / 10 = 0)%N) as [Hq | Hq].
  - exists 1%N. intros s acc. rewrite pretty_N_go_step by lia.
    rewrite Hn. cbn [digitsValue]. rewrite pretty_N_char_value by exact Hdigit.
    rewrite decide_False by exact Hx. f_equal. rewrite Hq in Hsplit. lia.
  - exists (n + 1)%N. intros s acc. rewrite pretty_N_go_step by lia.
    rewrite Hn. cbn [digitsValue]. rewrite pretty_N_char_value by exact Hdigit.
    rewrite decide_False by exact Hx. f_equal.
    rewrite N.pow_add_r, N.pow_1_r. lia.
Qed.

Lemma pretty_nat_digits (n : nat) :
  allChars isDecimalDigit (pretty n) = true /\ pretty n <> EmptyString /\
  digitsValue 10 (pretty n) 0 = N.of_nat n.
Proof.
  unfold pretty, pretty_nat, pretty, pretty_N.
  destruct (decide (N.of_nat n = 0%N)) as [Hz | Hz].
  - rewrite Hz. now split_and!.
  - split_and!.
    + now apply pretty_N_go_digits.
    + destruct (N.of_nat n) eqn:Hn; [lia|].
      rewrite pretty_N_go_step by lia. apply pretty_N_go_nonempty. discriminate.
    + destruct (pretty_N_go_value (N.of_nat n)) as [k Hk]. rewrite Hk.
      rewrite decide_False by exact Hz. cbn [digitsValue]. lia.
Qed.

Lemma decimalDigit_code (c : ascii) :
  isDecimalDigit c = true -> (48 <= N_of_ascii c <= 57)%N.
Proof.
  unfold isDecimalDigit, digitValue.
  destruct ((48 <=? N_of_ascii c)%N && (N_of_ascii c <=? 57)%N) eqn:Hrange.
  - apply andb_true_iff in Hrange as [H1%N.leb_le H2%N.leb_le]. lia.
  - destruct ((97 <=? N_of_ascii c)%N && (N_of_ascii c <=? 122)%N) eqn:Hlower.
    + apply andb_true_iff in Hlower as [H1%N.leb_le H2%N.leb_le].
      destruct (N_of_ascii c - 87 <? 10)%N eqn:Hsmall; [|discriminate].
      apply N.ltb_lt in Hsmall. lia.
    + destruct ((65 <=? N_of_ascii c)%N && (N_of_ascii c <=? 90)%N) eqn:Hupper;
        [|discriminate].
      apply andb_true_iff in Hupper as [H1%N.leb_le H2%N.leb_le].
      destruct (N_of_ascii c - 55 <? 10)%N eqn:Hsmall; [|discriminate].
      apply N.ltb_lt in Hsmall. lia.
Qed.

Lemma code_differs (c d : ascii) : N_of_ascii c <> N_of_ascii d -> Ascii.eqb c d = false.
Proof. intros H. apply Ascii.eqb_neq. congruence. Qed.

(** A numeral of decimal digits is what [parseInt] reads back. *)
Lemma parseInt_decimal (s : string) :
  s <> EmptyString -> allChars isDecimalDigit s = true ->
  parseInt s = Some (Z.of_N (digitsValue 10 s 0)).
Proof.
  destruct s as [|c rest]; [congruence|]. intros _.
  cbn [allChars]. intros [Hc Hrest]%andb_true_iff.
  pose proof (decimalDigit_code c Hc) as Hcode.
  assert (Hspace : isWhiteSpace c = false).
  { unfold isWhiteSpace. cbn [existsb].
    rewrite !code_differs by (cbn; lia). reflexivity. }
  assert (Hminus : c <> "-"%char) by (intros ->; cbn in Hcode; lia).
  assert (Hplus : c <> "+"%char) by (intros ->; cbn in Hcode; lia).
  assert (Hprefix : startsWith "0x" (String c rest) || startsWith "0X" (String c rest)
                    = false).
  { cbn [startsWith]. destruct (Ascii.eqb "0" c); [|reflexivity].
    destruct rest as [|d rest']; [reflexivity|].
    cbn [allChars] in Hrest. apply andb_true_iff in Hrest as [Hd _].
    pose proof (decimalDigit_code d Hd) as Hdcode.
    rewrite (Ascii.eqb_sym "x"%char d), (Ascii.eqb_sym "X"%char d).
    rewrite !code_differs by (cbn; lia). reflexivity. }
  unfold parseInt. cbn [trimStart]. rewrite Hspace.
  assert (Hsign : match String c rest with
                  | String "-" r => (true, r)
                  | String "+" r => (false, r)
                  | _ => (false, String c rest)
                  end = (false, String c rest)).
  { destruct c as [[] [] [] [] [] [] [] []]; try reflexivity; congruence. }
  rewrite Hsign, Hprefix.
  unfold isDecimalDigit in Hc.
  destruct (digitValue 10 c); [reflexivity|discriminate].
Qed.

Lemma parseInt_pretty (n : nat) : parseInt (pretty n) = Some (Z.of_nat n).
Proof.
  destruct (pretty_nat_digits n) as (Hdigits & Hnonempty & Hvalue).
  rewrite parseInt_decimal by assumption. rewrite Hvalue. f_equal. lia.
Qed.

Lemma digits_no_hyphen (s : string) :
  allChars isDecimalDigit s = true -> noChar "-" s = true.
Proof.
  induction s as [|c rest IH]; [reflexivity|].
  cbn [allChars noChar]. intros [Hc Hrest]%andb_true_iff.
  rewrite IH by exact Hrest. rewrite andb_true_r.
  pose proof (decimalDigit_code c Hc) as Hcode.
  rewrite code_differs by (cbn; lia). reflexivity.
Qed.

(** The bucket start can be read back from a label. *)
Lemma bucketStart_label (size bucket : nat) :
  bucketStart (bucketLabel size bucket) = Some (Z.of_nat bucket).
Proof.
  unfold bucketStart, bucketLabel.
  destruct (pretty_nat_digits bucket) as (Hdigits & _ & _).
  change ("-" ++ pretty (bucket + size - 1))%string
    with (String "-" (pretty (bucket + size - 1))).
  rewrite split_app_sep by now apply digits_no_hyphen.
  cbn [hd]. apply parseInt_pretty.
Qed.

Lemma bucketLabel_inj (size b1 b2 : nat) :
  bucketLabel size b1 = bucketLabel size b2 -> b1 = b2.
Proof.
  intros H. apply (f_equal bucketStart) in H. rewrite !bucketStart_label in H.
  injection H. lia.
Qed.

End Numerals.

Section HistogramFacts.
Import Sorting Enrichment Analysis.

Lemma getProperty_setProperty (obj : JsObject) (key : string) (value : nat) (k : string) :
  getProperty (setProperty key value obj) k =
  if String.eqb key k then Some value else getProperty obj k.
Proof.
  induction obj as [|[k0 v0] rest IH]; cbn [setProperty getProperty].
  - reflexivity.
  - destruct (String.eqb k0 key) eqn:Hkey.
    + apply String.eqb_eq in Hkey as ->. cbn [getProperty].
      now destruct (String.eqb key k).
    + cbn [getProperty]. rewrite IH.
      destruct (String.eqb k0 k) eqn:Hk; [|reflexivity].
      apply String.eqb_eq in Hk as ->. now rewrite String.eqb_sym, Hkey.
Qed.

Lemma getProperty_keys (obj : JsObject) (k : string) :
  In k (map fst obj) <-> exists v, getProperty obj k = Some v.
Proof.
  induction obj as [|[k0 v0] rest IH]; cbn [map fst In getProperty].
  - split; [tauto|intros [v [=]]].
  - destruct (String.eqb k0 k) eqn:Hk.
    + apply String.eqb_eq in Hk as ->. split; eauto.
    + apply String.eqb_neq in Hk. rewrite IH. split; [intros [? | ?]|]; tauto.
Qed.

Lemma setProperty_keys (obj : JsObject) (key : string) (value : nat) :
  map fst (setProperty key value obj) =
  match getProperty obj key with
  | Some _ => map fst obj
  | None => map fst obj ++ [key]
  end.
Proof.
  induction obj as [|[k0 v0] rest IH]; cbn [setProperty getProperty map fst app].
  - reflexivity.
  - destruct (String.eqb k0 key) eqn:Hkey; cbn [map fst]; [reflexivity|].
    rewrite IH. now destruct (getProperty rest key).
Qed.

Lemma setProperty_fresh (obj : JsObject) (key : string) (value : nat) :
  ~ In key (map fst obj) -> setProperty key value obj = obj ++ [(key, value)].
Proof.
  induction obj as [|[k0 v0] rest IH]; cbn [setProperty map fst In app]; [reflexivity|].
  intros Hfresh. destruct (String.eqb k0 key) eqn:Hkey.
  - apply String.eqb_eq in Hkey. tauto.
  - rewrite IH by tauto. reflexivity.
Qed.

Variable size : nat.

(** The loop that fills the histogram, from any state of the object. *)
Lemma fill_spec (values : list nat) :
  forall histogram,
    let filled :=
      fold_left
        (fun histogram n =>
           let label := bucketLabel size (bucketOf size n) in
           setProperty label
             (match getProperty histogram label with Some v => v | None => 0 end + 1)
             histogram)
        values histogram in
    (NoDup (map fst histogram) -> NoDup (map fst filled)) /\
    (forall k, In k (map fst filled) <->
               In k (map fst histogram) \/
               exists n, In n values /\ k = bucketLabel size (bucketOf size n)) /\
    (forall bucket,
       valueOf filled (bucketLabel size bucket) =
       valueOf histogram (bucketLabel size bucket) + inBucket size values bucket).
Proof.
  induction values as [|n rest IH]; intros histogram; cbn zeta.
  - cbn [fold_left]. split_and!; [tauto| |intros; unfold inBucket; cbn; lia].
    intros k. split; [tauto|]. intros [H | (n & [] & _)]. exact H.
  - cbn [fold_left].
    set (label := bucketLabel size (bucketOf size n)).
    set (next := setProperty label
                   (match getProperty histogram label with Some v => v | None => 0 end + 1)
                   histogram).
    destruct (IH next) as (Hdup & Hkeys & Hvalues).
    assert (Hnext : map fst next =
                    match getProperty histogram label with
                    | Some _ => map fst histogram
                    | None => map fst histogram ++ [label]
                    end) by apply setProperty_keys.
    split_and!.
    + intros Hunique. apply Hdup. rewrite Hnext.
      destruct (getProperty histogram label) eqn:Hlabel; [exact Hunique|].
      apply NoDup_app; [exact Hunique|constructor; [intros []|constructor]|].
      intros k Hk [<- | []].
      apply getProperty_keys in Hk as [v Hv]. congruence.
    + intros k. rewrite Hkeys, Hnext. split.
      * intros [Hk | (m & Hm & ->)].
        -- destruct (getProperty histogram label); [now left|].
           apply in_app_iff in Hk as [Hk | [<- | []]]; [now left|].
           right. exists n. split; [now left|reflexivity].
        -- right. exists m. split; [now right|reflexivity].
      * intros [Hk | (m & [<- | Hm] & ->)].
        -- left. destruct (getProperty histogram label); [exact Hk|].
           apply in_app_iff. now left.
        -- left. fold label. destruct (getProperty histogram label) eqn:Hlabel.
           ++ apply getProperty_keys. eauto.
           ++ apply in_app_iff. right. now left.
        -- right. now exists m.
    + intros bucket. rewrite Hvalues. unfold valueOf at 1, next.
      rewrite getProperty_setProperty. unfold inBucket. cbn [List.filter].
      destruct (String.eqb label (bucketLabel size bucket)) eqn:Hsame.
      * apply String.eqb_eq in Hsame. pose proof Hsame as Hbucket.
        apply bucketLabel_inj in Hbucket. rewrite Hbucket, Nat.eqb_refl.
        unfold valueOf. rewrite <- Hsame. fold label. cbn [length]. lia.
      * apply String.eqb_neq in Hsame.
        destruct (bucketOf size n =? bucket)%nat eqn:Hbucket.
        -- apply Nat.eqb_eq in Hbucket. subst label. now rewrite Hbucket in Hsame.
        -- unfold valueOf. lia.
Qed.

(** The [reduce] over keys that are new to the object and known to the
    histogram: every key is appended with its value. *)
Lemma reduce_fresh (histogram : JsObject) (keys : list string) :
  forall obj,
    NoDup keys ->
    (forall k, In k keys -> ~ In k (map fst obj) /\ In k (map fst histogram)) ->
    fold_left
      (fun obj key =>
         match getProperty histogram key with
         | Some v => setProperty key v obj
         | None => obj
         end) keys obj
    = obj ++ map (fun k => (k, valueOf histogram k)) keys.
Proof.
  induction keys as [|key rest IH]; intros obj Hunique Hkeys.
  - cbn. now rewrite app_nil_r.
  - cbn [fold_left map]. destruct (Hkeys key (or_introl eq_refl)) as [Hfresh Hknown].
    apply getProperty_keys in Hknown as [v Hv].
    unfold valueOf at 1. rewrite Hv. rewrite setProperty_fresh by exact Hfresh.
    inversion Hunique as [|? ? Hnotin Hrest]. subst.
    rewrite IH; [now rewrite <- app_assoc| exact Hrest |].
    intros k Hk. split; [|apply Hkeys; now right].
    rewrite map_app. cbn [map fst]. rewrite in_app_iff. intros [H | [<- | []]].
    + destruct (Hkeys k (or_intror Hk)) as [Hfresh' _]. tauto.
    + tauto.
Qed.

Lemma sorted_nodup_strict (l : list nat) :
  StronglySorted le l -> NoDup l -> StronglySorted lt l.
Proof.
  induction 1 as [|x rest Hsorted IH Hhead]; intros Hunique; constructor.
  - apply IH. now inversion Hunique.
  - inversion Hunique as [|? ? Hnotin _]. subst.
    apply Forall_forall. intros y Hy.
    rewrite Forall_forall in Hhead. specialize (Hhead y Hy).
    assert (x <> y) by (intros ->; tauto). lia.
Qed.

(** Counting by bucket over buckets that are pairwise different and cover
    the values counts every value once. *)
Lemma inBucket_cons (n : nat) (rest : list nat) (bucket : nat) :
  inBucket size (n :: rest) bucket =
  inBucket size rest bucket + (if (bucketOf size n =? bucket)%nat then 1 else 0).
Proof.
  unfold inBucket. cbn [List.filter].
  destruct (bucketOf size n =? bucket)%nat; cbn [length]; lia.
Qed.

Lemma inBucket_total (values buckets : list nat) :
  NoDup buckets ->
  (forall n, In n values -> In (bucketOf size n) buckets) ->
  list_sum (map (inBucket size values) buckets) = length values.
Proof.
  intros Hunique. induction values as [|n rest IH]; intros Hcover.
  - clear. induction buckets as [|b bs IHb]; [reflexivity|].
    change (inBucket size [] b + list_sum (map (inBucket size []) bs) = 0).
    rewrite IHb. reflexivity.
  - assert (Hone : forall bs, NoDup bs ->
              list_sum (map (inBucket size (n :: rest)) bs) =
              list_sum (map (inBucket size rest) bs) +
              (if existsb (Nat.eqb (bucketOf size n)) bs then 1 else 0)).
    { clear. induction bs as [|b bs IHb]; intros Hunique; [reflexivity|].
      inversion Hunique as [|? ? Hnotin Hrest]. subst.
      change (inBucket size (n :: rest) b + list_sum (map (inBucket size (n :: rest)) bs)
              = inBucket size rest b + list_sum (map (inBucket size rest) bs) +
                (if (bucketOf size n =? b)%nat || existsb (Nat.eqb (bucketOf size n)) bs
                 then 1 else 0)).
      rewrite (IHb Hrest), inBucket_cons.
      destruct (bucketOf size n =? b)%nat eqn:Hb; cbn [orb].
      - apply Nat.eqb_eq in Hb. subst b.
        destruct (existsb (Nat.eqb (bucketOf size n)) bs) eqn:Hin; [|lia].
        apply existsb_exists in Hin as (m & Hm & Heq%Nat.eqb_eq). congruence.
      - destruct (existsb (Nat.eqb (bucketOf size n)) bs); lia. }
    rewrite (Hone buckets Hunique), IH by (intros m Hm; apply Hcover; now right).
    assert (Hin : existsb (Nat.eqb (bucketOf size n)) buckets = true).
    { apply existsb_exists. exists (bucketOf size n).
      split; [apply Hcover; now left|apply Nat.eqb_refl]. }
    rewrite Hin. cbn [length]. lia.
Qed.

Variable engine : Engine.
Hypothesis conforming : Conforming (arraySort engine).

Lemma buildHistogram_spec (values : list nat) :
  NoDup (map fst (buildHistogram size values)) /\
  (forall k, In k (map fst (buildHistogram size values)) <->
             exists n, In n values /\ k = bucketLabel size (bucketOf size n)) /\
  (forall bucket,
     valueOf (buildHistogram size values) (bucketLabel size bucket) =
     inBucket size values bucket).
Proof.
  destruct (fill_spec values []) as (Hdup & Hkeys & Hvalues).
  split_and!.
  - apply Hdup. constructor.
  - intros k. etrans; [exact (Hkeys k)|]. cbn. tauto.
  - intros bucket. etrans; [exact (Hvalues bucket)|]. reflexivity.
Qed.

(** The histogram of a list of values as it is written. *)
Lemma sortedHistogram_spec (values : list nat) :
  exists buckets,
    sortedHistogram engine (buildHistogram size values) = histogramOf size values buckets /\
    StronglySorted lt buckets /\
    (forall bucket, In bucket buckets <->
                    exists n, In n values /\ bucketOf size n = bucket) /\
    list_sum (map snd (histogramOf size values buckets)) = length values.
Proof.
  destruct (buildHistogram_spec values) as (Hdup & Hlabels & Hvalues).
  set (histogram := buildHistogram size values) in *.
  assert (Hstart : forall k, In k (map fst histogram) ->
                             bucketStart k = Some (startOf k) /\
                             k = bucketLabel size (Z.to_nat (startOf k))).
  { intros k (n & _ & ->)%Hlabels. unfold startOf. rewrite bucketStart_label.
    split; [reflexivity|]. now rewrite Nat2Z.id. }
  unfold sortedHistogram.
  set (keys := arraySort engine string byBucketStart (map fst histogram)).
  pose proof (sort_permutation _ conforming string byBucketStart (map fst histogram))
    as Hperm. fold keys in Hperm.
  assert (Hsorted : keys = stableSort (byKey startOf) (map fst histogram)).
  { unfold keys. rewrite (sort_stable _ conforming) with (key := startOf).
    - apply stableSort_agree, keyedOn_agree.
      intros x y Hx Hy. unfold byBucketStart.
      destruct (Hstart x Hx) as [-> _]. destruct (Hstart y Hy) as [-> _]. reflexivity.
    - intros x y Hx Hy. unfold byBucketStart.
      destruct (Hstart x Hx) as [-> _]. destruct (Hstart y Hy) as [-> _]. reflexivity. }
  assert (Hin : forall k, In k keys <-> In k (map fst histogram)).
  { intros k. split; apply Permutation_in; [now apply Permutation_sym|exact Hperm]. }
  assert (Hunique : NoDup keys) by (eapply Permutation_NoDup; eassumption).
  exists (map (fun k => Z.to_nat (startOf k)) keys).
  assert (Hrelabel : map (bucketLabel size) (map (fun k => Z.to_nat (startOf k)) keys)
                     = keys).
  { rewrite map_map. rewrite <- (map_id keys) at 2. apply map_ext_in.
    intros k Hk%Hin. now destruct (Hstart k Hk) as [_ <-]. }
  assert (Hbuckets : NoDup (map (fun k => Z.to_nat (startOf k)) keys)).
  { apply (NoDup_map_inv (bucketLabel size)). now rewrite Hrelabel. }
  assert (Hmember : forall bucket,
            In bucket (map (fun k => Z.to_nat (startOf k)) keys) <->
            exists n, In n values /\ bucketOf size n = bucket).
  { intros bucket. rewrite in_map_iff. split.
    - intros (k & <- & Hk%Hin). pose proof Hk as (n & Hn & ->)%Hlabels.
      exists n. split; [exact Hn|]. unfold startOf. rewrite bucketStart_label.
      now rewrite Nat2Z.id.
    - intros (n & Hn & <-). exists (bucketLabel size (bucketOf size n)). split.
      + unfold startOf. rewrite bucketStart_label. now rewrite Nat2Z.id.
      + apply Hin, Hlabels. now exists n. }
  split_and!.
  - rewrite reduce_fresh; [|exact Hunique|].
    + cbn [app]. unfold histogramOf. rewrite map_map. apply map_ext_in.
      intros k Hk%Hin. destruct (Hstart k Hk) as [_ Hlabel].
      rewrite <- Hlabel. f_equal. rewrite Hlabel at 1. rewrite Hvalues.
      unfold valueOf. cbn. reflexivity.
    + intros k Hk. split; [intros []|now apply Hin].
  - apply sorted_nodup_strict; [|exact Hbuckets].
    pose proof (stableSort_ascending startOf (map fst histogram)) as Hasc.
    rewrite <- Hsorted in Hasc. unfold ascending in Hasc.
    assert (Hkeys' : forall k, In k keys -> (0 <= startOf k)%Z).
    { intros k Hk%Hin. pose proof Hk as (n & _ & ->)%Hlabels.
      unfold startOf. rewrite bucketStart_label. lia. }
    clear -Hasc Hkeys'. induction Hasc as [|k rest Hrest IH Hhead]; cbn [map].
    + constructor.
    + constructor.
      * apply IH. intros k' Hk'. apply Hkeys'. now right.
      * apply Forall_map. rewrite Forall_forall in Hhead. apply Forall_forall.
        intros k' Hk'. specialize (Hhead k' Hk').
        pose proof (Hkeys' k (or_introl eq_refl)).
        pose proof (Hkeys' k' (or_intror Hk')). lia.
  - exact Hmember.
  - unfold histogramOf. rewrite map_map. cbn [snd].
    apply inBucket_total; [exact Hbuckets|].
    intros n Hn. apply Hmember. now exists n.
Qed.

End HistogramFacts.

Section WrittenHistograms.
Import Sorting Enrichment Analysis.
Variable engine : Engine.
Hypothesis conforming : Conforming (arraySort engine).

Lemma splitWhiteSpace_nonempty (s : string) (inSeparator : bool) :
  1 <= length (splitWhiteSpace inSeparator s).
Proof.
  revert inSeparator. induction s as [|c rest IH]; intros inSeparator; cbn [splitWhiteSpace].
  - cbn. lia.
  - destruct (isWhiteSpace c).
    + destruct inSeparator; [apply IH|]. cbn [length]. lia.
    + destruct (splitWhiteSpace false rest); cbn [length]; lia.
Qed.

Lemma trimStart_length (s : string) : String.length (trimStart s) <= String.length s.
Proof.
  induction s as [|c rest IH]; [reflexivity|].
  cbn [trimStart]. destruct (isWhiteSpace c); cbn [String.length]; lia.
Qed.

Lemma trimEnd_length (s : string) : String.length (trimEnd s) <= String.length s.
Proof.
  induction s as [|c rest IH]; [reflexivity|].
  cbn [trimEnd]. destruct (trimEnd rest) as [|d kept].
  - destruct (isWhiteSpace c); cbn [String.length]; lia.
  - cbn [String.length] in *. lia.
Qed.

Lemma trim_length (s : string) : String.length (trim s) <= String.length s.
Proof.
  unfold trim. etrans; [apply trimEnd_length|apply trimStart_length].
Qed.

(** X25. [analyzeMessageWordCounts] counts the messages that are not
    media and whose body is a string with something other than white
    space in it, each by its number of words, and drops those above 200
    words. It writes nothing when no message is left. Otherwise the
    histogram it writes lists every bucket of five that holds a message,
    and no other, in ascending order, each with the number of messages in
    it; the numbers add up to the number of counted messages. *)
Theorem analyzeMessageWordCounts_histogram (messages : list Analysed) :
  let counts := wordCounts messages in
  Forall (fun n => 1 <= n <= 200) counts /\
  (analyzeMessageWordCounts engine messages = None <-> counts = []) /\
  (forall histogram,
     analyzeMessageWordCounts engine messages = Some histogram ->
     exists buckets,
       histogram = histogramOf 5 counts buckets /\
       StronglySorted lt buckets /\
       (forall bucket, In bucket buckets <->
                       exists n, In n counts /\ bucketOf 5 n = bucket) /\
       list_sum (map snd histogram) = length counts).
Proof.
  cbn zeta. split_and!.
  - unfold wordCounts. apply Forall_forall. intros n [Hn Hmax]%filter_In.
    apply Nat.leb_le in Hmax. split; [|exact Hmax].
    apply in_map_iff in Hn as (msg & <- & Hmsg). apply filter_In in Hmsg as [_ Hmsg].
    destruct (a_body msg); try (rewrite andb_false_r in Hmsg; discriminate).
    apply splitWhiteSpace_nonempty.
  - unfold analyzeMessageWordCounts.
    destruct (wordCounts messages) as [|n rest]; cbn [length Nat.eqb].
    + tauto.
    + split; discriminate.
  - intros histogram. unfold analyzeMessageWordCounts.
    destruct (length (wordCounts messages) =? 0)%nat; [discriminate|].
    intros [= <-].
    destruct (sortedHistogram_spec 5 engine conforming (wordCounts messages))
      as (buckets & Hhistogram & Hsorted & Hbuckets & Htotal).
    exists buckets. rewrite Hhistogram. now split_and!.
Qed.

(** X26. [analyzeMessageLengths] selects the messages that are not media
    and whose body is a string of 1 to 2000 characters, and places each by
    the length of its trimmed body, which can be zero. It writes nothing
    when no message is selected. Otherwise the histogram it writes lists
    every bucket of ten that holds a message, and no other, in ascending
    order, each with the number of messages in it; the numbers add up to
    the number of selected messages. *)
Theorem analyzeMessageLengths_histogram (messages : list Analysed) :
  let lengths := textLengths messages in
  Forall (fun n => n <= 2000) lengths /\
  (analyzeMessageLengths engine messages = None <-> lengths = []) /\
  (forall histogram,
     analyzeMessageLengths engine messages = Some histogram ->
     exists buckets,
       histogram = histogramOf 10 lengths buckets /\
       StronglySorted lt buckets /\
       (forall bucket, In bucket buckets <->
                       exists n, In n lengths /\ bucketOf 10 n = bucket) /\
       list_sum (map snd histogram) = length lengths).
Proof.
  cbn zeta. split_and!.
  - unfold textLengths. apply Forall_forall. intros n Hn.
    apply in_map_iff in Hn as (msg & <- & Hmsg). apply filter_In in Hmsg as [_ Hmsg].
    destruct (a_body msg); try (rewrite andb_false_r in Hmsg; discriminate).
    apply andb_true_iff in Hmsg as [_ [_ Hmax%Nat.leb_le]%andb_true_iff].
    etrans; [apply trim_length|exact Hmax].
  - unfold analyzeMessageLengths.
    destruct (textLengths messages) as [|n rest]; cbn [length Nat.eqb].
    + tauto.
    + split; discriminate.
  - intros histogram. unfold analyzeMessageLengths.
    destruct (length (textLengths messages) =? 0)%nat; [discriminate|].
    intros [= <-].
    destruct (sortedHistogram_spec 10 engine conforming (textLengths messages))
      as (buckets & Hhistogram & Hsorted & Hbuckets & Htotal).
    exists buckets. rewrite Hhistogram. now split_and!.
Qed.

End WrittenHistograms.

(** Texts of 7, 1, 2 and 12 words. *)
Lemma analyzeMessageWordCounts_histogram_witness :
  Analysis.analyzeMessageWordCounts Enrichment.v8Engine Samples.sampleTexts
    = Some [("0-4", 2); ("5-9", 1); ("10-14", 1)] /\
  exists buckets,
    [("0-4", 2); ("5-9", 1); ("10-14", 1)]
      = Analysis.histogramOf 5 (Analysis.wordCounts Samples.sampleTexts) buckets /\
    StronglySorted lt buckets.
Proof.
  split; [reflexivity|].
  destruct (analyzeMessageWordCounts_histogram Enrichment.v8Engine v8Sort_conforming
              Samples.sampleTexts) as (_ & _ & Hwritten).
  destruct (Hwritten _ eq_refl) as (buckets & Hhistogram & Hsorted & _).
  now exists buckets.
Defined.

(** Five texts are selected; the blank one is placed at length 0. *)
Lemma analyzeMessageLengths_histogram_witness :
  Analysis.analyzeMessageLengths Enrichment.v8Engine Samples.sampleTexts
    = Some [("0-9", 3); ("10-19", 1); ("20-29", 1)] /\
  exists buckets,
    [("0-9", 3); ("10-19", 1); ("20-29", 1)]
      = Analysis.histogramOf 10 (Analysis.textLengths Samples.sampleTexts) buckets /\
    StronglySorted lt buckets.
Proof.
  split; [reflexivity|].
  destruct (analyzeMessageLengths_histogram Enrichment.v8Engine v8Sort_conforming
              Samples.sampleTexts) as (_ & _ & Hwritten).
  destruct (Hwritten _ eq_refl) as (buckets & Hhistogram & Hsorted & _).
  now exists buckets.
Defined.

(** ** Exported messages under the word analysis *)

Section AnalysedExports.
Import Enrichment Analysis.
Variable common : Common.
Variable engine : Engine.

(** X27. An exported record has no [isMedia] property, so the word
    analysis, which [processGroup] runs on the exported records, does not
    recognise a media message: the placeholder that stands for its body is
    counted as a text of three words. *)
Theorem exported_media_is_counted (msg : RawMessage) (members : list Participant)
  (index : nat) (final : EnrichedMessage) :
  msg_isMedia msg = true ->
  addFinalMetadata engine (enrichSingleMessage common msg members) index = Returned final ->
  body final = "<Media Message (Truncated)>" /\
  a_isMedia (ofExported final) = false /\
  wordCounts [ofExported final] = [3].
Proof.
  intros Hmedia. unfold addFinalMetadata.
  destruct (formatTimestamp engine (e_timestamp (enrichSingleMessage common msg members)))
    as [datetime|]; [|discriminate].
  intros [= <-]. cbn [body enrichSingleMessage e_body].
  unfold extractMessageBody. rewrite Hmedia. split_and!; reflexivity.
Qed.

End AnalysedExports.

(** A photo: the export holds the placeholder, the analysis finds three
    words. *)
Lemma exported_media_is_counted_witness :
  Analysis.analyzeMessageWordCounts Enrichment.v8Engine
    [Analysis.ofExported
       (Enrichment.mkEnrichedMessage 1 "100000" "P1" Enrichment.UnknownMember
          "<Media Message (Truncated)>" None None)]
  = Some [("0-4", 1)] /\
  Analysis.wordCounts
    [Analysis.ofExported
       (Enrichment.mkEnrichedMessage 1 "100000" "P1" Enrichment.UnknownMember
          "<Media Message (Truncated)>" None None)]
  = [3].
Proof.
  split; [reflexivity|].
  apply (exported_media_is_counted Enrichment.noCommon Enrichment.v8Engine
           Samples.photo [] 0
           (Enrichment.mkEnrichedMessage 1 "100000" "P1" Enrichment.UnknownMember
              "<Media Message (Truncated)>" None None));
    reflexivity.
Defined.

(** ** The merge invents nothing *)

Section MergeSoundness.
Import Participants.

Lemma mergeField_sound (x y : option string) :
  (forall v, fst (mergeField x y) = Some v -> x = Some v \/ y = Some v) /\
  (forall v, snd (mergeField x y) = Some v ->
     y = Some v /\ truthy v = true /\
     exists u, x = Some u /\ truthy u = true /\ u <> v /\ fst (mergeField x y) = Some u).
Proof.
  unfold mergeField.
  destruct (truthyOpt x && truthyOpt y && strictNe x y) eqn:Hconflict.
  - apply andb_true_iff in Hconflict as [[Hx Hy]%andb_true_iff Hne].
    apply strictNe_true in Hne. cbn [fst snd]. split; [tauto|].
    intros v ->. destruct x as [u|]; [|discriminate Hx].
    split_and!; [reflexivity|exact Hy|]. exists u. split_and!; try tauto.
    intros ->. now apply Hne.
  - cbn [fst snd]. split; [|discriminate].
    intros v. unfold orElse. destruct (truthyOpt x); tauto.
Qed.

Lemma nameFallback_sound (name ua ub : option string) (v : string) :
  nameFallback name ua ub = Some v -> name = Some v \/ ua = Some v \/ ub = Some v.
Proof.
  unfold nameFallback.
  destruct (truthyOpt ua && negb (truthyOpt name));
    destruct (truthyOpt ub && negb (truthyOpt _)); tauto.
Qed.

(** X28. [mergeParticipants] invents nothing. Every value of the merged
    record is a value of one of the two inputs, and an [alt] key appears
    only on a genuine conflict: it holds the non-empty value of [b], while
    the primary key holds a different non-empty value of [a]. So merging a
    record with itself or with [{}] yields no [alt] key. *)
Theorem mergeParticipants_sound (a b : Identity) :
  let r := mergeParticipants a b in
  (forall v, In v (mergedValues r) ->
             In v (identityValues a) \/ In v (identityValues b)) /\
  (forall v, m_altId r = Some v ->
     p_id b = Some v /\ truthy v = true /\
     exists u, p_id a = Some u /\ truthy u = true /\ u <> v /\ m_id r = Some u) /\
  (forall v, m_altPhone r = Some v ->
     p_phone b = Some v /\ truthy v = true /\
     exists u, p_phone a = Some u /\ truthy u = true /\ u <> v /\ m_phone r = Some u) /\
  (forall v, m_altName r = Some v ->
     p_name b = Some v /\ truthy v = true /\
     exists u, p_name a = Some u /\ truthy u = true /\ u <> v /\ m_name r = Some u) /\
  (a = b \/ b = emptyIdentity ->
   m_altId r = None /\ m_altPhone r = None /\ m_altName r = None).
Proof.
  cbn zeta. rewrite mergeParticipants_fields.
  cbn [m_id m_altId m_phone m_altPhone m_name m_altName].
  destruct (mergeField_sound (p_id a) (p_id b)) as [Hid HaltId].
  destruct (mergeField_sound (p_phone a) (p_phone b)) as [Hphone HaltPhone].
  destruct (mergeField_sound (p_name a) (p_name b)) as [Hname HaltName].
  split_and!.
  - intros v. unfold mergedValues, identityValues.
    cbn [m_id m_altId m_phone m_altPhone m_name m_altName].
    rewrite !in_app_iff.
    assert (Hopt : forall (o : option string) w, In w (option_list o) <-> o = Some w).
    { intros [u|] w; cbn; split; try tauto; try discriminate.
      - intros [-> | []]. reflexivity.
      - intros [= ->]. now left. }
    rewrite !Hopt.
    intros [H | [H | [H | [H | [H | H]]]]].
    + destruct (Hid v H); tauto.
    + destruct (HaltId v H) as [Hb _]. tauto.
    + destruct (Hphone v H); tauto.
    + destruct (HaltPhone v H) as [Hb _]. tauto.
    + destruct (nameFallback_sound _ _ _ _ H) as [Hn | [Hu | Hu]];
        [destruct (Hname v Hn)| |]; tauto.
    + destruct (HaltName v H) as [Hb _]. tauto.
  - intros v Hv. destruct (HaltId v Hv) as (Hb & Hok & u & Ha & Hu & Hne & Hprimary).
    split_and!; try assumption. now exists u.
  - intros v Hv. destruct (HaltPhone v Hv) as (Hb & Hok & u & Ha & Hu & Hne & Hprimary).
    split_and!; try assumption. now exists u.
  - intros v Hv. destruct (HaltName v Hv) as (Hb & Hok & u & Ha & Hu & Hne & Hprimary).
    split_and!; try assumption. exists u. split_and!; try assumption.
    rewrite nameFallback_named; [exact Hprimary|]. rewrite Hprimary. exact Hu.
  - intros Hsame.
    assert (Hnone : forall x y : option string,
              x = y \/ y = None -> snd (mergeField x y) = None).
    { intros x y Hxy. destruct (snd (mergeField x y)) as [v|] eqn:Halt; [|reflexivity].
      destruct (mergeField_sound x y) as [_ Hsound].
      destruct (Hsound v Halt) as (Hy & _ & u & Hx & _ & Hne & _).
      destruct Hxy; congruence. }
    destruct Hsame as [-> | ->]; split_and!; apply Hnone; auto.
Qed.

End MergeSoundness.
